(** * Mess Up Game: the document-to-puzzle compiler and the puzzle engine

    A shallow embedding of [src/main.ts]: the Markdown parser
    ([MessUpPlugin.parseMarkdownToGame]), the session generator
    ([MessUpGameView.startSession]), the correctness evaluator
    ([isSlotCorrect], [isBlockFullyRestored], [checkWinCondition]) and the
    click / timer events of the view, followed by the properties of the
    specification that were checked against them. *)

From Stdlib Require Import List NArith ZArith Bool Arith Lia Permutation.
From Stdlib Require Import String Ascii DecimalString DecimalNat.
From Stdlib Require Import PrimFloat FloatOps SpecFloat Uint63.
From Stdlib Require Import QArith Qround.
Import ListNotations.
Close Scope Q_scope.

Set Implicit Arguments.
Set Warnings "-inexact-float".

(** ** JavaScript strings

    A JavaScript string is a sequence of UTF-16 code units; a code unit is
    modelled by its number. *)

Definition char16 := N.
Definition jstring := list char16.

(** [js "abc"] is the JavaScript string with the code units of an ASCII
    literal. *)
Definition js (s : string) : jstring :=
  List.map N_of_ascii (list_ascii_of_string s).

Definition LF : char16 := 10%N.
Definition CR : char16 := 13%N.
Definition TAB : char16 := 9%N.

Definition jseq (a b : jstring) : bool :=
  if list_eq_dec N.eq_dec a b then true else false.

(** [\s] of a regular expression and the characters [String.prototype.trim]
    removes: WhiteSpace and LineTerminator of ECMAScript. *)
Definition is_ws (c : char16) : bool :=
  ((9 <=? c) && (c <=? 13) || (c =? 32) || (c =? 160) || (c =? 5760)
   || (8192 <=? c) && (c <=? 8202) || (c =? 8232) || (c =? 8233)
   || (c =? 8239) || (c =? 8287) || (c =? 12288) || (c =? 65279))%N.

(** The characters [.] does not match (no [s] flag). *)
Definition is_line_terminator (c : char16) : bool :=
  ((c =? 10) || (c =? 13) || (c =? 8232) || (c =? 8233))%N.

(** [\d] *)
Definition is_digit (c : char16) : bool := ((48 <=? c) && (c <=? 57))%N.

Definition is_char (a : ascii) (c : char16) : bool := (c =? N_of_ascii a)%N.

Fixpoint dropWhile (p : char16 -> bool) (s : jstring) : jstring :=
  match s with
  | [] => []
  | c :: s' => if p c then dropWhile p s' else s
  end.

Fixpoint takeWhile (p : char16 -> bool) (s : jstring) : jstring :=
  match s with
  | [] => []
  | c :: s' => if p c then c :: takeWhile p s' else []
  end.

(** [s.trim()] *)
Definition trim (s : jstring) : jstring :=
  rev (dropWhile is_ws (rev (dropWhile is_ws s))).

(** [s.startsWith(p)] *)
Fixpoint startsWith (p s : jstring) : bool :=
  match p, s with
  | [], _ => true
  | _ :: _, [] => false
  | a :: p', b :: s' => (a =? b)%N && startsWith p' s'
  end.

(** [s.substring(a, b)] for [a <= b] *)
Definition substring (a b : nat) (s : jstring) : jstring :=
  firstn (b - a) (skipn a s).

(** [`${n}`] for a non-negative integer [n] *)
Definition decimal (n : nat) : jstring :=
  js (NilEmpty.string_of_uint (Nat.to_uint n)).

(** [content.split(/\r?\n/)]; [cur] is the line being read, reversed. *)
Fixpoint splitLines (cur : jstring) (s : jstring) : list jstring :=
  match s with
  | [] => [rev cur]
  | c :: rest =>
      if (c =? LF)%N then rev cur :: splitLines [] rest
      else match rest with
           | d :: rest' =>
               if ((c =? CR) && (d =? LF))%N then rev cur :: splitLines [] rest'
               else splitLines (c :: cur) rest
           | [] => splitLines (c :: cur) rest
           end
  end.

(** ** Regular expressions

    The patterns of the source have no back-references and no look-around, so
    a backtracking matcher finds a match exactly when one exists.  All of
    them are anchored by [^]; [matchPrefix r s] says that some prefix of [s]
    matches [r], which is whether [r.test(s)] is true and [s.match(r)] is not
    [null]. *)

Inductive regex : Type :=
| Eps : regex
| Chr : (char16 -> bool) -> regex
| Seq : regex -> regex -> regex
| Alt : regex -> regex -> regex
| Star : regex -> regex.

Definition Plus (r : regex) : regex := Seq r (Star r).
Definition Opt (r : regex) : regex := Alt r Eps.

(** [accepts r s k]: some prefix of [s] matches [r] and the continuation [k]
    accepts what is left.  An iteration of a star that consumes nothing is
    cut, as the matcher of the language does. *)
Fixpoint accepts (r : regex) (s : jstring) (k : jstring -> bool) {struct r} : bool :=
  match r with
  | Eps => k s
  | Chr p => match s with
             | c :: s' => p c && k s'
             | [] => false
             end
  | Seq a b => accepts a s (fun s' => accepts b s' k)
  | Alt a b => accepts a s k || accepts b s k
  | Star a =>
      (fix iter (fuel : nat) (s : jstring) {struct fuel} : bool :=
         match fuel with
         | O => k s
         | S fuel' =>
             accepts a s (fun s' =>
               if Nat.ltb (List.length s') (List.length s) then iter fuel' s' else false)
             || k s
         end) (List.length s) s
  end.

Definition matchPrefix (r : regex) (s : jstring) : bool :=
  accepts r s (fun _ => true).

(** The list pattern: [^], [\s*], the group [[-*+]|\d+\.], [\s+]. *)
Definition is_bullet (c : char16) : bool :=
  is_char "-" c || is_char "*" c || is_char "+" c.

Definition listRegex : regex :=
  Seq (Star (Chr is_ws))
      (Seq (Alt (Chr is_bullet) (Seq (Plus (Chr is_digit)) (Chr (is_char "."))))
           (Plus (Chr is_ws))).

(** The bullet pattern: [^], [\s*], the group [[-*+]], [\s+]. *)
Definition unorderedRegex : regex :=
  Seq (Star (Chr is_ws)) (Seq (Chr is_bullet) (Plus (Chr is_ws))).

(** The heading pattern: [^], the group [#+], [\s+], the group [.*]. *)
Definition headingRegex : regex :=
  Seq (Plus (Chr (is_char "#")))
      (Seq (Plus (Chr is_ws)) (Star (Chr (fun c => negb (is_line_terminator c))))).

(** The separator-row pattern: [^], [\|?], [\s*], [[:\- ]+], [\s*], [\|]. *)
Definition is_sep_char (c : char16) : bool :=
  is_char ":" c || is_char "-" c || is_char " " c.

Definition separatorRegex : regex :=
  Seq (Opt (Chr (is_char "|")))
      (Seq (Star (Chr is_ws))
           (Seq (Plus (Chr is_sep_char))
                (Seq (Star (Chr is_ws)) (Chr (is_char "|"))))).

(** ** Data model *)

Inductive Difficulty : Type := easy | medium | hard.

(** [interface GameItem]; an optional field is an [option]. *)
Record GameItem : Type := mkItem {
  id : jstring;
  text : jstring;
  originalHeading : jstring;
  originalIndex : nat;
  indentation : nat;
  isListItem : bool;
  listMarker : option jstring;
  isStatic : bool;
  isSubHeading : bool;
  blockId : option jstring;
  flexGroupId : option jstring
}.

Record GameHeading : Type := mkHeading {
  title : jstring;
  items : list GameItem;
  isRestored : bool
}.

(** [interface GameState]; [prefilledIndices] is a [Set<number>], kept as the
    list of its members in insertion order. *)
Record GameState : Type := mkState {
  fileName : jstring;
  filePath : jstring;
  headings : list GameHeading;
  activeHeadingIndex : option nat;
  difficulty : Difficulty;
  slots : list (option GameItem);
  prefilledIndices : list nat;
  poolHeightPercent : Z;
  poolItems : list GameItem
}.

Definition setFlexGroupId (item : GameItem) (g : jstring) : GameItem :=
  mkItem (id item) (text item) (originalHeading item) (originalIndex item)
         (indentation item) (isListItem item) (listMarker item) (isStatic item)
         (isSubHeading item) (blockId item) (Some g).

Definition setRestored (h : GameHeading) : GameHeading :=
  mkHeading (title h) (items h) true.

(** ** The parser: [parseMarkdownToGame] *)

(** [indentMatch[1].replace(/\t/g, '    ').length]: the leading white space,
    a tab counting for four. *)
Definition indentationOf (text : jstring) : nat :=
  fold_right (fun c n => (if (c =? TAB)%N then 4 else 1) + n) 0
             (takeWhile is_ws text).

(** [listMatch[1]] when the list pattern matches: [\s*] takes all the leading
    white space (the group cannot start with a white space), then the group
    is one bullet, or all the digits that follow and the dot. *)
Definition listMarkerOf (text : jstring) : jstring :=
  let rest := dropWhile is_ws text in
  match rest with
  | c :: _ => if is_bullet c then [c] else takeWhile is_digit rest ++ js "."
  | [] => []
  end.

(** [line.match(...)] with the heading pattern: [headingMatch[1].length] and
    [headingMatch[2]].  [#+] takes all the leading hashes (a hash is no white
    space), [\s+] all the white space after them, and [.*] runs to the first
    line terminator. *)
Definition headingMatch (line : jstring) : option (nat * jstring) :=
  if matchPrefix headingRegex line then
    let hashes := takeWhile (is_char "#") line in
    let rest := dropWhile is_ws (dropWhile (is_char "#") line) in
    Some (List.length hashes, takeWhile (fun c => negb (is_line_terminator c)) rest)
  else None.

Definition isUnordered (text : jstring) : bool := matchPrefix unorderedRegex text.

Definition isSeparatorRow (nextLine : jstring) : bool :=
  matchPrefix separatorRegex nextLine.

(** [lines[i+1]?.trim() || ""] *)
Definition nextLineOf (lines : list jstring) (i : nat) : jstring :=
  match nth_error lines (S i) with
  | Some l => trim l
  | None => []
  end.

Definition introduction : GameHeading := mkHeading (js "Introduction") [] false.

(** The state of the main loop of the parser. *)
Record PState : Type := mkPState {
  ps_i : nat;
  ps_current : GameHeading;
  ps_headings : list GameHeading;
  ps_rng : nat
}.

Section Parser.

(** [rand36 k] is what the [k]-th evaluation of
    [Math.random().toString(36)] returns. *)
Variable rand36 : nat -> jstring.

(** The object [pushItem] builds; [rng] is the number of random draws made
    so far. *)
Definition newItem (heading : GameHeading) (rng : nat) (text : jstring)
    (isStatic isSubHeading : bool) (blockId : option jstring) : GameItem :=
  let isListItem := matchPrefix listRegex text in
  {| id := title heading ++ js "-" ++ decimal (List.length (items heading))
             ++ js "-" ++ substring 2 7 (rand36 rng);
     text := text;
     originalHeading := title heading;
     originalIndex := List.length (items heading);
     indentation := indentationOf text;
     isListItem := isListItem;
     listMarker := if isListItem then Some (listMarkerOf text) else None;
     isStatic := isStatic;
     isSubHeading := isSubHeading;
     blockId := blockId;
     flexGroupId := None |}.

(** The closure [pushItem]; the heading is updated in place in the source and
    returned here, with the number of random draws made so far. *)
Definition pushItem (heading : GameHeading) (rng : nat) (text : jstring)
    (isStatic isSubHeading : bool) (blockId : option jstring) : GameHeading * nat :=
  (mkHeading (title heading)
             (items heading ++ [newItem heading rng text isStatic isSubHeading blockId])
             (isRestored heading),
   S rng).

(** The inner loop of a table: [rest] is [lines] from index [i] on. *)
Fixpoint tableRows (rest : list jstring) (bId : jstring) (cur : GameHeading)
    (rng i : nat) : GameHeading * nat * nat :=
  match rest with
  | l :: rest' =>
      if startsWith (js "|") (trim l) then
        let '(cur', rng') := pushItem cur rng l false false (Some bId) in
        tableRows rest' bId cur' rng' (S i)
      else (cur, rng, i)
  | [] => (cur, rng, i)
  end.

(** The inner loop of a callout: it runs while the line starts with [>] or is
    blank, and leaves at a blank line without consuming it. *)
Fixpoint calloutRows (rest : list jstring) (bId : jstring) (cur : GameHeading)
    (rng i : nat) : GameHeading * nat * nat :=
  match rest with
  | l :: rest' =>
      if startsWith (js ">") (trim l) || jseq (trim l) [] then
        if startsWith (js ">") (trim l) then
          let '(cur', rng') := pushItem cur rng l false false (Some bId) in
          calloutRows rest' bId cur' rng' (S i)
        else (cur, rng, i)
      else (cur, rng, i)
  | [] => (cur, rng, i)
  end.

(** One turn of [while (i < lines.length)], for [i < lines.length]. *)
Definition parseStep (lines : list jstring) (st : PState) : PState :=
  let i := ps_i st in
  let currentHeading := ps_current st in
  let rng := ps_rng st in
  match nth_error lines i with
  | None => st
  | Some line =>
      let trimmed := trim line in
      if jseq trimmed [] && (List.length line =? 0) then
        mkPState (S i) currentHeading (ps_headings st) rng
      else
        match headingMatch line with
        | Some (level, htitle) =>
            if level <=? 2 then
              mkPState (S i) (mkHeading htitle [] false)
                (if 0 <? List.length (items currentHeading)
                 then ps_headings st ++ [currentHeading] else ps_headings st)
                rng
            else
              let '(cur', rng') := pushItem currentHeading rng line false true None in
              mkPState (S i) cur' (ps_headings st) rng'
        | None =>
            if startsWith (js "|") trimmed && isSeparatorRow (nextLineOf lines i) then
              let bId := js "table-" ++ decimal i in
              let '(cur1, rng1) := pushItem currentHeading rng line true false (Some bId) in
              let '(cur2, rng2) :=
                pushItem cur1 rng1 (nth (S i) lines []) true false (Some bId) in
              let '(cur3, rng3, i3) :=
                tableRows (skipn (i + 2) lines) bId cur2 rng2 (i + 2) in
              mkPState i3 cur3 (ps_headings st) rng3
            else if startsWith (js "> [!") trimmed then
              let bId := js "callout-" ++ decimal i in
              let '(cur1, rng1) := pushItem currentHeading rng line true false (Some bId) in
              let '(cur2, rng2, i2) :=
                calloutRows (skipn (S i) lines) bId cur1 rng1 (S i) in
              mkPState i2 cur2 (ps_headings st) rng2
            else
              let '(cur', rng') := pushItem currentHeading rng line false false None in
              mkPState (S i) cur' (ps_headings st) rng'
        end
  end.

(** The main loop; [None] when the fuel runs out before [i] reaches
    [lines.length]. *)
Fixpoint parseLoop (fuel : nat) (lines : list jstring) (st : PState) : option PState :=
  if List.length lines <=? ps_i st then Some st
  else match fuel with
       | O => None
       | S fuel' => parseLoop fuel' lines (parseStep lines st)
       end.

(** *** The flexible-group pass *)

(** The loop variables of the pass over one heading.  [parentStack] holds the
    entries pushed above the bottom entry [{ indent: -1, index: -1 }], the
    last pushed first; the bottom entry is never popped
    ([parentStack.length > 1]). *)
Record FlexState : Type := mkFlex {
  parentStack : list (Z * Z);
  currentFlexGroupId : option jstring;
  lastParentIdx : Z;
  lastIndent : Z;
  fx_rng : nat
}.

Definition flexInit (rng : nat) : FlexState := mkFlex [] None (-2) (-1) rng.

Fixpoint popParents (stack : list (Z * Z)) (indent : Z) : list (Z * Z) :=
  match stack with
  | top :: rest => if (indent <=? fst top)%Z then popParents rest indent else stack
  | [] => []
  end.

Definition topIndex (stack : list (Z * Z)) : Z :=
  match stack with
  | top :: _ => snd top
  | [] => (-1)%Z
  end.

(** [nextItem && nextItem.indentation > item.indentation] *)
Definition hasChildrenOf (item : GameItem) (nextItem : option GameItem) : bool :=
  match nextItem with
  | Some n => indentation item <? indentation n
  | None => false
  end.

(** The body of [for (let j = 0; j < items.length; j++)]: the item as the
    turn leaves it, and the loop variables after the turn. *)
Definition flexTurn (htitle : jstring) (j : nat) (item : GameItem)
    (nextItem : option GameItem) (fs : FlexState) : GameItem * FlexState :=
  let stack := popParents (parentStack fs) (Z.of_nat (indentation item)) in
  let parentIdx := topIndex stack in
  let hasChildren := hasChildrenOf item nextItem in
  let static := isStatic item || isSubHeading item in
  let stack' :=
    if hasChildren then (Z.of_nat (indentation item), Z.of_nat j) :: stack else stack in
  if negb (isUnordered (text item)) || static || hasChildren then
    (item, mkFlex stack' None parentIdx (Z.of_nat (indentation item)) (fx_rng fs))
  else
    let fresh :=
      match currentFlexGroupId fs with
      | None => true
      | Some _ => negb (parentIdx =? lastParentIdx fs)%Z
                  || negb (Z.of_nat (indentation item) =? lastIndent fs)%Z
      end in
    let g :=
      if fresh then
        js "flex-" ++ htitle ++ js "-" ++ decimal j ++ js "-"
           ++ substring 2 5 (rand36 (fx_rng fs))
      else match currentFlexGroupId fs with Some g => g | None => [] end in
    (setFlexGroupId item g,
     mkFlex stack' (Some g) parentIdx (Z.of_nat (indentation item))
            (if fresh then S (fx_rng fs) else fx_rng fs)).

Fixpoint flexLoop (htitle : jstring) (j : nat) (its : list GameItem)
    (fs : FlexState) : list GameItem * nat :=
  match its with
  | [] => ([], fx_rng fs)
  | item :: rest =>
      let '(item', fs') := flexTurn htitle j item (hd_error rest) fs in
      let '(rest', rng') := flexLoop htitle (S j) rest fs' in
      (item' :: rest', rng')
  end.

(** [headings.forEach(h => ...)] *)
Fixpoint flexPass (hs : list GameHeading) (rng : nat) : list GameHeading :=
  match hs with
  | [] => []
  | h :: hs' =>
      let '(its, rng') := flexLoop (title h) 0 (items h) (flexInit rng) in
      mkHeading (title h) its (isRestored h) :: flexPass hs' rng'
  end.

Definition parseInit : PState := mkPState 0 introduction [] 0.

Definition parseMarkdownToGame (content fileName filePath : jstring) : option GameState :=
  let lines := splitLines [] content in
  match parseLoop (List.length lines) lines parseInit with
  | None => None
  | Some st =>
      Some {| fileName := fileName;
              filePath := filePath;
              headings := flexPass (ps_headings st ++ [ps_current st]) (ps_rng st);
              activeHeadingIndex := None;
              difficulty := medium;
              slots := [];
              prefilledIndices := [];
              poolHeightPercent := 30;
              poolItems := [] |}
  end.

End Parser.

(** ** The correctness evaluator *)

(** How a call ended: it returned a value, or it threw a [TypeError] by
    reading a property of [undefined]. *)
Inductive outcome (A : Type) : Type :=
| Returns : A -> outcome A
| Throws : outcome A.
Arguments Throws {A}.

(** The truth value of a [string | undefined]: the empty string is falsy. *)
Definition truthy (s : option jstring) : bool :=
  match s with
  | Some (_ :: _) => true
  | _ => false
  end.

(** [a === b] on [string | undefined] *)
Definition optEq (a b : option jstring) : bool :=
  match a, b with
  | Some x, Some y => jseq x y
  | None, None => true
  | _, _ => false
  end.

(** [slots[idx]]: [null] and [undefined] (out of range) are both falsy. *)
Definition slotAt (slots : list (option GameItem)) (idx : nat) : option GameItem :=
  match nth_error slots idx with
  | Some s => s
  | None => None
  end.

Definition isSlotCorrect (itemInSlot : option GameItem) (originalIndex0 : nat)
    (heading : GameHeading) : outcome bool :=
  match itemInSlot with
  | None => Returns false
  | Some it =>
      let originalItemAtThisSlot := nth_error (items heading) originalIndex0 in
      if (originalIndex it =? originalIndex0) && jseq (originalHeading it) (title heading)
      then Returns true
      else match originalItemAtThisSlot with
           | None => Throws
           | Some orig =>
               if truthy (flexGroupId orig) && optEq (flexGroupId it) (flexGroupId orig)
               then Returns true
               else Returns false
           end
  end.

(** [l.every(f)], which stops at the first [false] and lets an exception
    through. *)
Fixpoint every (A : Type) (f : A -> outcome bool) (l : list A) : outcome bool :=
  match l with
  | [] => Returns true
  | x :: l' =>
      match f x with
      | Returns true => every f l'
      | Returns false => Returns false
      | Throws => Throws
      end
  end.

(** [l.map((x, idx) => f x idx)] *)
Fixpoint mapi_from (A B : Type) (f : A -> nat -> B) (idx : nat) (l : list A) : list B :=
  match l with
  | [] => []
  | x :: l' => f x idx :: mapi_from f (S idx) l'
  end.

Definition mapi (A B : Type) (f : A -> nat -> B) (l : list A) : list B :=
  mapi_from f 0 l.

(** [its.map((item, idx) => p(item) ? idx : -1).filter(idx => idx !== -1)];
    [indicesFrom] is the same with the indices counted from [k]. *)
Definition indicesFrom (p : GameItem -> bool) (k : nat) (its : list GameItem) : list nat :=
  List.map Z.to_nat
    (filter (fun idx => negb (idx =? -1)%Z)
            (mapi_from (fun item idx => if p item then Z.of_nat idx else (-1)%Z) k its)).

Definition indicesWhere (p : GameItem -> bool) (its : list GameItem) : list nat :=
  indicesFrom p 0 its.

(** [item.blockId === blockId] *)
Definition inBlock (bId : jstring) (item : GameItem) : bool :=
  optEq (blockId item) (Some bId).

Definition isBlockFullyRestored (bId : jstring) (heading : GameHeading)
    (slots : list (option GameItem)) : outcome bool :=
  let blockIndices := indicesWhere (inBlock bId) (items heading) in
  every (fun idx => isSlotCorrect (slotAt slots idx) idx heading) blockIndices.

(** [state.slots.every((item, idx) => this.isSlotCorrect(item, idx, heading))] *)
Definition isPerfect (slots : list (option GameItem)) (heading : GameHeading) : outcome bool :=
  every (fun p => isSlotCorrect (fst p) (snd p) heading)
        (mapi (fun item idx => (item, idx)) slots).

(** [checkWinCondition]: the heading as the call leaves it, and whether the
    call scheduled the one-second timer. *)
Definition checkWinCondition (slots : list (option GameItem)) (heading : GameHeading)
    : outcome (GameHeading * bool) :=
  match isPerfect slots heading with
  | Returns true => Returns (setRestored heading, true)
  | Returns false => Returns (heading, false)
  | Throws => Throws
  end.

(** ** Numbers

    A JavaScript number is an IEEE 754 binary64 value; the scores and the
    random draws of the session generator are primitive floats. *)

Definition ofNat (n : nat) : float := PrimFloat.of_uint63 (Uint63.of_Z (Z.of_nat n)).

(** [Math.floor(x)] as an integer; [None] for [NaN] and the infinities. *)
Definition floorF (x : float) : option Z :=
  match Prim2SF x with
  | S754_zero _ => Some 0%Z
  | S754_finite s m e =>
      let sm := if s then Z.neg m else Z.pos m in
      Some (if (0 <=? e)%Z then sm * 2 ^ e else sm / 2 ^ (- e))%Z
  | S754_infinity _ => None
  | S754_nan => None
  end.

(** [arr[Math.floor(r * arr.length)]], [undefined] when there is no such
    element. *)
Definition pickAt (A : Type) (arr : list A) (r : float) : option A :=
  match floorF (r * ofNat (List.length arr)) with
  | Some z => if (0 <=? z)%Z then nth_error arr (Z.to_nat z) else None
  | None => None
  end.

(** [DIFFICULTY_CONFIG] *)
Definition prefillPercent (d : Difficulty) : float :=
  match d with
  | easy => 0.7
  | medium => 0.4
  | hard => 0.1
  end%float.

Definition intruders (d : Difficulty) : nat :=
  match d with
  | easy => 1
  | medium => 3
  | hard => 6
  end.

(** The same three numbers as [mantissa * 2 ^ (- shift)]: the binary64 values
    the literals [0.7], [0.4] and [0.1] denote. *)
Definition prefillPercentBits (d : Difficulty) : Z * Z :=
  match d with
  | easy => (6305039478318694, 53)
  | medium => (7205759403792794, 54)
  | hard => (7205759403792794, 56)
  end%Z.

(** The integer [p >= 0] rounded to 53 significant bits, to nearest and ties
    to even: the result [(q, s)] stands for [q * 2 ^ s]. *)
Definition round53 (p : Z) : Z * Z :=
  let bits := (Z.log2 p + 1)%Z in
  if (bits <=? 53)%Z then (p, 0%Z)
  else
    let s := (bits - 53)%Z in
    let q := Z.shiftr p s in
    let r := (p - Z.shiftl q s)%Z in
    let half := Z.shiftl 1 (s - 1) in
    (if (half <? r)%Z || (r =? half)%Z && Z.odd q then (q + 1)%Z else q, s).

(** [Math.floor(n * c)] for an array length [n] (below [2 ^ 53], so exact as
    a number) and [c = m * 2 ^ (- k)]: the exact product [n * m * 2 ^ (- k)]
    is rounded to binary64, then floored.  Written with integers so that it
    can be reasoned about; [numToPrefill_float] checks it against the
    primitive floats. *)
Definition floorMul (n : nat) (m k : Z) : Z :=
  let '(q, s) := round53 (Z.of_nat n * m) in
  Z.shiftr (Z.shiftl q s) k.

(** [Math.floor(playableIndices.length * config.prefillPercent)] *)
Definition numToPrefill (n : nat) (d : Difficulty) : nat :=
  let '(m, k) := prefillPercentBits d in Z.to_nat (floorMul n m k).

(** ** The session generator: [startSession] *)

(** A [Set], as the list of its members in insertion order. *)
Section SetOf.
Variable A : Type.
Variable eqb : A -> A -> bool.

Definition setHas (s : list A) (x : A) : bool := existsb (eqb x) s.
Definition setAdd (s : list A) (x : A) : list A := if setHas s x then s else s ++ [x].
(** [new Set(l)] *)
Definition newSet (l : list A) : list A := fold_left setAdd l [].
End SetOf.

(** The random choices of one call of [startSession]: [random k] is what the
    [k]-th evaluation of [Math.random()] returns, and [shuffled l] is the
    order in which [l.sort(() => Math.random() - 0.5)] leaves [l] (the order
    a sort produces with an inconsistent comparator is left to the engine). *)
Record Random : Type := mkRandom {
  random : nat -> float;
  shuffled : list GameItem -> list GameItem
}.

(** [arr[idx] = v] for [idx] in range *)
Fixpoint setNth (A : Type) (l : list A) (idx : nat) (v : A) : list A :=
  match l, idx with
  | [], _ => []
  | _ :: l', O => v :: l'
  | x :: l', S idx' => x :: setNth l' idx' v
  end.

Definition stabilityScore (item : GameItem) (r : float) : float :=
  if isSubHeading item then 999%float
  else (100 / ((ofNat (indentation item) / 4) + 1) + r * 20)%float.

(** [playableIndices.map(idx => ...)]; [k] counts the random draws.  Every
    [idx] is an index of [its] ([indicesWhere_spec]). *)
Fixpoint weigh (rnd : nat -> float) (its : list GameItem) (playable : list nat)
    (k : nat) : list (nat * float) * nat :=
  match playable with
  | [] => ([], k)
  | idx :: rest =>
      match nth_error its idx with
      | Some item =>
          let k' := if isSubHeading item then k else S k in
          let '(ws, k'') := weigh rnd its rest k' in
          ((idx, stabilityScore item (rnd k)) :: ws, k'')
      | None => weigh rnd its rest k
      end
  end.

(** [weightedItems.sort((a, b) => b.stabilityScore - a.stabilityScore)]: the
    comparator is consistent, and the sort is stable. *)
Fixpoint insertWeighted (x : nat * float) (l : list (nat * float)) : list (nat * float) :=
  match l with
  | [] => [x]
  | y :: l' =>
      if (0 <? snd y - snd x)%float then y :: insertWeighted x l' else x :: l
  end.

Fixpoint sortWeighted (l : list (nat * float)) : list (nat * float) :=
  match l with
  | [] => []
  | x :: l' => insertWeighted x (sortWeighted l')
  end.

(** [heading.items.forEach((item, idx) => ...)] filling the slots *)
Fixpoint fillSlots (its : list GameItem) (idx : nat) (prefilledSet : list nat)
    (slots0 : list (option GameItem)) : list (option GameItem) :=
  match its with
  | [] => slots0
  | item :: rest =>
      fillSlots rest (S idx) prefilledSet
        (if isStatic item || setHas Nat.eqb prefilledSet idx
         then setNth slots0 idx (Some item) else slots0)
  end.

(** [slots.filter(s => s !== null).map(s => s!.id)] *)
Fixpoint idsInSlots (slots0 : list (option GameItem)) : list jstring :=
  match slots0 with
  | [] => []
  | Some it :: rest => id it :: idsInSlots rest
  | None :: rest => idsInSlots rest
  end.

(** [headings.filter((_, i) => i !== index)] *)
Fixpoint othersFrom (i index : nat) (hs : list GameHeading) : list GameHeading :=
  match hs with
  | [] => []
  | h :: hs' =>
      if i =? index then othersFrom (S i) index hs' else h :: othersFrom (S i) index hs'
  end.

(** [for (let i = 0; i < config.intruders; i++)]: [n] turns are left and
    [acc] is the array [intruders]; [None] when [randomI.isStatic] throws. *)
Fixpoint pickIntruders (rnd : nat -> float) (n : nat) (others : list GameHeading)
    (k : nat) (acc : list GameItem) : option (list GameItem) :=
  match n with
  | O => Some acc
  | S n' =>
      match pickAt others (rnd k) with
      | Some randomH =>
          if 0 <? List.length (items randomH) then
            match pickAt (items randomH) (rnd (S k)) with
            | Some randomI =>
                pickIntruders rnd n' others (S (S k))
                  (if isStatic randomI then acc else acc ++ [randomI])
            | None => None
            end
          else pickIntruders rnd n' others (S k) acc
      | None => pickIntruders rnd n' others (S k) acc
      end
  end.

(** The intruders of a session: none when there is no other heading. *)
Definition intrudersOf (R : Random) (k index : nat) (state : GameState)
    : option (list GameItem) :=
  let otherHeadings := othersFrom 0 index (headings state) in
  if 0 <? List.length otherHeadings
  then pickIntruders (random R) (intruders (difficulty state)) otherHeadings k []
  else Some [].

(** The session as [startSession] computes it before it draws intruders. *)
Definition sessionSlots (R : Random) (index : nat) (heading : GameHeading)
    (state : GameState) : GameState * nat :=
  let playableIndices := indicesWhere (fun item => negb (isStatic item)) (items heading) in
  let '(weightedItems, k) := weigh (random R) (items heading) playableIndices 0 in
  let sorted := sortWeighted weightedItems in
  let n := numToPrefill (List.length playableIndices) (difficulty state) in
  let prefilledSet := newSet Nat.eqb (List.map fst (firstn n sorted)) in
  ({| fileName := fileName state;
      filePath := filePath state;
      headings := headings state;
      activeHeadingIndex := Some index;
      difficulty := difficulty state;
      slots := fillSlots (items heading) 0 prefilledSet
                 (repeat None (List.length (items heading)));
      prefilledIndices := prefilledSet;
      poolHeightPercent := poolHeightPercent state;
      poolItems := poolItems state |}, k).

Definition setPoolItems (state : GameState) (pool : list GameItem) : GameState :=
  {| fileName := fileName state;
     filePath := filePath state;
     headings := headings state;
     activeHeadingIndex := activeHeadingIndex state;
     difficulty := difficulty state;
     slots := slots state;
     prefilledIndices := prefilledIndices state;
     poolHeightPercent := poolHeightPercent state;
     poolItems := pool |}.

(** [startSession(index)] on a view whose [state] is not [null]: the state as
    the call leaves it, and whether the call returned or threw. *)
Definition startSession (R : Random) (index : nat) (state : GameState)
    : GameState * outcome unit :=
  match nth_error (headings state) index with
  | None => (state, Throws)
  | Some heading =>
      let '(state1, k) := sessionSlots R index heading state in
      let itemsInSlots := newSet jseq (idsInSlots (slots state1)) in
      match intrudersOf R k index state1 with
      | None => (state1, Throws)
      | Some intr =>
          (setPoolItems state1
             (shuffled R
                (filter (fun item =>
                           negb (isStatic item) && negb (setHas jseq itemsInSlots (id item)))
                        (items heading)
                 ++ intr)),
           Returns tt)
      end
  end.

(** ** The view: clicks and the timer

    [MessUpGameView] holds [state] and [selectedPill]; [pendingTimers] counts
    the callbacks [checkWinCondition] has scheduled with [setTimeout] and
    that have not fired yet.  All of them capture the same [state] object and
    do the same thing. *)
Record View : Type := mkView {
  state : option GameState;
  selectedPill : option GameItem;
  pendingTimers : nat
}.

Definition setActiveHeadingIndex (st : GameState) (a : option nat) : GameState :=
  {| fileName := fileName st; filePath := filePath st; headings := headings st;
     activeHeadingIndex := a; difficulty := difficulty st; slots := slots st;
     prefilledIndices := prefilledIndices st;
     poolHeightPercent := poolHeightPercent st; poolItems := poolItems st |}.

Definition setDifficulty (st : GameState) (d : Difficulty) : GameState :=
  {| fileName := fileName st; filePath := filePath st; headings := headings st;
     activeHeadingIndex := activeHeadingIndex st; difficulty := d; slots := slots st;
     prefilledIndices := prefilledIndices st;
     poolHeightPercent := poolHeightPercent st; poolItems := poolItems st |}.

Definition setSlots (st : GameState) (s : list (option GameItem)) : GameState :=
  {| fileName := fileName st; filePath := filePath st; headings := headings st;
     activeHeadingIndex := activeHeadingIndex st; difficulty := difficulty st;
     slots := s; prefilledIndices := prefilledIndices st;
     poolHeightPercent := poolHeightPercent st; poolItems := poolItems st |}.

Definition setHeadings (st : GameState) (hs : list GameHeading) : GameState :=
  {| fileName := fileName st; filePath := filePath st; headings := hs;
     activeHeadingIndex := activeHeadingIndex st; difficulty := difficulty st;
     slots := slots st; prefilledIndices := prefilledIndices st;
     poolHeightPercent := poolHeightPercent st; poolItems := poolItems st |}.

Definition setPoolHeightPercent (st : GameState) (v : Z) : GameState :=
  {| fileName := fileName st; filePath := filePath st; headings := headings st;
     activeHeadingIndex := activeHeadingIndex st; difficulty := difficulty st;
     slots := slots st; prefilledIndices := prefilledIndices st;
     poolHeightPercent := v; poolItems := poolItems st |}.

(** What the player and the clock can do to a view. *)
Inductive Event : Type :=
| ClickDifficulty (d : Difficulty)      (* a difficulty button of the lobby *)
| ClickCard (index : nat) (R : Random)   (* the card of a heading of the lobby *)
| ClickBack                              (* the Back button of a session *)
| InputResizer (val : Z)                 (* the pool-size slider *)
| ClickPill (k : nat)                    (* the k-th pill of the pool shown *)
| ClickDropZone (idx : nat)              (* the empty slot idx *)
| ClickItem (idx : nat)                  (* the fragment in slot idx *)
| TimerFires.                            (* a callback of setTimeout runs *)

(** [state.poolItems.filter(item => !itemsInSlots.has(item.id))] *)
Definition currentPool (st : GameState) : list GameItem :=
  let itemsInSlots := newSet jseq (idsInSlots (slots st)) in
  filter (fun item => negb (setHas jseq itemsInSlots (id item))) (poolItems st).

(** Whether [renderRepairSession] shows the row of slot [idx] on its own: it
    does not when the fragment parsed there belongs to a block that is fully
    restored, which is shown as a whole. *)
Definition rowShown (st : GameState) (heading : GameHeading) (idx : nat) : bool :=
  match nth_error (items heading) idx with
  | Some originalItem =>
      match blockId originalItem with
      | Some (c :: b) =>
          match isBlockFullyRestored (c :: b) heading (slots st) with
          | Returns true => false
          | _ => true
          end
      | _ => true
      end
  | None => false
  end.

(** The handler of an event; [None] when the view shows no such widget (or
    no timer is pending). *)
Definition handle (e : Event) (v : View) : option View :=
  match state v with
  | None => None
  | Some st =>
      match activeHeadingIndex st, e with
      | _, TimerFires =>
          match pendingTimers v with
          | S n => Some (mkView (Some (setActiveHeadingIndex st None)) (selectedPill v) n)
          | O => None
          end
      | None, ClickDifficulty d =>
          Some (mkView (Some (setDifficulty st d)) (selectedPill v) (pendingTimers v))
      | None, ClickCard index R =>
          match nth_error (headings st) index with
          | Some h =>
              if isRestored h then None
              else Some (mkView (Some (fst (startSession R index st)))
                                (selectedPill v) (pendingTimers v))
          | None => None
          end
      | Some _, ClickBack =>
          Some (mkView (Some (setActiveHeadingIndex st None))
                       (selectedPill v) (pendingTimers v))
      | Some _, InputResizer val =>
          if (10 <=? val)%Z && (val <=? 80)%Z
          then Some (mkView (Some (setPoolHeightPercent st val))
                            (selectedPill v) (pendingTimers v))
          else None
      | Some _, ClickPill k =>
          match nth_error (currentPool st) k with
          | Some item =>
              let isSelected :=
                match selectedPill v with
                | Some sel => jseq (id sel) (id item)
                | None => false
                end in
              Some (mkView (Some st) (if isSelected then None else Some item)
                           (pendingTimers v))
          | None => None
          end
      | Some activeIdx, ClickDropZone idx =>
          match nth_error (headings st) activeIdx, nth_error (slots st) idx with
          | Some heading, Some None =>
              if rowShown st heading idx then
                match selectedPill v with
                | Some pill =>
                    let st1 := setSlots st (setNth (slots st) idx (Some pill)) in
                    match checkWinCondition (slots st1) heading with
                    | Returns (heading', scheduled) =>
                        Some (mkView
                                (Some (setHeadings st1
                                         (setNth (headings st1) activeIdx heading')))
                                None
                                (if scheduled then S (pendingTimers v)
                                 else pendingTimers v))
                    | Throws => Some (mkView (Some st1) None (pendingTimers v))
                    end
                | None => Some v
                end
              else None
          | _, _ => None
          end
      | Some activeIdx, ClickItem idx =>
          match nth_error (headings st) activeIdx, nth_error (slots st) idx with
          | Some heading, Some (Some itemInSlot) =>
              if rowShown st heading idx
                 && negb (setHas Nat.eqb (prefilledIndices st) idx || isStatic itemInSlot)
              then Some (mkView (Some (setSlots st (setNth (slots st) idx None)))
                                (selectedPill v) (pendingTimers v))
              else None
          | _, _ => None
          end
      | _, _ => None
      end
  end.

(** The view right after [setState] with a parsed game. *)
Definition openView (g : GameState) : View := mkView (Some g) None 0.

(** The views a sequence of events leads to. *)
Inductive reachable (v0 : View) : View -> Prop :=
| reachable_start : reachable v0 v0
| reachable_event (v v' : View) (e : Event) :
    reachable v0 v -> handle e v = Some v' -> reachable v0 v'.

Fixpoint run (es : list Event) (v : View) : option View :=
  match es with
  | [] => Some v
  | e :: es' =>
      match handle e v with
      | Some v' => run es' v'
      | None => None
      end
  end.

(** ** Predicates of the specification and example data *)

(** The slot item is the one parsed at this index of this heading. *)
Definition exactPosition (it : GameItem) (i : nat) (h : GameHeading) : Prop :=
  originalIndex it = i /\ originalHeading it = title h.

(** The item parsed at index [i] of [h] carries a flexible-group id and the
    slot item carries the same one. *)
Definition sameFlexGroup (it : GameItem) (i : nat) (h : GameHeading) : Prop :=
  exists orig g, nth_error (items h) i = Some orig
                 /\ flexGroupId orig = Some g /\ flexGroupId it = Some g.

(** As [sameFlexGroup], for an id that is not the empty string. *)
Definition sameNonEmptyFlexGroup (it : GameItem) (i : nat) (h : GameHeading) : Prop :=
  exists orig g, nth_error (items h) i = Some orig
                 /\ flexGroupId orig = Some g /\ g <> [] /\ flexGroupId it = Some g.

(** *** Concrete fragments used as examples *)

Definition fragment (htitle : jstring) (idx : nat) (txt : jstring)
    (flex : option jstring) : GameItem :=
  {| id := htitle ++ js "-" ++ decimal idx ++ js "-x";
     text := txt; originalHeading := htitle; originalIndex := idx;
     indentation := 0; isListItem := false; listMarker := None;
     isStatic := false; isSubHeading := false; blockId := None;
     flexGroupId := flex |}.

(** A heading line of level 1 or 2, which opens a group. *)
Definition isGroupHeading (line : jstring) : bool :=
  match headingMatch line with
  | Some (level, _) => level <=? 2
  | None => false
  end.

(** The states the main loop of the parser goes through on [lines]. *)
Inductive reaches (rand36 : nat -> jstring) (lines : list jstring) : PState -> Prop :=
| reaches_init : reaches rand36 lines parseInit
| reaches_step (st : PState) :
    reaches rand36 lines st ->
    ps_i st < List.length lines ->
    reaches rand36 lines (parseStep rand36 lines st).

(** The id [pushItem] gives the fragment at index [j] of the heading titled
    [htitle] on the random string [r]. *)
Definition itemId (htitle : jstring) (j : nat) (r : jstring) : jstring :=
  htitle ++ js "-" ++ decimal j ++ js "-" ++ substring 2 7 r.

(** What every fragment at index [j] of a heading titled [htitle] satisfies. *)
Definition placed (rand36 : nat -> jstring) (htitle : jstring) (j : nat)
    (it : GameItem) : Prop :=
  originalIndex it = j /\ originalHeading it = htitle
  /\ exists k, id it = itemId htitle j (rand36 k).

Definition wellPlaced (rand36 : nat -> jstring) (h : GameHeading) : Prop :=
  forall j it, nth_error (items h) j = Some it -> placed rand36 (title h) j it.

(** A fragment as [pushItem] leaves it: no flexGroupId yet, and the list
    fields are those the list pattern reads in its text. *)
Definition asPushed (it : GameItem) : Prop :=
  flexGroupId it = None
  /\ isListItem it = matchPrefix listRegex (text it)
  /\ listMarker it = (if isListItem it then Some (listMarkerOf (text it)) else None).

Definition noFlex (h : GameHeading) : Prop :=
  forall it, In it (items h) -> asPushed it.

(** What a row loop of the parser leaves: the heading with the rows [new]
    appended. *)
Definition rowsAdded (cur cur' : GameHeading) (new : list GameItem) : Prop :=
  title cur' = title cur /\ isRestored cur' = isRestored cur
  /\ items cur' = items cur ++ new.

(** [pushed rand36 cur rng cur' rng' new]: calls of [pushItem] take the
    heading [cur] and the draw counter [rng] to [cur'] and [rng'], and [new]
    are the fragments they append. *)
Inductive pushed (rand36 : nat -> jstring)
  : GameHeading -> nat -> GameHeading -> nat -> list GameItem -> Prop :=
| pushed_nil (cur : GameHeading) (rng : nat) : pushed rand36 cur rng cur rng []
| pushed_cons (cur : GameHeading) (rng : nat) (txt : jstring) (st sh : bool)
    (b : option jstring) (cur' : GameHeading) (rng' : nat) (new : list GameItem) :
    pushed rand36 (fst (pushItem rand36 cur rng txt st sh b)) (S rng) cur' rng' new ->
    pushed rand36 cur rng cur' rng' (newItem rand36 cur rng txt st sh b :: new).

(** The fragments [new] of a block that starts at line [i]: they are the
    lines [i], [i + 1], ... in order, all carry [bId], the first [nStatic]
    ones are static, and the others start with [marker] once trimmed. *)
Definition blockOf (lines : list jstring) (i : nat) (bId : jstring) (nStatic : nat)
    (marker : jstring) (new : list GameItem) : Prop :=
  nStatic <= List.length new
  /\ forall k it, nth_error new k = Some it ->
        nth_error lines (i + k) = Some (text it)
        /\ blockId it = Some bId
        /\ isStatic it = (k <? nStatic)
        /\ isSubHeading it = false
        /\ (nStatic <= k -> startsWith marker (trim (text it)) = true).

Definition tableStart (lines : list jstring) (i : nat) (line : jstring) : bool :=
  startsWith (js "|") (trim line) && isSeparatorRow (nextLineOf lines i).

Definition calloutStart (line : jstring) : bool := startsWith (js "> [!") (trim line).

(** One turn of the main loop of the parser at [line = lines[i]], case by
    case. *)
Inductive turn (rand36 : nat -> jstring) (lines : list jstring) (st : PState)
    (line : jstring) : PState -> Prop :=
| turn_blank :
    line = [] ->
    turn rand36 lines st line
      (mkPState (S (ps_i st)) (ps_current st) (ps_headings st) (ps_rng st))
| turn_group (level : nat) (t : jstring) :
    headingMatch line = Some (level, t) -> level <= 2 ->
    turn rand36 lines st line
      (mkPState (S (ps_i st)) (mkHeading t [] false)
         (if 0 <? List.length (items (ps_current st))
          then ps_headings st ++ [ps_current st] else ps_headings st)
         (ps_rng st))
| turn_sub (level : nat) (t : jstring) :
    headingMatch line = Some (level, t) -> 2 < level ->
    turn rand36 lines st line
      (mkPState (S (ps_i st))
         (fst (pushItem rand36 (ps_current st) (ps_rng st) line false true None))
         (ps_headings st) (S (ps_rng st)))
| turn_table (cur' : GameHeading) (rng' : nat) (new : list GameItem) :
    line <> [] -> headingMatch line = None -> tableStart lines (ps_i st) line = true ->
    pushed rand36 (ps_current st) (ps_rng st) cur' rng' new ->
    blockOf lines (ps_i st) (js "table-" ++ decimal (ps_i st)) 2 (js "|") new ->
    turn rand36 lines st line
      (mkPState (ps_i st + List.length new) cur' (ps_headings st) rng')
| turn_callout (cur' : GameHeading) (rng' : nat) (new : list GameItem) :
    line <> [] -> headingMatch line = None -> tableStart lines (ps_i st) line = false ->
    calloutStart line = true ->
    pushed rand36 (ps_current st) (ps_rng st) cur' rng' new ->
    blockOf lines (ps_i st) (js "callout-" ++ decimal (ps_i st)) 1 (js ">") new ->
    turn rand36 lines st line
      (mkPState (ps_i st + List.length new) cur' (ps_headings st) rng')
| turn_plain :
    line <> [] -> headingMatch line = None -> tableStart lines (ps_i st) line = false ->
    calloutStart line = false ->
    turn rand36 lines st line
      (mkPState (S (ps_i st))
         (fst (pushItem rand36 (ps_current st) (ps_rng st) line false false None))
         (ps_headings st) (S (ps_rng st))).

(** The groups the loop has closed and the one it is filling: every fragment
    sits at its [originalIndex] under its [originalHeading], with the id
    [pushItem] gave it, and has no flexGroupId yet. *)
Definition parsedSoFar (rand36 : nat -> jstring) (st : PState) : Prop :=
  Forall (fun h => wellPlaced rand36 h /\ noFlex h) (ps_headings st ++ [ps_current st]).

(** The conditions under which the flexible-group pass gives [it] an id;
    [next] is the fragment that follows [it] in its group, if any. *)
Definition flexible (it : GameItem) (next : option GameItem) : Prop :=
  isUnordered (text it) = true /\ isStatic it = false /\ isSubHeading it = false
  /\ forall n, next = Some n -> indentation n <= indentation it.

(** [flexed its out]: [out] is [its] where some fragments that are
    [flexible] received a flexGroupId, and nothing else changed. *)
Inductive flexed : list GameItem -> list GameItem -> Prop :=
| flexed_nil : flexed [] []
| flexed_keep (it : GameItem) (rest rest' : list GameItem) :
    flexed rest rest' -> flexed (it :: rest) (it :: rest')
| flexed_set (it : GameItem) (g : jstring) (rest rest' : list GameItem) :
    flexible it (hd_error rest) -> flexed rest rest' ->
    flexed (it :: rest) (setFlexGroupId it g :: rest').

(** *** A sample document

    The scenario of the specification, ["# A\n- x\n- y\n## B\n- z\n"], parsed
    with every random string equal to ["0.abcdefgh"]. *)

Definition sampleRandom36 (k : nat) : jstring := js "0.abcdefgh".

Definition sampleDocument : jstring :=
  js "# A" ++ [LF] ++ js "- x" ++ [LF] ++ js "- y" ++ [LF]
     ++ js "## B" ++ [LF] ++ js "- z" ++ [LF].

Definition sampleGame : GameState :=
  Eval vm_compute in
    match parseMarkdownToGame sampleRandom36 sampleDocument (js "note") (js "note.md") with
    | Some g => g
    | None => mkState [] [] [] None medium [] [] 0 []
    end.

Definition sampleA : GameHeading := Eval vm_compute in nth 0 (headings sampleGame) introduction.
Definition sampleB : GameHeading := Eval vm_compute in nth 1 (headings sampleGame) introduction.
Definition sampleX : GameItem :=
  Eval vm_compute in nth 0 (items sampleA) (fragment [] 0 [] None).
Definition sampleY : GameItem :=
  Eval vm_compute in nth 1 (items sampleA) (fragment [] 0 [] None).

(** The code unit of the dash that separates the parts of an id. *)
Definition DASH : char16 := 45%N.

(** A document with two groups of the same title,
    ["# A\n- x\n# A\n- y"], parsed with random strings that all differ and
    have their first five digits in common. *)
Definition twinDocument : jstring :=
  js "# A" ++ [LF] ++ js "- x" ++ [LF] ++ js "# A" ++ [LF] ++ js "- y".

Definition collidingRandom36 (k : nat) : jstring := js "0.abcde" ++ decimal k.

Definition twinGame : GameState :=
  Eval vm_compute in
    match parseMarkdownToGame collidingRandom36 twinDocument (js "note") (js "note.md") with
    | Some g => g
    | None => mkState [] [] [] None medium [] [] 0 []
    end.

Definition twinA1 : GameHeading := Eval vm_compute in nth 0 (headings twinGame) introduction.
Definition twinA2 : GameHeading := Eval vm_compute in nth 1 (headings twinGame) introduction.
Definition twinX : GameItem :=
  Eval vm_compute in nth 0 (items twinA1) (fragment [] 0 [] None).
Definition twinY : GameItem :=
  Eval vm_compute in nth 0 (items twinA2) (fragment [] 0 [] None).

(** The table of the specification, ["| H |\n|---|\n| r1 |\n| r2 |"]. *)
Definition tableDocument : jstring :=
  js "| H |" ++ [LF] ++ js "|---|" ++ [LF] ++ js "| r1 |" ++ [LF] ++ js "| r2 |".

Definition tableGame : GameState :=
  Eval vm_compute in
    match parseMarkdownToGame sampleRandom36 tableDocument (js "note") (js "note.md") with
    | Some g => g
    | None => mkState [] [] [] None medium [] [] 0 []
    end.

Definition tableGroup : GameHeading :=
  Eval vm_compute in nth 0 (headings tableGame) introduction.

(** A pipe line that starts no table: ["| just a pipe"]. *)
Definition pipeDocument : jstring := js "| just a pipe".

(** A document whose last line is a heading: ["text\n## Last"]. *)
Definition lastDocument : jstring := js "text" ++ [LF] ++ js "## Last".

Definition lastGame : GameState :=
  Eval vm_compute in
    match parseMarkdownToGame sampleRandom36 lastDocument (js "note") (js "note.md") with
    | Some g => g
    | None => mkState [] [] [] None medium [] [] 0 []
    end.

(** *** The prefill count as the specification words it

    [floor(playableCount * prefillFraction)] with the fractions 0.7, 0.4 and
    0.1 as rational numbers. *)
Definition prefillFraction (d : Difficulty) : Q :=
  match d with
  | easy => 7 # 10
  | medium => 4 # 10
  | hard => 1 # 10
  end.

Definition specPrefillCount (n : nat) (d : Difficulty) : Z :=
  Qfloor (Qmult (inject_Z (Z.of_nat n)) (prefillFraction d)).

(** A document with one group of ninety playable fragments, ["# Big"]
    followed by ninety lines ["line"], and its game on [easy]. *)
Definition ninetyDocument : jstring :=
  js "# Big" ++ List.concat (repeat ([LF] ++ js "line") 90).

Definition ninetyState : GameState :=
  Eval vm_compute in
    match parseMarkdownToGame sampleRandom36 ninetyDocument (js "note") (js "note.md") with
    | Some g => setDifficulty g easy
    | None => mkState [] [] [] None medium [] [] 0 []
    end.

Definition ninetyHeading : GameHeading :=
  Eval vm_compute in nth 0 (headings ninetyState) introduction.

(** Random choices: every draw is one half, and the shuffle leaves the pool
    as it is. *)
Definition halfRandom : Random := mkRandom (fun _ => 0.5%float) (fun l => l).

(** *** A stale timer

    In the sample document the player opens group [B], places its only
    fragment, which wins the group and schedules the timer, goes back to the
    lobby and opens group [A], all within the second the timer waits. *)
Definition staleTrace : list Event :=
  [ClickCard 1 halfRandom; ClickPill 0; ClickDropZone 0; ClickBack;
   ClickCard 0 halfRandom].

(** *** A decoy from a group of the same title

    ["# A\n- x\n# A\n- y"] parsed with distinct random strings, so that the
    two fragments have distinct ids. *)
Definition countingRandom36 (k : nat) : jstring := js "0." ++ decimal k ++ js "zzzzz".

Definition homonymGame : GameState :=
  Eval vm_compute in
    match parseMarkdownToGame countingRandom36 twinDocument (js "note") (js "note.md") with
    | Some g => g
    | None => mkState [] [] [] None medium [] [] 0 []
    end.

Definition homonymFirst : GameHeading :=
  Eval vm_compute in nth 0 (headings homonymGame) introduction.
Definition homonymSecond : GameHeading :=
  Eval vm_compute in nth 1 (headings homonymGame) introduction.
Definition homonymDecoy : GameItem :=
  Eval vm_compute in nth 0 (items homonymSecond) (fragment [] 0 [] None).

Definition staleView : View :=
  Eval vm_compute in
    match run staleTrace (openView sampleGame) with
    | Some v => v
    | None => openView sampleGame
    end.

(** ** Further predicates and example data *)

(** The lines of a document that become fragments: every line but the empty
    ones and the headings of level 1 or 2. *)
Definition keptLine (l : jstring) : bool :=
  negb (jseq l []) && negb (isGroupHeading l).

(** The texts of the fragments of a list of groups, in order. *)
Definition fragmentTexts (hs : list GameHeading) : list jstring :=
  flat_map (fun h => List.map text (items h)) hs.

(** Two fragments that agree on everything but the random parts of [id] and
    [flexGroupId]: the same fields, and a flexGroupId on both or on none. *)
Definition sameFragment (a b : GameItem) : Prop :=
  text a = text b /\ originalHeading a = originalHeading b
  /\ originalIndex a = originalIndex b /\ indentation a = indentation b
  /\ isListItem a = isListItem b /\ listMarker a = listMarker b
  /\ isStatic a = isStatic b /\ isSubHeading a = isSubHeading b
  /\ blockId a = blockId b
  /\ (flexGroupId a = None <-> flexGroupId b = None).

Definition sameGroup (h1 h2 : GameHeading) : Prop :=
  title h1 = title h2 /\ isRestored h1 = isRestored h2
  /\ Forall2 sameFragment (items h1) (items h2).

Definition sameParse (st1 st2 : PState) : Prop :=
  ps_i st1 = ps_i st2 /\ ps_rng st1 = ps_rng st2
  /\ sameGroup (ps_current st1) (ps_current st2)
  /\ Forall2 sameGroup (ps_headings st1) (ps_headings st2).

Definition sameFlex (fs1 fs2 : FlexState) : Prop :=
  parentStack fs1 = parentStack fs2 /\ lastParentIdx fs1 = lastParentIdx fs2
  /\ lastIndent fs1 = lastIndent fs2 /\ fx_rng fs1 = fx_rng fs2
  /\ (currentFlexGroupId fs1 = None <-> currentFlexGroupId fs2 = None).

(** The sample document parsed with other random strings. *)
Definition sampleGameCounting : GameState :=
  Eval vm_compute in
    match parseMarkdownToGame countingRandom36 sampleDocument (js "note") (js "note.md") with
    | Some g => g
    | None => mkState [] [] [] None medium [] [] 0 []
    end.

(** A flexible-group id as the source writes it: it starts with [flex-]. *)
Definition flexPrefixed (g : jstring) : Prop := exists s, g = js "flex-" ++ s.

(** *** What the events leave in place *)

(** [h'] is the heading [h] later in the game: the same title and fragments,
    restored if [h] was. *)
Definition laterHeading (h h' : GameHeading) : Prop :=
  title h' = title h /\ items h' = items h
  /\ (isRestored h = true -> isRestored h' = true).

(** [st] is a later state of the game [g]: the same file and, heading by
    heading, the same document. *)
Definition laterGame (g st : GameState) : Prop :=
  fileName st = fileName g /\ filePath st = filePath g
  /\ Forall2 laterHeading (headings g) (headings st).

(** Whether the slot [idx] of a session is locked for the fragment [item]
    parsed there: [item] is static or [idx] was prefilled. *)
Definition lockedAt (st : GameState) (item : GameItem) (idx : nat) : bool :=
  isStatic item || setHas Nat.eqb (prefilledIndices st) idx.

(** The shape of a state during a session: one slot for each fragment of the
    active heading, and each locked slot holding the fragment parsed there. *)
Definition sessionShape (st : GameState) : Prop :=
  forall a, activeHeadingIndex st = Some a ->
    exists heading,
      nth_error (headings st) a = Some heading
      /\ List.length (slots st) = List.length (items heading)
      /\ forall idx item, nth_error (items heading) idx = Some item ->
           lockedAt st item idx = true ->
           nth_error (slots st) idx = Some (Some item).

(** The state of the sample view in which a timer is pending during the
    session of another heading. *)
Definition staleState : GameState :=
  Eval vm_compute in
    match state staleView with
    | Some st => st
    | None => sampleGame
    end.

(** *** Winning a session *)

Definition isEmptySlot (s : option GameItem) : bool :=
  match s with
  | None => true
  | Some _ => false
  end.

Definition emptySlots (slots0 : list (option GameItem)) : nat :=
  List.length (filter isEmptySlot slots0).

(** Every fragment of [heading] is in its own slot, or its slot is empty and
    the fragment is in the pool. *)
Definition ownSlots (st : GameState) (heading : GameHeading) : Prop :=
  forall idx item, nth_error (items heading) idx = Some item ->
    nth_error (slots st) idx = Some (Some item)
    \/ (nth_error (slots st) idx = Some None /\ In item (poolItems st)).

(** The session of [heading], at index [a], with only its own fragments
    placed. *)
Definition inPlay (a : nat) (heading : GameHeading) (st : GameState) : Prop :=
  activeHeadingIndex st = Some a
  /\ nth_error (headings st) a = Some heading
  /\ List.length (slots st) = List.length (items heading)
  /\ ownSlots st heading.

(** A click on a pill of the pool or on a drop zone: the two moves of a
    session that place a fragment. *)
Definition isPlayClick (e : Event) : bool :=
  match e with
  | ClickPill _ | ClickDropZone _ => true
  | _ => false
  end.

(** The heading at index [a] of the view is restored, and [t] timers are
    pending. *)
Definition wonView (a : nat) (t : nat) (v : View) : Prop :=
  exists st h, state v = Some st
               /\ nth_error (headings st) a = Some h /\ isRestored h = true
               /\ pendingTimers v = t.

(** The sample view just before the only fragment of group [B] is placed,
    and just after. *)
Definition beforeWin : View :=
  Eval vm_compute in
    match run [ClickCard 1 halfRandom; ClickPill 0] (openView sampleGame) with
    | Some v => v
    | None => openView sampleGame
    end.

Definition afterWin : View :=
  Eval vm_compute in
    match handle (ClickDropZone 0) beforeWin with
    | Some v => v
    | None => openView sampleGame
    end.

Definition beforeWinState : GameState :=
  Eval vm_compute in
    match state beforeWin with
    | Some st => st
    | None => sampleGame
    end.

Definition afterWinState : GameState :=
  Eval vm_compute in
    match state afterWin with
    | Some st => st
    | None => sampleGame
    end.

(** A document whose second group holds a table and nothing else. *)
Definition staticDocument : jstring :=
  js "# A" ++ [LF] ++ js "- x" ++ [LF]
     ++ js "# T" ++ [LF] ++ js "| a |" ++ [LF] ++ js "| - |" ++ [LF].

Definition staticGame : GameState :=
  Eval vm_compute in
    match parseMarkdownToGame sampleRandom36 staticDocument (js "note") (js "note.md") with
    | Some g => g
    | None => mkState [] [] [] None medium [] [] 0 []
    end.

Definition staticHeading : GameHeading :=
  Eval vm_compute in nth 1 (headings staticGame) introduction.

(** The view after the card of the static group is clicked. *)
Definition staticView : View :=
  Eval vm_compute in
    match run [ClickCard 1 halfRandom] (openView staticGame) with
    | Some v => v
    | None => openView staticGame
    end.

Definition staticState : GameState :=
  Eval vm_compute in
    match state staticView with
    | Some st => st
    | None => staticGame
    end.

(** *** The rows of a session: the loop of [renderRepairSession]

    What the loop over the slots puts in the document view.  A row carries
    what its markup is made from: a restored block the joined text of its
    fragments; the row of a filled slot the fragment in the slot and whether
    it is locked and correct; the row of an empty slot (the drop zone) the
    fragment parsed there.  [paddingLeft] is in pixels.  The fragment of a
    row that is not locked can be clicked, and so can every drop zone. *)
Inductive Row : Type :=
| BlockRow (fullText : jstring)
| ItemRow (idx : nat) (paddingLeft : nat) (itemInSlot : GameItem)
          (isLocked isCorrect : bool)
| DropRow (idx : nat) (paddingLeft : nat) (originalItem : GameItem).

(** [l.join('\n')] *)
Fixpoint joinLines (l : list jstring) : jstring :=
  match l with
  | [] => []
  | x :: rest =>
      match rest with
      | [] => x
      | _ :: _ => x ++ LF :: joinLines rest
      end
  end.

Definition consRow (r : Row) (rest : outcome (list Row)) : outcome (list Row) :=
  match rest with
  | Returns l => Returns (r :: l)
  | Throws => Throws
  end.

(** The row of a slot shown on its own, before the rows [rest] of the slots
    after it: the fragment in the slot, or a drop zone. *)
Definition plainRow (st : GameState) (heading : GameHeading) (idx : nat)
    (originalItem : GameItem) (rest : outcome (list Row)) : outcome (list Row) :=
  match slotAt (slots st) idx with
  | Some itemInSlot =>
      match isSlotCorrect (Some itemInSlot) idx heading with
      | Returns isCorrect =>
          let isLocked :=
            setHas Nat.eqb (prefilledIndices st) idx || isStatic itemInSlot in
          consRow (ItemRow idx (indentation itemInSlot * 12) itemInSlot isLocked isCorrect)
                  rest
      | Throws => Throws
      end
  | None => consRow (DropRow idx (indentation originalItem * 12) originalItem) rest
  end.

(** The loop [for (let idx = ...; idx < state.slots.length; idx++)], with
    [n] turns left.  Reading [blockId] of a fragment that is not there
    throws. *)
Fixpoint rowsFrom (st : GameState) (heading : GameHeading) (n idx : nat)
    (processedBlockIds : list jstring) : outcome (list Row) :=
  match n with
  | O => Returns []
  | S n' =>
      match nth_error (items heading) idx with
      | None => Throws
      | Some originalItem =>
          match blockId originalItem with
          | Some (c :: b) =>
              if setHas jseq processedBlockIds (c :: b)
              then rowsFrom st heading n' (S idx) processedBlockIds
              else
                match isBlockFullyRestored (c :: b) heading (slots st) with
                | Returns true =>
                    let blockItems := filter (inBlock (c :: b)) (items heading) in
                    let fullText := joinLines (List.map text blockItems) in
                    consRow (BlockRow fullText)
                            (rowsFrom st heading n' (S idx)
                                      (setAdd jseq processedBlockIds (c :: b)))
                | Returns false =>
                    plainRow st heading idx originalItem
                             (rowsFrom st heading n' (S idx) processedBlockIds)
                | Throws => Throws
                end
          | _ =>
              plainRow st heading idx originalItem
                       (rowsFrom st heading n' (S idx) processedBlockIds)
          end
      end
  end.

Definition renderRows (st : GameState) (heading : GameHeading) : outcome (list Row) :=
  rowsFrom st heading (List.length (slots st)) 0 [].

Definition isBlockRow (r : Row) : bool :=
  match r with
  | BlockRow _ => true
  | _ => false
  end.

(** The row the slot [i] has when it is shown on its own. *)
Definition ownRow (st : GameState) (heading : GameHeading) (i : nat) : option Row :=
  match nth_error (items heading) i, nth_error (slots st) i with
  | Some _, Some (Some it) =>
      match isSlotCorrect (Some it) i heading with
      | Returns isCorrect =>
          Some (ItemRow i (indentation it * 12) it
                        (setHas Nat.eqb (prefilledIndices st) i || isStatic it) isCorrect)
      | Throws => None
      end
  | Some originalItem, Some None =>
      Some (DropRow i (indentation originalItem * 12) originalItem)
  | _, _ => None
  end.

(** The rows in [rows] that are not blocks are the own rows of the slots
    from [idx] to [idx + n] which [rowShown] holds for. *)
Definition rowsOf (st : GameState) (heading : GameHeading) (n idx : nat)
    (rows : list Row) : Prop :=
  forall r, isBlockRow r = false ->
            (In r rows <-> exists i, idx <= i < idx + n
                                     /\ rowShown st heading i = true
                                     /\ ownRow st heading i = Some r).


(** *** Flexible groups as runs *)

(** The test of the flexible-group pass, as the source writes it: the
    fragment is an unordered list item, is neither static nor a sub-heading,
    and has no children. *)
Definition flexibleb (item : GameItem) (nextItem : option GameItem) : bool :=
  negb (negb (isUnordered (text item)) || (isStatic item || isSubHeading item)
        || hasChildrenOf item nextItem).

(** The id the pass makes for a group that starts at index [j]. *)
Definition flexId (htitle : jstring) (j : nat) (r : jstring) : jstring :=
  js "flex-" ++ htitle ++ js "-" ++ decimal j ++ js "-" ++ substring 2 5 r.

(** The fragments [s], ..., [k] of [out] all carry the group id [g] and have
    the indentation [ind]. *)
Definition flexRun (out : list GameItem) (s k : nat) (g : jstring) (ind : nat) : Prop :=
  forall m, s <= m <= k ->
            exists x, nth_error out m = Some x /\ flexGroupId x = Some g
                      /\ indentation x = ind.

(** A document with a list of two levels. *)
Definition nestedDocument : jstring :=
  js "# A" ++ [LF] ++ js "- x" ++ [LF] ++ js "- y" ++ [LF]
     ++ js "  - z" ++ [LF] ++ js "- w" ++ [LF].

Definition nestedGame : GameState :=
  Eval vm_compute in
    match parseMarkdownToGame countingRandom36 nestedDocument (js "note") (js "note.md") with
    | Some g => g
    | None => mkState [] [] [] None medium [] [] 0 []
    end.

Definition nestedHeading : GameHeading :=
  Eval vm_compute in nth 0 (headings nestedGame) introduction.

(** *** The text of a row: [getRenderedHTML]

    [matchRest r s k] is the matcher of [accepts] that also says where the
    match ends: the alternatives are tried in the order of the language (the
    left branch first, one more iteration of a star first), and the first
    one the continuation [k] accepts gives the result. *)
Fixpoint matchRest (A : Type) (r : regex) (s : jstring) (k : jstring -> option A)
    {struct r} : option A :=
  match r with
  | Eps => k s
  | Chr p => match s with
             | c :: s' => if p c then k s' else None
             | [] => None
             end
  | Seq a b => matchRest a s (fun s' => matchRest b s' k)
  | Alt a b => match matchRest a s k with
               | Some x => Some x
               | None => matchRest b s k
               end
  | Star a =>
      (fix iter (fuel : nat) (s : jstring) {struct fuel} : option A :=
         match fuel with
         | O => k s
         | S fuel' =>
             match matchRest a s (fun s' =>
                     if Nat.ltb (List.length s') (List.length s) then iter fuel' s'
                     else None) with
             | Some x => Some x
             | None => k s
             end
         end) (List.length s) s
  end.

(** [text.replace(...)] with the list pattern and the empty string, as
    [getRenderedHTML] cleans the text of a fragment before it is rendered:
    the pattern is anchored at the start and has no [g] flag, so the one
    match, if there is one, is cut off the front. *)
Definition cleanText (text : jstring) : jstring :=
  match matchRest listRegex text (fun rest => Some rest) with
  | Some rest => rest
  | None => text
  end.

Definition isSome (A : Type) (o : option A) : bool :=
  match o with
  | Some _ => true
  | None => false
  end.

(** A document with a numbered list. *)
Definition numberedDocument : jstring :=
  js "# A" ++ [LF] ++ js "  12.  x y" ++ [LF] ++ js "plain" ++ [LF].

Definition numberedGame : GameState :=
  Eval vm_compute in
    match parseMarkdownToGame sampleRandom36 numberedDocument (js "note") (js "note.md") with
    | Some g => g
    | None => mkState [] [] [] None medium [] [] 0 []
    end.

Definition numberedHeading : GameHeading :=
  Eval vm_compute in nth 0 (headings numberedGame) introduction.

Definition numberedItem : GameItem :=
  Eval vm_compute in nth 0 (items numberedHeading) (fragment [] 0 [] None).

(** *** The kinds of fragments *)

(** A block id as the parser makes it: [table-] or [callout-] and the index
    of the line the block starts at. *)
Definition isBlockId (b : jstring) : Prop :=
  exists i, b = js "table-" ++ decimal i \/ b = js "callout-" ++ decimal i.

(** A fragment is a sub-heading, a member of a block or a plain line: a
    sub-heading is a heading line of level 3 or more, not static and in no
    block; a static fragment is in a block; a block id is one the parser
    makes; a plain line is no heading line. *)
Definition kindOk (it : GameItem) : Prop :=
  (isSubHeading it = true ->
   isStatic it = false /\ blockId it = None
   /\ exists level t, headingMatch (text it) = Some (level, t) /\ 2 < level)
  /\ (isStatic it = true -> exists b, blockId it = Some b)
  /\ (forall b, blockId it = Some b -> isSubHeading it = false /\ isBlockId b /\ b <> [])
  /\ (isSubHeading it = false -> blockId it = None -> headingMatch (text it) = None).

(** A document with a sub-heading, a table and a callout. *)
Definition kindsDocument : jstring :=
  js "### S" ++ [LF] ++ js "| a |" ++ [LF] ++ js "| - |" ++ [LF] ++ js "| b |" ++ [LF]
     ++ js "> [!note]" ++ [LF] ++ js "> c" ++ [LF].

Definition kindsGame : GameState :=
  Eval vm_compute in
    match parseMarkdownToGame sampleRandom36 kindsDocument (js "note") (js "note.md") with
    | Some g => g
    | None => mkState [] [] [] None medium [] [] 0 []
    end.

Definition kindsHeading : GameHeading :=
  Eval vm_compute in nth 0 (headings kindsGame) introduction.

Definition kindsSeparator : GameItem :=
  Eval vm_compute in nth 2 (items kindsHeading) (fragment [] 0 [] None).

(** *** A win with a fragment of another group

    In the document with two groups titled [A], the player opens the first
    group, picks the pill of the fragment [- y] of the second group and
    drops it in the only slot. *)
Definition homonymOriginal : GameItem :=
  Eval vm_compute in nth 0 (items homonymFirst) (fragment [] 0 [] None).

Definition homonymTrace : list Event :=
  [ClickCard 0 halfRandom; ClickPill 1; ClickDropZone 0].

Definition homonymWon : View :=
  Eval vm_compute in
    match run homonymTrace (openView homonymGame) with
    | Some v => v
    | None => openView homonymGame
    end.

Definition homonymWonState : GameState :=
  Eval vm_compute in
    match state homonymWon with
    | Some st => st
    | None => homonymGame
    end.

(** *** The lines of a block *)

(** The lines at the front of [ls] that satisfy [p]. *)
Fixpoint leadingLines (p : jstring -> bool) (ls : list jstring) : list jstring :=
  match ls with
  | l :: rest => if p l then l :: leadingLines p rest else []
  | [] => []
  end.

(** A line that starts, leading white space apart, with a pipe, and one that
    starts with [>]. *)
Definition pipeLine (l : jstring) : bool := startsWith (js "|") (trim l).
Definition quoteLine (l : jstring) : bool := startsWith (js ">") (trim l).

(** The number of lines of the table that starts at line [i]: the header,
    the separator row and every line after them up to the first one that
    does not start with a pipe. *)
Definition tableLength (lines : list jstring) (i : nat) : nat :=
  2 + List.length (leadingLines pipeLine (skipn (i + 2) lines)).

(** The number of lines of the callout that starts at line [i]: its first
    line and every line after it up to the first one that does not start
    with [>]. *)
Definition calloutLength (lines : list jstring) (i : nat) : nat :=
  1 + List.length (leadingLines quoteLine (skipn (S i) lines)).

(** The groups of a state of the loop: the closed ones, then the one being
    filled. *)
Definition groupsOf (st : PState) : list GameHeading :=
  ps_headings st ++ [ps_current st].

(** [blockRows hs lines i n nStatic bId]: one of the headings [hs] holds, at
    [n] consecutive indices, the fragments of the lines [i], ..., [i + n - 1]
    in order; all of them carry the blockId [bId], the first [nStatic] are
    static and the others are not, and none is a sub-heading. *)
Definition blockRows (hs : list GameHeading) (lines : list jstring) (i n nStatic : nat)
    (bId : jstring) : Prop :=
  exists h j,
    In h hs
    /\ forall k, k < n ->
         exists it, nth_error (items h) (j + k) = Some it
                    /\ nth_error lines (i + k) = Some (text it)
                    /\ blockId it = Some bId
                    /\ isStatic it = (k <? nStatic)
                    /\ isSubHeading it = false.

(** The fragments of the groups [hs] that carry the blockId [bId]. *)
Definition blockMembers (hs : list GameHeading) (bId : jstring) : list GameItem :=
  filter (inBlock bId) (flat_map items hs).

(** A callout followed by a blank line and a paragraph:
    ["> [!note] N\n> b1\n> b2\n\nafter"]. *)
Definition calloutDocument : jstring :=
  js "> [!note] N" ++ [LF] ++ js "> b1" ++ [LF] ++ js "> b2" ++ [LF] ++ [LF]
     ++ js "after".

Definition calloutGame : GameState :=
  Eval vm_compute in
    match parseMarkdownToGame sampleRandom36 calloutDocument (js "note") (js "note.md") with
    | Some g => g
    | None => mkState [] [] [] None medium [] [] 0 []
    end.

(** *** The groups as the specification words them

    [specGroups lines t acc] reads the lines in order while a group titled
    [t] is open that holds the texts [acc]: an empty line is skipped; a
    heading of level 1 or 2 closes the open group, provided it holds a
    fragment, and opens a group with the heading's title; every other line
    becomes the next fragment of the open group; at the end of the input the
    open group is closed whatever it holds.  A group is given as its title
    and the texts of its fragments. *)
Fixpoint specGroups (lines : list jstring) (t : jstring) (acc : list jstring)
  : list (jstring * list jstring) :=
  match lines with
  | [] => [(t, acc)]
  | l :: rest =>
      if jseq l [] then specGroups rest t acc
      else
        match headingMatch l with
        | Some (level, t') =>
            if level <=? 2 then
              match acc with
              | [] => specGroups rest t' []
              | _ :: _ => (t, acc) :: specGroups rest t' []
              end
            else specGroups rest t (acc ++ [l])
        | None => specGroups rest t (acc ++ [l])
        end
  end.

(** A group as its title and the texts of its fragments. *)
Definition groupTexts (h : GameHeading) : jstring * list jstring :=
  (title h, List.map text (items h)).

Definition nonEmptyLine (l : jstring) : bool := negb (jseq l []).

(** The lines before the first heading of level 1 or 2. *)
Definition beforeFirstHeading (lines : list jstring) : list jstring :=
  leadingLines (fun l => negb (isGroupHeading l)) lines.

(** A paragraph before the first heading: ["intro\n# A\n- x"]. *)
Definition introDocument : jstring :=
  js "intro" ++ [LF] ++ js "# A" ++ [LF] ++ js "- x".

Definition introGame : GameState :=
  Eval vm_compute in
    match parseMarkdownToGame sampleRandom36 introDocument (js "note") (js "note.md") with
    | Some g => g
    | None => mkState [] [] [] None medium [] [] 0 []
    end.

(** * Properties *)

Lemma jseq_true (a b : jstring) : jseq a b = true <-> a = b.
Proof. unfold jseq; destruct (list_eq_dec N.eq_dec a b); split; congruence. Qed.

Lemma jseq_refl (a : jstring) : jseq a a = true.
Proof. now apply jseq_true. Qed.


(** ** Lists, [every], indexed maps *)

Lemma every_true (A : Type) (f : A -> outcome bool) (l : list A) :
  every f l = Returns true <-> Forall (fun x => f x = Returns true) l.
Proof.
  induction l as [|x l IH]; simpl.
  - split; auto.
  - destruct (f x) as [[|]|] eqn:E; split; intro H.
    + constructor; [assumption | now apply IH].
    + inversion H; subst; now apply IH.
    + discriminate.
    + inversion H; congruence.
    + discriminate.
    + inversion H; congruence.
Qed.

Lemma every_returns (A : Type) (f : A -> outcome bool) (l : list A) :
  Forall (fun x => exists b, f x = Returns b) l -> exists b, every f l = Returns b.
Proof.
  induction 1 as [|x l [b Hb] _ IH]; simpl.
  - now exists true.
  - rewrite Hb; destruct b; [exact IH | now exists false].
Qed.

Lemma nth_error_mapi_from (A B : Type) (f : A -> nat -> B) (l : list A) :
  forall k i, nth_error (mapi_from f k l) i
              = option_map (fun x => f x (k + i)) (nth_error l i).
Proof.
  induction l as [|x l IH]; intros k [|i]; simpl; auto.
  - now rewrite Nat.add_0_r.
  - rewrite IH. now replace (S k + i) with (k + S i) by lia.
Qed.

Lemma In_mapi (A B : Type) (f : A -> nat -> B) (l : list A) (y : B) :
  In y (mapi f l) <-> exists i x, nth_error l i = Some x /\ y = f x i.
Proof.
  unfold mapi. split.
  - intro H. apply In_nth_error in H as [i Hi].
    rewrite nth_error_mapi_from in Hi. simpl in Hi.
    destruct (nth_error l i) as [x|] eqn:E; [|discriminate].
    exists i, x. split; [assumption|]. simpl in Hi. congruence.
  - intros (i & x & Hx & ->).
    apply (nth_error_In _ i). rewrite nth_error_mapi_from, Hx. reflexivity.
Qed.

(** The indices [indicesWhere] keeps are the positions of the items that
    satisfy the test. *)
Lemma indicesWhere_spec (p : GameItem -> bool) (its : list GameItem) (idx : nat) :
  In idx (indicesWhere p its)
  <-> exists item, nth_error its idx = Some item /\ p item = true.
Proof.
  unfold indicesWhere, indicesFrom. rewrite in_map_iff. split.
  - intros (z & Hz & Hin). apply filter_In in Hin as [Hin Hne].
    apply In_mapi in Hin as (i & x & Hx & ->).
    destruct (p x) eqn:Hp; [|discriminate].
    rewrite Nat2Z.id in Hz. subst. eauto.
  - intros (item & Hit & Hp). exists (Z.of_nat idx). split; [apply Nat2Z.id|].
    apply filter_In. split.
    + apply In_mapi. exists idx, item. now rewrite Hp.
    + destruct (Z.of_nat idx =? -1)%Z eqn:E; [apply Z.eqb_eq in E; lia | reflexivity].
Qed.

Lemma truthy_spec (s : option jstring) :
  truthy s = true <-> exists g, s = Some g /\ g <> [].
Proof.
  destruct s as [[|c g]|]; simpl.
  - split; [discriminate|]. intros (g & [= <-] & H); congruence.
  - split; [|reflexivity]. intros _. eexists; split; [reflexivity | discriminate].
  - split; [discriminate|]. now intros (g & H & _).
Qed.

Lemma optEq_Some (a : option jstring) (g : jstring) :
  optEq a (Some g) = true <-> a = Some g.
Proof.
  destruct a as [x|]; simpl; [rewrite jseq_true|]; split; congruence.
Qed.

Lemma isSlotCorrect_returns (s : option GameItem) (i : nat) (h : GameHeading) :
  i < List.length (items h) -> exists b, isSlotCorrect s i h = Returns b.
Proof.
  intro Hi. unfold isSlotCorrect. destruct s as [it|]; [|now exists false].
  destruct (_ && _); [now exists true|].
  destruct (nth_error (items h) i) eqn:E.
  - destruct (_ && _); eauto.
  - apply nth_error_None in E; lia.
Qed.

(** ** The evaluator *)

Lemma isSlotCorrect_true (it : GameItem) (i : nat) (h : GameHeading) :
  isSlotCorrect (Some it) i h = Returns true
  <-> exactPosition it i h \/ sameNonEmptyFlexGroup it i h.
Proof.
  unfold isSlotCorrect, exactPosition, sameNonEmptyFlexGroup.
  destruct ((originalIndex it =? i) && jseq (originalHeading it) (title h)) eqn:E.
  - apply andb_true_iff in E as [E1 E2].
    apply Nat.eqb_eq in E1. apply jseq_true in E2. tauto.
  - assert (N : ~ (originalIndex it = i /\ originalHeading it = title h)).
    { intros [H1 H2]. rewrite H1, H2, Nat.eqb_refl, jseq_refl in E. discriminate. }
    destruct (nth_error (items h) i) as [orig|] eqn:Ho.
    + destruct (truthy (flexGroupId orig) && optEq (flexGroupId it) (flexGroupId orig)) eqn:F.
      * apply andb_true_iff in F as [F1 F2].
        apply truthy_spec in F1 as (g & Hg & Hne). rewrite Hg in F2.
        apply optEq_Some in F2. split; [|reflexivity].
        intros _. right. exists orig, g. auto.
      * split; [discriminate|]. intros [H|(o & g & Ho' & Hg & Hne & Hit)]; [tauto|].
        injection Ho' as <-. rewrite Hg, Hit in F. simpl in F.
        rewrite jseq_refl in F. destruct g; [congruence | discriminate].
    + split; [discriminate|]. intros [H|(o & g & Ho' & _)]; [tauto | discriminate].
Qed.

Lemma isPerfect_true (slots0 : list (option GameItem)) (h : GameHeading) :
  isPerfect slots0 h = Returns true
  <-> forall i, i < List.length slots0 -> isSlotCorrect (slotAt slots0 i) i h = Returns true.
Proof.
  unfold isPerfect. rewrite every_true, Forall_forall. split.
  - intros H i Hi. unfold slotAt.
    destruct (nth_error slots0 i) as [s|] eqn:E; [|apply nth_error_None in E; lia].
    apply (H (s, i)). apply In_mapi. eauto.
  - intros H [s i] Hin. apply In_mapi in Hin as (j & x & Hx & [= -> ->]). simpl.
    specialize (H j). unfold slotAt in H. rewrite Hx in H. apply H.
    apply nth_error_Some. congruence.
Qed.

Lemma isPerfect_returns (slots0 : list (option GameItem)) (h : GameHeading) :
  List.length slots0 <= List.length (items h) -> exists b, isPerfect slots0 h = Returns b.
Proof.
  intro Hlen. unfold isPerfect. apply every_returns, Forall_forall.
  intros [s i] Hin. apply In_mapi in Hin as (j & x & Hx & [= -> ->]). simpl.
  apply isSlotCorrect_returns.
  assert (j < List.length slots0) by (apply nth_error_Some; congruence). lia.
Qed.

Lemma isBlockFullyRestored_true (bId : jstring) (h : GameHeading)
    (slots0 : list (option GameItem)) :
  isBlockFullyRestored bId h slots0 = Returns true
  <-> forall idx item, nth_error (items h) idx = Some item -> blockId item = Some bId ->
        isSlotCorrect (slotAt slots0 idx) idx h = Returns true.
Proof.
  unfold isBlockFullyRestored. rewrite every_true, Forall_forall. split.
  - intros H idx item Hit Hb. apply H, indicesWhere_spec.
    exists item. split; [assumption|]. now apply optEq_Some.
  - intros H idx Hin. apply indicesWhere_spec in Hin as (item & Hit & Hb).
    apply (H idx item Hit). now apply optEq_Some.
Qed.

Lemma isBlockFullyRestored_returns (bId : jstring) (h : GameHeading)
    (slots0 : list (option GameItem)) :
  exists b, isBlockFullyRestored bId h slots0 = Returns b.
Proof.
  unfold isBlockFullyRestored. apply every_returns, Forall_forall.
  intros idx Hin. apply indicesWhere_spec in Hin as (item & Hit & _).
  apply isSlotCorrect_returns. apply nth_error_Some. congruence.
Qed.

(** The win test, slot by slot: for every heading and every content of the
    slots (as many slots as the heading has fragments), the test of
    [checkWinCondition] returns, and it is true if and only if
    [isSlotCorrect (slots[i], i, heading)] is true at every index [i], that
    is, if and only if every slot holds a fragment that has the index of the
    slot as [originalIndex] and the title of the heading as
    [originalHeading], or shares the (non-empty) flexGroupId of the fragment
    parsed there; when it is true the heading is left with
    [isRestored = true] (and the timer is scheduled), and when it is false
    the heading is left as it was. *)
Lemma checkWinCondition_slots (h : GameHeading) (slots0 : list (option GameItem)) :
  List.length slots0 = List.length (items h) ->
  (exists b, isPerfect slots0 h = Returns b)
  /\ (isPerfect slots0 h = Returns true
      <-> forall i, i < List.length slots0 ->
            isSlotCorrect (slotAt slots0 i) i h = Returns true)
  /\ (isPerfect slots0 h = Returns true
      <-> forall i, i < List.length slots0 ->
            exists it, slotAt slots0 i = Some it
                       /\ (exactPosition it i h \/ sameNonEmptyFlexGroup it i h))
  /\ (isPerfect slots0 h = Returns true ->
      exists h', checkWinCondition slots0 h = Returns (h', true)
                 /\ isRestored h' = true /\ title h' = title h /\ items h' = items h)
  /\ (isPerfect slots0 h = Returns false ->
      checkWinCondition slots0 h = Returns (h, false)).
Proof.
  intro Hlen. split; [apply isPerfect_returns; lia|].
  split; [apply isPerfect_true|]. split.
  - rewrite isPerfect_true. split; intros H i Hi; specialize (H i Hi).
    + destruct (slotAt slots0 i) as [it|]; [|discriminate H].
      exists it. split; [reflexivity | now apply isSlotCorrect_true].
    + destruct H as (it & -> & H). now apply isSlotCorrect_true.
  - unfold checkWinCondition. split.
    + intros ->. exists (setRestored h). repeat split.
    + now intros ->.
Qed.


(** ** The parser *)

Lemma dropWhile_app_stop (p : char16 -> bool) (a : jstring) (c : char16) :
  p c = false -> dropWhile p (a ++ [c]) = dropWhile p a ++ [c].
Proof.
  intro Hc. induction a as [|x a IH]; simpl.
  - now rewrite Hc.
  - destruct (p x); [exact IH | reflexivity].
Qed.

(** Trimming keeps a first character that is no white space. *)
Lemma trim_cons (c : char16) (s : jstring) :
  is_ws c = false -> exists s', trim (c :: s) = c :: s'.
Proof.
  intro Hc. unfold trim. simpl. rewrite Hc. simpl.
  rewrite dropWhile_app_stop by assumption.
  rewrite rev_app_distr. simpl. eauto.
Qed.

(** A line the heading pattern matches starts with a hash. *)
Lemma headingRegex_hash (line : jstring) :
  matchPrefix headingRegex line = true -> exists rest, line = 35%N :: rest.
Proof.
  unfold matchPrefix, headingRegex, Plus. simpl.
  destruct line as [|c rest]; [discriminate|].
  intro H. apply andb_true_iff in H as [H _].
  unfold is_char in H. apply N.eqb_eq in H. simpl in H. subst. eauto.
Qed.

Lemma headingMatch_hash (line : jstring) (level : nat) (t : jstring) :
  headingMatch line = Some (level, t) -> exists rest, line = 35%N :: rest.
Proof.
  unfold headingMatch. destruct (matchPrefix headingRegex line) eqn:E; [|discriminate].
  intros _. now apply headingRegex_hash.
Qed.

(** The separator-row pattern matches no text that starts with a hash. *)
Lemma separator_hash (s : jstring) : isSeparatorRow (35%N :: s) = false.
Proof. reflexivity. Qed.

Lemma separator_empty : isSeparatorRow [] = false.
Proof. reflexivity. Qed.

Lemma nth_error_cons_ind (A : Type) (P : nat -> A -> Prop) (x : A) (l : list A) :
  P 0 x -> (forall k y, nth_error l k = Some y -> P (S k) y) ->
  forall k y, nth_error (x :: l) k = Some y -> P k y.
Proof.
  intros H0 HS [|k] y H; simpl in H; [injection H as <-; exact H0 | now apply HS].
Qed.

Lemma nth_error_nil_ind (A : Type) (P : nat -> A -> Prop) :
  forall k y, nth_error (@nil A) k = Some y -> P k y.
Proof. intros [|k] y H; discriminate. Qed.

Section ParserFacts.

Variable rand36 : nat -> jstring.

Lemma pushed_rowsAdded (cur cur' : GameHeading) (rng rng' : nat) (new : list GameItem) :
  pushed rand36 cur rng cur' rng' new -> rowsAdded cur cur' new.
Proof.
  unfold rowsAdded. induction 1 as [cur rng|cur rng txt st sh b cur' rng' new _ IH].
  - now rewrite app_nil_r.
  - simpl in IH. destruct IH as (Ht & Hr & Hi). rewrite Hi, <- app_assoc. auto.
Qed.

Lemma pushed_one (cur : GameHeading) (rng : nat) (txt : jstring) (st sh : bool)
    (b : option jstring) :
  pushed rand36 cur rng (fst (pushItem rand36 cur rng txt st sh b)) (S rng)
         [newItem rand36 cur rng txt st sh b].
Proof. apply pushed_cons, pushed_nil. Qed.

Lemma tableRows_spec (bId : jstring) (rest : list jstring) :
  forall cur rng i cur' rng' i',
    tableRows rand36 rest bId cur rng i = (cur', rng', i') ->
    exists new,
      pushed rand36 cur rng cur' rng' new /\ i' = i + List.length new
      /\ forall k it, nth_error new k = Some it ->
           nth_error rest k = Some (text it)
           /\ startsWith (js "|") (trim (text it)) = true
           /\ blockId it = Some bId /\ isStatic it = false /\ isSubHeading it = false.
Proof.
  induction rest as [|l rest IH]; intros cur rng i cur' rng' i' H;
    cbn [tableRows pushItem] in H.
  - injection H as <- <- <-. exists []. split; [apply pushed_nil|].
    split; [simpl; lia | apply nth_error_nil_ind].
  - destruct (startsWith (js "|") (trim l)) eqn:E.
    + apply IH in H as (new & Hadd & Hidx & Hrows).
      exists (newItem rand36 cur rng l false false (Some bId) :: new).
      split; [now apply pushed_cons|]. split; [simpl; lia|].
      apply nth_error_cons_ind; [simpl; auto | exact Hrows].
    + injection H as <- <- <-. exists []. split; [apply pushed_nil|].
      split; [simpl; lia | apply nth_error_nil_ind].
Qed.

Lemma calloutRows_spec (bId : jstring) (rest : list jstring) :
  forall cur rng i cur' rng' i',
    calloutRows rand36 rest bId cur rng i = (cur', rng', i') ->
    exists new,
      pushed rand36 cur rng cur' rng' new /\ i' = i + List.length new
      /\ forall k it, nth_error new k = Some it ->
           nth_error rest k = Some (text it)
           /\ startsWith (js ">") (trim (text it)) = true
           /\ blockId it = Some bId /\ isStatic it = false /\ isSubHeading it = false.
Proof.
  induction rest as [|l rest IH]; intros cur rng i cur' rng' i' H;
    cbn [calloutRows pushItem] in H.
  - injection H as <- <- <-. exists []. split; [apply pushed_nil|].
    split; [simpl; lia | apply nth_error_nil_ind].
  - destruct (startsWith (js ">") (trim l)) eqn:E; cbn [orb] in H.
    + apply IH in H as (new & Hadd & Hidx & Hrows).
      exists (newItem rand36 cur rng l false false (Some bId) :: new).
      split; [now apply pushed_cons|]. split; [simpl; lia|].
      apply nth_error_cons_ind; [simpl; auto | exact Hrows].
    + assert (H' : (cur, rng, i) = (cur', rng', i'))
        by (destruct (jseq (trim l) []); exact H).
      injection H' as <- <- <-. exists []. split; [apply pushed_nil|].
      split; [simpl; lia | apply nth_error_nil_ind].
Qed.

(** One turn of the loop is one of the six cases of [turn]. *)
Lemma parseStep_turn (lines : list jstring) (st : PState) (line : jstring) :
  nth_error lines (ps_i st) = Some line ->
  turn rand36 lines st line (parseStep rand36 lines st).
Proof.
  intro Hline. unfold parseStep. rewrite Hline.
  destruct (jseq (trim line) [] && (List.length line =? 0)) eqn:Eblank.
  { apply turn_blank. apply andb_true_iff in Eblank as [_ E].
    apply Nat.eqb_eq in E. now destruct line. }
  assert (Hne : line <> []) by (intros ->; discriminate Eblank).
  destruct (headingMatch line) as [[level t]|] eqn:Ehead.
  { destruct (level <=? 2) eqn:Elevel.
    - apply turn_group with (level := level); [assumption | now apply Nat.leb_le].
    - cbn [pushItem]. apply turn_sub with (level := level) (t := t);
        [assumption | apply Nat.leb_gt in Elevel; lia]. }
  fold (tableStart lines (ps_i st) line).
  destruct (tableStart lines (ps_i st) line) eqn:Etable.
  { cbn [pushItem].
    destruct (tableRows _ _ _ _ _ _) as [[cur3 rng3] i3] eqn:Erows.
    apply tableRows_spec in Erows as (new & Hpushed & -> & Hrows).
    assert (Hsep : exists l2, nth_error lines (S (ps_i st)) = Some l2).
    { apply andb_true_iff in Etable as [_ E]. unfold nextLineOf in E.
      destruct (nth_error lines (S (ps_i st))); [eauto|].
      rewrite separator_empty in E. discriminate. }
    destruct Hsep as [l2 Hl2].
    assert (Hn : nth (S (ps_i st)) lines [] = l2) by now apply nth_error_nth.
    rewrite Hn in Hpushed. clear Hn.
    set (bId := js "table-" ++ decimal (ps_i st)) in *.
    set (it1 := newItem rand36 (ps_current st) (ps_rng st) line true false (Some bId)).
    set (cur1 := fst (pushItem rand36 (ps_current st) (ps_rng st) line true false (Some bId))).
    set (it2 := newItem rand36 cur1 (S (ps_rng st)) l2 true false (Some bId)).
    replace (ps_i st + 2 + List.length new)
      with (ps_i st + List.length (it1 :: it2 :: new)) by (simpl; lia).
    apply turn_table; try assumption.
    - apply pushed_cons, pushed_cons. exact Hpushed.
    - split; [simpl; lia|].
      apply nth_error_cons_ind.
      { rewrite Nat.add_0_r. repeat split; auto; intros; lia. }
      apply nth_error_cons_ind.
      { replace (ps_i st + 1) with (S (ps_i st)) by lia.
        repeat split; auto; intros; lia. }
      intros k it Hk. destruct (Hrows k it Hk) as (H1 & H2 & H3 & H4 & H5).
      rewrite nth_error_skipn in H1.
      replace (ps_i st + S (S k)) with (ps_i st + 2 + k) by lia.
      repeat split; auto. }
  destruct (startsWith (js "> [!") (trim line)) eqn:Ecallout.
  { cbn [pushItem].
    destruct (calloutRows _ _ _ _ _ _) as [[cur2 rng2] i2] eqn:Erows.
    apply calloutRows_spec in Erows as (new & Hpushed & -> & Hrows).
    set (bId := js "callout-" ++ decimal (ps_i st)) in *.
    set (it1 := newItem rand36 (ps_current st) (ps_rng st) line true false (Some bId)).
    replace (S (ps_i st) + List.length new)
      with (ps_i st + List.length (it1 :: new)) by (simpl; lia).
    apply turn_callout; try assumption.
    - apply pushed_cons. exact Hpushed.
    - split; [simpl; lia|].
      apply nth_error_cons_ind.
      { rewrite Nat.add_0_r. repeat split; auto; intros; lia. }
      intros k it Hk. destruct (Hrows k it Hk) as (H1 & H2 & H3 & H4 & H5).
      rewrite nth_error_skipn in H1.
      replace (ps_i st + S k) with (S (ps_i st) + k) by lia.
      repeat split; auto. }
  cbn [pushItem]. now apply turn_plain.
Qed.

(** Every turn moves on by at least one line. *)
Lemma turn_progress (lines : list jstring) (st st' : PState) (line : jstring) :
  turn rand36 lines st line st' -> ps_i st < ps_i st'.
Proof.
  destruct 1 as [| | | ? ? ? ? ? ? ? [Hn _] | ? ? ? ? ? ? ? ? [Hn _] |]; simpl; lia.
Qed.

Lemma parseStep_progress (lines : list jstring) (st : PState) :
  ps_i st < List.length lines -> ps_i st < ps_i (parseStep rand36 lines st).
Proof.
  intro Hi. destruct (nth_error lines (ps_i st)) as [line|] eqn:E.
  - eapply turn_progress, parseStep_turn, E.
  - apply nth_error_None in E. lia.
Qed.

(** The main loop ends: as much fuel as there are lines left is enough. *)
Lemma parseLoop_total (lines : list jstring) (fuel : nat) :
  forall st, List.length lines - ps_i st <= fuel ->
             exists st', parseLoop rand36 fuel lines st = Some st'.
Proof.
  induction fuel as [|fuel IH]; intros st Hfuel; simpl.
  - destruct (List.length lines <=? ps_i st) eqn:E; [eauto|].
    apply Nat.leb_gt in E. lia.
  - destruct (List.length lines <=? ps_i st) eqn:E; [eauto|].
    apply Nat.leb_gt in E. apply IH.
    pose proof (parseStep_progress lines st E). lia.
Qed.

(** What the loop returns is a state it reaches, past the last line. *)
Lemma parseLoop_reaches (lines : list jstring) (fuel : nat) :
  forall st st', reaches rand36 lines st -> parseLoop rand36 fuel lines st = Some st' ->
                 reaches rand36 lines st' /\ List.length lines <= ps_i st'.
Proof.
  induction fuel as [|fuel IH]; intros st st' Hr H; simpl in H;
    destruct (List.length lines <=? ps_i st) eqn:E.
  - injection H as <-. split; [assumption | now apply Nat.leb_le].
  - discriminate.
  - injection H as <-. split; [assumption | now apply Nat.leb_le].
  - apply (IH _ _ (reaches_step Hr (proj1 (Nat.leb_gt _ _) E)) H).
Qed.

(** *** Invariants of the fragments under construction *)

Lemma wellPlaced_push (cur : GameHeading) (rng : nat) (txt : jstring) (st sh : bool)
    (b : option jstring) :
  wellPlaced rand36 cur -> wellPlaced rand36 (fst (pushItem rand36 cur rng txt st sh b)).
Proof.
  intros H j it. simpl. intro Hj.
  destruct (Nat.lt_ge_cases j (List.length (items cur))) as [Hlt|Hge].
  - rewrite nth_error_app1 in Hj by assumption. now apply H.
  - rewrite nth_error_app2 in Hj by assumption.
    destruct (j - List.length (items cur)) as [|d] eqn:Ed.
    + injection Hj as <-. assert (j = List.length (items cur)) as -> by lia.
      split; [reflexivity|]. split; [reflexivity|]. now exists rng.
    + destruct d; discriminate.
Qed.

Lemma wellPlaced_pushed (cur cur' : GameHeading) (rng rng' : nat) (new : list GameItem) :
  pushed rand36 cur rng cur' rng' new -> wellPlaced rand36 cur -> wellPlaced rand36 cur'.
Proof. induction 1; auto using wellPlaced_push. Qed.

Lemma noFlex_pushed (cur cur' : GameHeading) (rng rng' : nat) (new : list GameItem) :
  pushed rand36 cur rng cur' rng' new -> noFlex cur -> noFlex cur'.
Proof.
  induction 1 as [|cur rng txt st sh b cur' rng' new _ IH]; [auto|].
  intro H. apply IH. intros it Hin. simpl in Hin.
  apply in_app_or in Hin as [Hin|[<-|[]]]; [now apply H | repeat split].
Qed.

Lemma wellPlaced_empty (t : jstring) (r : bool) : wellPlaced rand36 (mkHeading t [] r).
Proof. intros [|j] it H; discriminate. Qed.

Lemma noFlex_empty (t : jstring) (r : bool) : noFlex (mkHeading t [] r).
Proof. intros it []. Qed.

Lemma parsedSoFar_intro (hs : list GameHeading) (cur : GameHeading) (i rng : nat) :
  Forall (fun h => wellPlaced rand36 h /\ noFlex h) hs ->
  wellPlaced rand36 cur -> noFlex cur ->
  parsedSoFar rand36 (mkPState i cur hs rng).
Proof.
  intros Hhs Hw Hn. unfold parsedSoFar. simpl. apply Forall_app. auto.
Qed.

Lemma turn_parsedSoFar (lines : list jstring) (st st' : PState) (line : jstring) :
  turn rand36 lines st line st' -> parsedSoFar rand36 st -> parsedSoFar rand36 st'.
Proof.
  intros Ht Hinv. unfold parsedSoFar in Hinv.
  pose proof Hinv as Hall. apply Forall_app in Hinv as [Hhs Hcur].
  inversion Hcur as [|? ? [Hw Hn] _]; subst.
  destruct Ht.
  - now apply parsedSoFar_intro.
  - apply parsedSoFar_intro; [|apply wellPlaced_empty|apply noFlex_empty].
    destruct (0 <? _); assumption.
  - apply parsedSoFar_intro; [assumption|now apply wellPlaced_push|].
    eapply noFlex_pushed; [apply pushed_one | exact Hn].
  - apply parsedSoFar_intro; eauto using wellPlaced_pushed, noFlex_pushed.
  - apply parsedSoFar_intro; eauto using wellPlaced_pushed, noFlex_pushed.
  - apply parsedSoFar_intro; [assumption|now apply wellPlaced_push|].
    eapply noFlex_pushed; [apply pushed_one | exact Hn].
Qed.

Lemma reaches_parsedSoFar (lines : list jstring) (st : PState) :
  reaches rand36 lines st -> parsedSoFar rand36 st.
Proof.
  induction 1 as [|st Hr IH Hi].
  - apply parsedSoFar_intro; [constructor | apply wellPlaced_empty | apply noFlex_empty].
  - destruct (nth_error lines (ps_i st)) as [line|] eqn:E.
    + eapply turn_parsedSoFar; [apply parseStep_turn, E | exact IH].
    + apply nth_error_None in E. lia.
Qed.

(** *** The flexible-group pass *)

Lemma flexTurn_cases (t : jstring) (j : nat) (item : GameItem)
    (next : option GameItem) (fs : FlexState) :
  fst (flexTurn rand36 t j item next fs) = item
  \/ (flexible item next
      /\ exists g, fst (flexTurn rand36 t j item next fs) = setFlexGroupId item g).
Proof.
  unfold flexTurn.
  destruct (isUnordered (text item)) eqn:Eu; simpl; [|now left].
  destruct (isStatic item) eqn:Es; simpl; [now left|].
  destruct (isSubHeading item) eqn:Eh; simpl; [now left|].
  destruct (hasChildrenOf item next) eqn:Ec; simpl; [now left|].
  right. split; [|eauto].
  repeat split; auto. intros n ->. simpl in Ec. now apply Nat.ltb_ge in Ec.
Qed.

Lemma flexLoop_flexed (t : jstring) (its : list GameItem) :
  forall j fs, flexed its (fst (flexLoop rand36 t j its fs)).
Proof.
  induction its as [|item rest IH]; intros j fs; cbn [flexLoop].
  - constructor.
  - destruct (flexTurn rand36 t j item (hd_error rest) fs) as [item' fs'] eqn:Et.
    specialize (IH (S j) fs').
    destruct (flexLoop rand36 t (S j) rest fs') as [rest' rng']. simpl in *.
    destruct (flexTurn_cases t j item (hd_error rest) fs) as [H|(Hf & g & H)];
      rewrite Et in H; simpl in H; subst item'.
    + now apply flexed_keep.
    + now apply flexed_set.
Qed.

Lemma flexPass_flexed (hs : list GameHeading) :
  forall rng, Forall2 (fun h h' => title h' = title h /\ isRestored h' = isRestored h
                                   /\ flexed (items h) (items h'))
                      hs (flexPass rand36 hs rng).
Proof.
  induction hs as [|h hs IH]; intro rng; cbn [flexPass].
  - constructor.
  - pose proof (flexLoop_flexed (title h) (items h) 0 (flexInit rng)) as Hf.
    destruct (flexLoop rand36 (title h) 0 (items h) (flexInit rng)) as [its rng'].
    constructor; [simpl; auto | apply IH].
Qed.

Lemma flexPass_app (hs1 hs2 : list GameHeading) :
  forall rng, exists rng',
    flexPass rand36 (hs1 ++ hs2) rng = flexPass rand36 hs1 rng ++ flexPass rand36 hs2 rng'.
Proof.
  induction hs1 as [|h hs1 IH]; intro rng; cbn [flexPass app].
  - now exists rng.
  - destruct (flexLoop rand36 (title h) 0 (items h) (flexInit rng)) as [its rng1].
    destruct (IH rng1) as [rng' ->]. now exists rng'.
Qed.

(** What [parseMarkdownToGame] returns: the groups of the last state of the
    loop, the one being filled pushed last, after the flexible-group pass. *)
Lemma parse_result (content fname fpath : jstring) (g : GameState) :
  parseMarkdownToGame rand36 content fname fpath = Some g ->
  exists st, reaches rand36 (splitLines [] content) st
             /\ List.length (splitLines [] content) <= ps_i st
             /\ headings g = flexPass rand36 (ps_headings st ++ [ps_current st]) (ps_rng st).
Proof.
  unfold parseMarkdownToGame.
  destruct (parseLoop rand36 _ _ parseInit) as [st|] eqn:E; [|discriminate].
  intros [= <-]. exists st.
  destruct (parseLoop_reaches _ (reaches_init rand36 _) E). auto.
Qed.

End ParserFacts.

(** ** Flexible groups are sound *)

Lemma flexed_hd (its out : list GameItem) :
  flexed its out ->
  forall n', hd_error out = Some n' ->
             exists n, hd_error its = Some n /\ indentation n' = indentation n.
Proof.
  destruct 1; simpl; intros n' Hn; [discriminate| |]; injection Hn as <-; eauto.
Qed.

(** The bullet pattern and the list pattern start alike: a star over white
    space unfolds one character at a time. *)
Lemma accepts_star_cons (p : char16 -> bool) (c : char16) (s : jstring)
    (k : jstring -> bool) :
  accepts (Star (Chr p)) (c :: s) k = (p c && accepts (Star (Chr p)) s k) || k (c :: s).
Proof.
  cbn [accepts List.length].
  assert (E : Nat.ltb (List.length s) (S (List.length s)) = true)
    by (apply Nat.ltb_lt; lia).
  rewrite E. reflexivity.
Qed.

(** When what follows the star cannot start with a white space, the star
    takes all the leading white space. *)
Lemma star_ws_takes_all (k : jstring -> bool) (s : jstring) :
  (forall c r, k (c :: r) = true -> is_ws c = false) ->
  accepts (Star (Chr is_ws)) s k = k (dropWhile is_ws s).
Proof.
  intro Hk. induction s as [|c s IH]; [reflexivity|].
  rewrite accepts_star_cons. cbn [dropWhile]. destruct (is_ws c) eqn:E; cbn [andb orb].
  - rewrite IH. destruct (k (c :: s)) eqn:Ek; [|apply orb_false_r].
    apply Hk in Ek. congruence.
  - reflexivity.
Qed.

Lemma accepts_seq (a b : regex) (s : jstring) (k : jstring -> bool) :
  accepts (Seq a b) s k = accepts a s (fun s' => accepts b s' k).
Proof. reflexivity. Qed.

Lemma accepts_alt (a b : regex) (s : jstring) (k : jstring -> bool) :
  accepts (Alt a b) s k = accepts a s k || accepts b s k.
Proof. reflexivity. Qed.

Lemma accepts_chr (p : char16 -> bool) (c : char16) (s : jstring) (k : jstring -> bool) :
  accepts (Chr p) (c :: s) k = p c && k s.
Proof. reflexivity. Qed.

Lemma bullet_no_ws (c : char16) : is_bullet c = true -> is_ws c = false.
Proof.
  unfold is_bullet, is_char. intro H.
  repeat (apply orb_true_iff in H as [H|H]); apply N.eqb_eq in H; now subst c.
Qed.

Lemma digit_no_ws (c : char16) : is_digit c = true -> is_ws c = false.
Proof.
  unfold is_digit, is_ws. intro H. apply andb_true_iff in H as [E1 E2].
  apply N.leb_le in E1. apply N.leb_le in E2.
  repeat match goal with
         | |- context [(?a <=? ?b)%N] => destruct (N.leb_spec a b); try lia
         | |- context [(?a =? ?b)%N] => destruct (N.eqb_spec a b); try lia
         end; reflexivity.
Qed.

(** A text the bullet pattern matches is matched by the list pattern, and
    the marker read is its bullet. *)
Lemma isUnordered_marker (s : jstring) :
  isUnordered s = true ->
  matchPrefix listRegex s = true
  /\ exists c, is_bullet c = true /\ listMarkerOf s = [c].
Proof.
  unfold isUnordered, matchPrefix, unorderedRegex, listRegex.
  rewrite (accepts_seq (Star (Chr is_ws))), (accepts_seq (Star (Chr is_ws))).
  rewrite !star_ws_takes_all.
  - unfold listMarkerOf. destruct (dropWhile is_ws s) as [|c r]; [discriminate|].
    rewrite !accepts_seq, accepts_alt, !accepts_chr.
    intro H. apply andb_true_iff in H as [Hb Hr].
    rewrite Hb. split; [|eauto]. cbn [andb]. now rewrite Hr.
  - intros c r. rewrite accepts_seq, accepts_alt, accepts_chr.
    change (Plus (Chr is_digit)) with (Seq (Chr is_digit) (Star (Chr is_digit))).
    rewrite !accepts_seq, accepts_chr. intro H.
    apply orb_true_iff in H as [H|H]; apply andb_true_iff in H as [H _].
    + now apply bullet_no_ws.
    + now apply digit_no_ws.
  - intros c r. rewrite accepts_seq, accepts_chr. intro H.
    apply andb_true_iff in H as [H _]. now apply bullet_no_ws.
Qed.

Lemma flexed_sound (its out : list GameItem) :
  flexed its out ->
  (forall it, In it its -> asPushed it) ->
  forall k it', nth_error out k = Some it' -> flexGroupId it' <> None ->
                flexible it' (nth_error out (S k))
                /\ isListItem it' = true
                /\ exists c, is_bullet c = true /\ listMarker it' = Some [c].
Proof.
  induction 1 as [|it rest rest' Hf IH|it g rest rest' Hflex Hf IH]; intros Hnone k it' Hk Hset.
  - destruct k; discriminate.
  - destruct k as [|k]; simpl in Hk.
    + injection Hk as <-. exfalso. apply Hset, Hnone. now left.
    + apply IH; auto. intros x Hx. apply Hnone. now right.
  - destruct k as [|k]; simpl in Hk.
    + injection Hk as <-. destruct Hflex as (Hu & Hs & Hh & Hc).
      destruct (Hnone it (or_introl eq_refl)) as (_ & Hli & Hlm).
      destruct (isUnordered_marker _ Hu) as (Hl & c & Hb & Hm).
      rewrite Hl in Hli. rewrite Hli, Hm in Hlm.
      split; [|split; [exact Hli | eauto]].
      repeat split; auto. simpl. intros n' Hn'.
      replace (nth_error rest' 0) with (hd_error rest') in Hn' by now destruct rest'.
      destruct (flexed_hd Hf (n':=n') Hn') as (n & Hn & ->). now apply Hc.
    + apply IH; auto. intros x Hx. apply Hnone. now right.
Qed.

Lemma Forall2_In_r (A B : Type) (R : A -> B -> Prop) (l : list A) (l' : list B) (y : B) :
  Forall2 R l l' -> In y l' -> exists x, In x l /\ R x y.
Proof.
  induction 1 as [|a b l l' Hab _ IH]; intros Hin; [destruct Hin|].
  destruct Hin as [<-|Hin].
  - exists a. split; [now left | assumption].
  - destruct (IH Hin) as (x & Hx & Hr). exists x. split; [now right | assumption].
Qed.

(** A group of the parsed document comes from a group of the last state of
    the loop, by the flexible-group pass. *)
Lemma parsed_heading (rand36 : nat -> jstring) (content fname fpath : jstring)
    (g : GameState) (h : GameHeading) :
  parseMarkdownToGame rand36 content fname fpath = Some g -> In h (headings g) ->
  exists h0, wellPlaced rand36 h0 /\ noFlex h0 /\ title h = title h0
             /\ flexed (items h0) (items h).
Proof.
  intros Hp Hin. destruct (@parse_result rand36 _ _ _ _ Hp) as (st & Hr & _ & Hg).
  rewrite Hg in Hin.
  destruct (@Forall2_In_r _ _ _ _ _ h (@flexPass_flexed rand36 _ (ps_rng st)) Hin)
    as (h0 & Hin0 & Ht & _ & Hf).
  pose proof (@reaches_parsedSoFar rand36 _ _ Hr) as Hinv. unfold parsedSoFar in Hinv.
  rewrite Forall_forall in Hinv. destruct (Hinv h0 Hin0) as [Hw Hn].
  exists h0. auto.
Qed.

(** C3: in every parsed document, a fragment carries a flexGroupId only if
    it is an unordered list item (its text matches the bullet pattern of the
    source, and its [listMarker] is one of [-], [*] and [+], not a numeric
    marker), it is not static, it is not a sub-heading, and the fragment
    that follows it in its group, if there is one, is not indented more than
    it. *)
Theorem flexGroupId_sound (rand36 : nat -> jstring) (content fname fpath : jstring)
    (g : GameState) (h : GameHeading) (j : nat) (it : GameItem) :
  parseMarkdownToGame rand36 content fname fpath = Some g ->
  In h (headings g) -> nth_error (items h) j = Some it ->
  flexGroupId it <> None ->
  isUnordered (text it) = true
  /\ isListItem it = true
  /\ (exists c, is_bullet c = true /\ listMarker it = Some [c])
  /\ isStatic it = false
  /\ isSubHeading it = false
  /\ forall next, nth_error (items h) (S j) = Some next ->
                  indentation next <= indentation it.
Proof.
  intros Hp Hin Hj Hset.
  destruct (@parsed_heading rand36 _ _ _ _ _ Hp Hin) as (h0 & _ & Hn & _ & Hf).
  destruct (flexed_sound Hf Hn _ Hj Hset) as ((Hu & Hs & Hh & Hc) & Hli & Hm).
  auto 8.
Qed.

Lemma flexGroupId_sound_witness :
  parseMarkdownToGame sampleRandom36 sampleDocument (js "note") (js "note.md")
    = Some sampleGame
  /\ flexGroupId sampleX <> None
  /\ isUnordered (text sampleX) = true
  /\ indentation sampleY <= indentation sampleX.
Proof.
  assert (Hp : parseMarkdownToGame sampleRandom36 sampleDocument (js "note") (js "note.md")
               = Some sampleGame) by (vm_compute; reflexivity).
  assert (Hset : flexGroupId sampleX <> None) by (intro H; discriminate H).
  destruct (@flexGroupId_sound sampleRandom36 sampleDocument (js "note") (js "note.md")
              sampleGame sampleA 0 sampleX Hp (or_introl eq_refl) eq_refl Hset)
    as (Hu & _ & _ & _ & _ & Hnext).
  split; [exact Hp|]. split; [exact Hset|]. split; [exact Hu|].
  exact (Hnext sampleY eq_refl).
Defined.

(** ** Fragment ids *)

Lemma split_first (d : char16) (x y a b : jstring) :
  ~ In d x -> ~ In d y -> x ++ d :: a = y ++ d :: b -> x = y /\ a = b.
Proof.
  revert y. induction x as [|c x IH]; intros [|c' y] Hx Hy H; simpl in *.
  - injection H as ->. auto.
  - injection H as -> _. tauto.
  - injection H as -> _. tauto.
  - injection H as -> H. destruct (IH y) as [-> ->]; auto.
Qed.

Lemma split_last (d : char16) (x y a b : jstring) :
  ~ In d x -> ~ In d y -> a ++ d :: x = b ++ d :: y -> a = b /\ x = y.
Proof.
  intros Hx Hy H. apply (f_equal (@rev char16)) in H.
  rewrite !rev_app_distr in H. simpl in H. rewrite <- !app_assoc in H. simpl in H.
  apply split_first in H; try (rewrite <- in_rev; assumption).
  destruct H as [H1 H2]. split.
  - now rewrite <- (rev_involutive a), H2, rev_involutive.
  - now rewrite <- (rev_involutive x), H1, rev_involutive.
Qed.

Lemma js_inj (s t : string) : js s = js t -> s = t.
Proof.
  unfold js. intro H.
  rewrite <- (string_of_list_ascii_of_string s), <- (string_of_list_ascii_of_string t).
  f_equal. revert H. generalize (list_ascii_of_string s) (list_ascii_of_string t).
  induction l as [|a l IH]; intros [|b l'] H; simpl in *; try discriminate; auto.
  injection H as Hab H. f_equal; [|now apply IH].
  rewrite <- (ascii_N_embedding a), <- (ascii_N_embedding b). now rewrite Hab.
Qed.

Lemma decimal_inj (n m : nat) : decimal n = decimal m -> n = m.
Proof.
  unfold decimal. intro H. apply js_inj in H.
  apply (f_equal NilEmpty.uint_of_string) in H. rewrite !NilEmpty.usu in H.
  injection H as H.
  rewrite <- (DecimalNat.Unsigned.of_to n), <- (DecimalNat.Unsigned.of_to m).
  now rewrite H.
Qed.

Lemma uint_no_dash (d : Decimal.uint) : ~ In DASH (js (NilEmpty.string_of_uint d)).
Proof.
  unfold DASH. induction d; simpl; [intros [] | ..];
    intros [H|H]; try discriminate H; auto.
Qed.

Lemma decimal_no_dash (n : nat) : ~ In DASH (decimal n).
Proof. apply uint_no_dash. Qed.

Lemma In_firstn (A : Type) (n : nat) (l : list A) (x : A) :
  In x (firstn n l) -> In x l.
Proof.
  intro H. rewrite <- (firstn_skipn n l). apply in_or_app. now left.
Qed.

Lemma In_skipn (A : Type) (n : nat) (l : list A) (x : A) :
  In x (skipn n l) -> In x l.
Proof.
  intro H. rewrite <- (firstn_skipn n l). apply in_or_app. now right.
Qed.

Lemma substring_no_dash (a b : nat) (s : jstring) :
  ~ In DASH s -> ~ In DASH (substring a b s).
Proof.
  intros H Hin. apply H. unfold substring in Hin.
  apply In_firstn, In_skipn in Hin. exact Hin.
Qed.

(** An id determines the title, the index and the random suffix it was made
    of, when the suffix has no dash. *)
Lemma itemId_inj (t1 t2 : jstring) (j1 j2 : nat) (r1 r2 : jstring) :
  ~ In DASH r1 -> ~ In DASH r2 ->
  itemId t1 j1 r1 = itemId t2 j2 r2 ->
  t1 = t2 /\ j1 = j2 /\ substring 2 7 r1 = substring 2 7 r2.
Proof.
  intros H1 H2 H. unfold itemId in H.
  change (js "-") with [DASH] in H.
  rewrite !(app_assoc _ [DASH] (decimal _ ++ _)) in H.
  rewrite !(app_assoc _ (decimal _) ([DASH] ++ _)) in H.
  simpl in H.
  apply split_last in H; try now apply substring_no_dash.
  destruct H as [H Hs]. rewrite <- !app_assoc in H. simpl in H.
  apply split_last in H; try apply decimal_no_dash.
  destruct H as [Ht Hd]. apply decimal_inj in Hd. auto.
Qed.

(** Within a group the index alone tells two ids apart. *)
Lemma itemId_index (t : jstring) (j1 j2 : nat) (r1 r2 : jstring) :
  itemId t j1 r1 = itemId t j2 r2 -> j1 = j2.
Proof.
  unfold itemId. intro H. apply app_inv_head in H.
  change (js "-") with [DASH] in H. simpl in H. injection H as H.
  apply split_first in H; try apply decimal_no_dash.
  destruct H as [H _]. now apply decimal_inj.
Qed.

Lemma flexed_nth (its out : list GameItem) :
  flexed its out ->
  forall k it', nth_error out k = Some it' ->
    exists it, nth_error its k = Some it /\ id it' = id it
               /\ originalIndex it' = originalIndex it
               /\ originalHeading it' = originalHeading it.
Proof.
  induction 1 as [|it rest rest' Hf IH|it g rest rest' Hflex Hf IH]; intros k it' Hk.
  - destruct k; discriminate.
  - destruct k as [|k]; simpl in *; [injection Hk as <-; eauto | auto].
  - destruct k as [|k]; simpl in *; [injection Hk as <-; eauto | auto].
Qed.

(** Every fragment of a parsed document sits at its [originalIndex] under
    its [originalHeading] and bears the id [pushItem] made for that place. *)
Lemma parsed_placed (rand36 : nat -> jstring) (content fname fpath : jstring)
    (g : GameState) (h : GameHeading) (j : nat) (it : GameItem) :
  parseMarkdownToGame rand36 content fname fpath = Some g ->
  In h (headings g) -> nth_error (items h) j = Some it ->
  placed rand36 (title h) j it.
Proof.
  intros Hp Hin Hj.
  destruct (@parsed_heading rand36 _ _ _ _ _ Hp Hin) as (h0 & Hw & _ & Ht & Hf).
  destruct (flexed_nth Hf _ Hj) as (it0 & Hj0 & Hid & Hoi & Hoh).
  destruct (Hw _ _ Hj0) as (H1 & H2 & k & H3).
  unfold placed. rewrite Hid, Hoi, Hoh, Ht. eauto.
Qed.

(** C7, as stated, fails: in ["# A\n- x\n# A\n- y"] the first fragments of the
    two groups titled [A] get the same id when the first five digits of the
    two random draws agree. *)
Lemma duplicate_ids :
  parseMarkdownToGame collidingRandom36 twinDocument (js "note") (js "note.md")
    = Some twinGame
  /\ collidingRandom36 0 <> collidingRandom36 1
  /\ nth_error (headings twinGame) 0 = Some twinA1
  /\ nth_error (headings twinGame) 1 = Some twinA2
  /\ nth_error (items twinA1) 0 = Some twinX
  /\ nth_error (items twinA2) 0 = Some twinY
  /\ text twinX <> text twinY
  /\ id twinX = id twinY.
Proof.
  split; [vm_compute; reflexivity|]. split; [discriminate|].
  repeat (split; [reflexivity|]). split; [discriminate | reflexivity].
Qed.

(** C7 (amended): two fragments of a parsed document that are in the same
    group and bear the same id are the same fragment; and, the random
    strings having no dash (they are base-36 numerals), two fragments that
    bear the same id are at the same index of groups that have the same
    title, and their ids end with the same random suffix.  So ids are
    pairwise distinct within a group and across groups of different titles,
    and across groups of one title as long as the random suffixes differ. *)
Theorem ids_distinct (rand36 : nat -> jstring) (content fname fpath : jstring)
    (g : GameState) (a b : nat) (ha hb : GameHeading) (ja jb : nat)
    (ita itb : GameItem) :
  parseMarkdownToGame rand36 content fname fpath = Some g ->
  nth_error (headings g) a = Some ha -> nth_error (items ha) ja = Some ita ->
  nth_error (headings g) b = Some hb -> nth_error (items hb) jb = Some itb ->
  id ita = id itb ->
  (a = b -> ja = jb /\ ita = itb)
  /\ ((forall k, ~ In DASH (rand36 k)) ->
      title ha = title hb /\ ja = jb
      /\ exists ka kb, id ita = itemId (title ha) ja (rand36 ka)
                       /\ id itb = itemId (title hb) jb (rand36 kb)
                       /\ substring 2 7 (rand36 ka) = substring 2 7 (rand36 kb)).
Proof.
  intros Hp Ha Hja Hb Hjb Hid.
  destruct (@parsed_placed rand36 _ _ _ _ _ _ _ Hp (nth_error_In _ _ Ha) Hja)
    as (_ & _ & ka & Hka).
  destruct (@parsed_placed rand36 _ _ _ _ _ _ _ Hp (nth_error_In _ _ Hb) Hjb)
    as (_ & _ & kb & Hkb).
  assert (E : itemId (title ha) ja (rand36 ka) = itemId (title hb) jb (rand36 kb))
    by congruence.
  split.
  - intros ->. assert (hb = ha) as -> by congruence.
    apply itemId_index in E. subst jb. split; [reflexivity | congruence].
  - intro Hr.
    destruct (@itemId_inj _ _ _ _ _ _ (Hr ka) (Hr kb) E) as (Ht & Hj & Hs).
    split; [assumption|split; [assumption|eauto]].
Qed.

Lemma ids_distinct_witness :
  (forall k, ~ In DASH (collidingRandom36 k))
  /\ id twinX = id twinY
  /\ title twinA1 = title twinA2.
Proof.
  assert (Hr : forall k, ~ In DASH (collidingRandom36 k)).
  { intros k H. unfold collidingRandom36 in H. apply in_app_or in H as [H|H].
    - vm_compute in H. repeat (destruct H as [H|H]; [discriminate H|]). exact H.
    - exact (decimal_no_dash k H). }
  assert (Hp : parseMarkdownToGame collidingRandom36 twinDocument (js "note") (js "note.md")
               = Some twinGame) by (vm_compute; reflexivity).
  assert (Hid : id twinX = id twinY) by reflexivity.
  destruct (@ids_distinct collidingRandom36 twinDocument (js "note") (js "note.md")
              twinGame 0 1 twinA1 twinA2 0 0 twinX twinY
              Hp eq_refl eq_refl eq_refl eq_refl Hid) as [_ H].
  destruct (H Hr) as (Ht & _).
  split; [exact Hr|]. split; [exact Hid | exact Ht].
Defined.

(** ** Turns of the main loop *)

Lemma headingMatch_trim (line : jstring) (level : nat) (t : jstring) :
  headingMatch line = Some (level, t) -> exists s, trim line = 35%N :: s.
Proof.
  intro H. apply headingMatch_hash in H as [rest ->]. now apply trim_cons.
Qed.

(** A line that starts, once trimmed, with a pipe or with [>] is no heading
    and is not empty. *)
Lemma pipe_no_heading (line : jstring) :
  startsWith (js "|") (trim line) = true -> headingMatch line = None /\ line <> [].
Proof.
  intro H. split.
  - destruct (headingMatch line) as [[level t]|] eqn:E; [|reflexivity].
    apply headingMatch_trim in E as [s E]. rewrite E in H. discriminate H.
  - intros ->. discriminate H.
Qed.

Lemma quote_no_heading (line : jstring) :
  startsWith (js ">") (trim line) = true -> headingMatch line = None /\ line <> [].
Proof.
  intro H. split.
  - destruct (headingMatch line) as [[level t]|] eqn:E; [|reflexivity].
    apply headingMatch_trim in E as [s E]. rewrite E in H. discriminate H.
  - intros ->. discriminate H.
Qed.

Lemma callout_quote (line : jstring) :
  calloutStart line = true -> startsWith (js ">") (trim line) = true.
Proof.
  unfold calloutStart. destruct (trim line) as [|c s]; [discriminate|].
  intro H. change ((62 =? c)%N && startsWith (js " [!") s = true) in H.
  change ((62 =? c)%N && true = true).
  apply andb_true_iff in H as [H _]. now rewrite H.
Qed.

Lemma pipe_no_callout (line : jstring) :
  startsWith (js "|") (trim line) = true -> calloutStart line = false.
Proof.
  unfold calloutStart. destruct (trim line) as [|c s]; [discriminate|].
  intro H. change ((124 =? c)%N && true = true) in H.
  apply andb_true_iff in H as [H _]. apply N.eqb_eq in H.
  now subst c.
Qed.

Section Turns.

Variable rand36 : nat -> jstring.
Variable lines : list jstring.
Variable st : PState.
Variable line : jstring.
Hypothesis Hline : nth_error lines (ps_i st) = Some line.

(** A heading of level 1 or 2 closes the group being filled only if it has a
    fragment, and opens an empty group. *)
Lemma parseStep_group (level : nat) (t : jstring) :
  headingMatch line = Some (level, t) -> level <= 2 ->
  parseStep rand36 lines st
  = mkPState (S (ps_i st)) (mkHeading t [] false)
      (match items (ps_current st) with
       | [] => ps_headings st
       | _ :: _ => ps_headings st ++ [ps_current st]
       end)
      (ps_rng st).
Proof.
  intros Hh Hl. pose proof (parseStep_turn rand36 lines st Hline) as Ht.
  destruct (headingMatch_hash _ Hh) as [rest Hrest].
  inversion Ht as [E|lv t' E1 E2|lv t' E1 E2|? ? ? ? E|? ? ? ? E|? E]; try congruence.
  - rewrite Hh in E1. injection E1 as <- <-.
    now destruct (items (ps_current st)).
  - rewrite Hh in E1. injection E1 as <- <-. lia.
Qed.

(** A line that could start a table but has no separator row after it gives
    one ordinary fragment. *)
Lemma parseStep_pipe :
  startsWith (js "|") (trim line) = true ->
  isSeparatorRow (nextLineOf lines (ps_i st)) = false ->
  parseStep rand36 lines st
  = mkPState (S (ps_i st))
      (fst (pushItem rand36 (ps_current st) (ps_rng st) line false false None))
      (ps_headings st) (S (ps_rng st)).
Proof.
  intros Hp Hs. pose proof (parseStep_turn rand36 lines st Hline) as Ht.
  destruct (pipe_no_heading _ Hp) as [Hh Hne].
  assert (Htab : tableStart lines (ps_i st) line = false)
    by (unfold tableStart; rewrite Hs; apply andb_false_r).
  pose proof (pipe_no_callout _ Hp) as Hc.
  inversion Ht; try congruence. reflexivity.
Qed.

(** The fragments of a table. *)
Lemma parseStep_table :
  tableStart lines (ps_i st) line = true ->
  exists new,
    rowsAdded (ps_current st) (ps_current (parseStep rand36 lines st)) new
    /\ ps_headings (parseStep rand36 lines st) = ps_headings st
    /\ ps_i (parseStep rand36 lines st) = ps_i st + List.length new
    /\ blockOf lines (ps_i st) (js "table-" ++ decimal (ps_i st)) 2 (js "|") new.
Proof.
  intro Htab. pose proof (parseStep_turn rand36 lines st Hline) as Ht.
  assert (Hp : startsWith (js "|") (trim line) = true)
    by (unfold tableStart in Htab; now apply andb_true_iff in Htab).
  destruct (pipe_no_heading _ Hp) as [Hh Hne].
  inversion Ht as [E|lv t' E1 E2|lv t' E1 E2|cur' rng' new _ _ _ Hpushed Hblock E
                   |? ? ? ? ? E|? ? E]; try congruence.
  exists new. simpl. split; [eapply pushed_rowsAdded, Hpushed | auto].
Qed.

(** The fragments of a callout. *)
Lemma parseStep_callout :
  tableStart lines (ps_i st) line = false -> calloutStart line = true ->
  exists new,
    rowsAdded (ps_current st) (ps_current (parseStep rand36 lines st)) new
    /\ ps_headings (parseStep rand36 lines st) = ps_headings st
    /\ ps_i (parseStep rand36 lines st) = ps_i st + List.length new
    /\ blockOf lines (ps_i st) (js "callout-" ++ decimal (ps_i st)) 1 (js ">") new.
Proof.
  intros Htab Hc. pose proof (parseStep_turn rand36 lines st Hline) as Ht.
  destruct (quote_no_heading _ (callout_quote _ Hc)) as [Hh Hne].
  inversion Ht as [E|lv t' E1 E2|lv t' E1 E2|? ? ? ? ? E
                   |cur' rng' new _ _ _ _ Hpushed Hblock E|? ? ? E]; try congruence.
  exists new. simpl. split; [eapply pushed_rowsAdded, Hpushed | auto].
Qed.

End Turns.

(** ** Parse anomalies and blocks *)





(** ** Groups *)

Section GroupFacts.

Variable rand36 : nat -> jstring.
Variable lines : list jstring.

(** A turn at a line that opens no group keeps the closed groups and the
    title of the group being filled. *)
Lemma turn_keeps_group (st st' : PState) (line : jstring) :
  turn rand36 lines st line st' -> isGroupHeading line = false ->
  ps_headings st' = ps_headings st /\ title (ps_current st') = title (ps_current st).
Proof.
  intros Ht Hg. unfold isGroupHeading in Hg.
  destruct Ht as [|lv t Hh Hl| | ? ? ? ? ? ? Hp ?| ? ? ? ? ? ? ? Hp ?|]; simpl; auto.
  - rewrite Hh in Hg. apply Nat.leb_gt in Hg. lia.
  - split; [reflexivity|]. now destruct (pushed_rowsAdded Hp).
  - split; [reflexivity|]. now destruct (pushed_rowsAdded Hp).
Qed.

Lemma reaches_turn (st : PState) :
  ps_i st < List.length lines ->
  exists line, nth_error lines (ps_i st) = Some line
               /\ turn rand36 lines st line (parseStep rand36 lines st).
Proof.
  intro Hi. destruct (nth_error lines (ps_i st)) as [line|] eqn:E.
  - exists line. split; [reflexivity | now apply parseStep_turn].
  - apply nth_error_None in E. lia.
Qed.

(** Until a heading of level 1 or 2 is read no group is closed, and the
    group being filled is the default one. *)
Lemma reaches_introduction (st : PState) :
  reaches rand36 lines st ->
  (forall j l, j < ps_i st -> nth_error lines j = Some l -> isGroupHeading l = false) ->
  ps_headings st = [] /\ title (ps_current st) = js "Introduction".
Proof.
  induction 1 as [|st Hr IH Hi]; intro Hno; [auto|].
  destruct (reaches_turn st Hi) as (line & Hline & Ht).
  pose proof (turn_progress Ht) as Hlt.
  destruct (turn_keeps_group Ht) as [-> ->].
  - apply (Hno (ps_i st)); assumption.
  - apply IH. intros j l Hj. apply Hno. lia.
Qed.

(** No turn jumps over a heading line. *)
Lemma turn_stops_at_heading (st st' : PState) (line : jstring) (n : nat)
    (hline : jstring) (level : nat) (t : jstring) :
  turn rand36 lines st line st' ->
  nth_error lines n = Some hline -> headingMatch hline = Some (level, t) ->
  ps_i st < n -> ps_i st' <= n.
Proof.
  intros Ht Hn Hh Hi. destruct (headingMatch_trim _ Hh) as [s Hs].
  destruct Ht as [| | | cur' rng' new _ _ Htab _ [Hlen Hb]
                  | cur' rng' new _ _ _ _ _ [Hlen Hb] |]; simpl; try lia.
  - destruct (Nat.le_gt_cases (ps_i st + List.length new) n) as [|Hgt]; [assumption|].
    exfalso. set (k := n - ps_i st).
    destruct (nth_error new k) as [it|] eqn:Ek;
      [|apply nth_error_None in Ek; unfold k in Ek; lia].
    destruct (Hb k it Ek) as (Hl & _ & _ & _ & Hrow).
    replace (ps_i st + k) with n in Hl by (unfold k; lia).
    assert (text it = hline) as Htext by congruence.
    destruct (Nat.le_gt_cases 2 k) as [H2|H2].
    + specialize (Hrow H2). rewrite Htext, Hs in Hrow. discriminate Hrow.
    + assert (n = S (ps_i st)) as -> by (unfold k in H2; lia).
      unfold tableStart in Htab. apply andb_true_iff in Htab as [_ Hsep].
      unfold nextLineOf in Hsep. rewrite Hn, Hs in Hsep.
      rewrite separator_hash in Hsep. discriminate Hsep.
  - destruct (Nat.le_gt_cases (ps_i st + List.length new) n) as [|Hgt]; [assumption|].
    exfalso. set (k := n - ps_i st).
    destruct (nth_error new k) as [it|] eqn:Ek;
      [|apply nth_error_None in Ek; unfold k in Ek; lia].
    destruct (Hb k it Ek) as (Hl & _ & _ & _ & Hrow).
    replace (ps_i st + k) with n in Hl by (unfold k; lia).
    assert (text it = hline) as Htext by congruence.
    assert (H1 : 1 <= k) by (unfold k; lia).
    specialize (Hrow H1). rewrite Htext, Hs in Hrow. discriminate Hrow.
Qed.

(** When the last line is a heading of level 1 or 2, the loop comes to it
    and leaves with the empty group it opens. *)
Lemma reaches_last_heading (pre : list jstring) (hline : jstring) (level : nat)
    (t : jstring) (st : PState) :
  lines = pre ++ [hline] -> headingMatch hline = Some (level, t) -> level <= 2 ->
  reaches rand36 lines st ->
  ps_i st <= List.length pre
  \/ (ps_i st = S (List.length pre) /\ ps_current st = mkHeading t [] false).
Proof.
  intros Hlines Hh Hl.
  assert (Hlen : List.length lines = S (List.length pre))
    by (rewrite Hlines, length_app; simpl; lia).
  assert (Hn : nth_error lines (List.length pre) = Some hline)
    by (rewrite Hlines, nth_error_app2, Nat.sub_diag; auto).
  induction 1 as [|st Hr IH Hi]; [left; simpl; lia|].
  destruct IH as [IH|[IH _]]; [|lia].
  destruct (reaches_turn st Hi) as (line & Hline & Ht).
  destruct (Nat.eq_dec (ps_i st) (List.length pre)) as [E|E].
  - right. assert (line = hline) as -> by (rewrite E in Hline; congruence).
    rewrite (parseStep_group rand36 lines st Hline Hh Hl). simpl. auto.
  - left. apply (turn_stops_at_heading Ht Hn Hh). lia.
Qed.

End GroupFacts.

Lemma flexed_length (its out : list GameItem) :
  flexed its out -> List.length out = List.length its.
Proof. induction 1; simpl; congruence. Qed.

Lemma Forall2_impl' (A B : Type) (R S : A -> B -> Prop) (l : list A) (l' : list B) :
  (forall x y, R x y -> S x y) -> Forall2 R l l' -> Forall2 S l l'.
Proof. intros H. induction 1; constructor; auto. Qed.

(** The groups of the result are the groups of the last state of the loop,
    the one being filled last, title by title and with as many fragments. *)
Lemma parsed_groups_shape (rand36 : nat -> jstring) (content fname fpath : jstring)
    (g : GameState) :
  parseMarkdownToGame rand36 content fname fpath = Some g ->
  exists st,
    reaches rand36 (splitLines [] content) st
    /\ List.length (splitLines [] content) <= ps_i st
    /\ headings g = flexPass rand36 (ps_headings st ++ [ps_current st]) (ps_rng st)
    /\ Forall2 (fun h h' => title h' = title h
                            /\ List.length (items h') = List.length (items h))
               (ps_headings st ++ [ps_current st]) (headings g).
Proof.
  intro Hp. destruct (@parse_result rand36 _ _ _ _ Hp) as (st & Hr & Hlen & Hg).
  exists st. repeat split; auto. rewrite Hg.
  eapply Forall2_impl'; [|apply flexPass_flexed].
  intros h h' (Ht & _ & Hf). split; [assumption | now apply flexed_length].
Qed.


(** ** The session generator *)

(** *** The prefill count *)

(** The model of [Math.floor(n * c)] agrees with the primitive floats: on
    every length below 1000 and the three difficulties. *)
Lemma numToPrefill_float :
  forallb (fun n =>
             forallb (fun d =>
                        match floorF (ofNat n * prefillPercent d) with
                        | Some z => (z =? Z.of_nat (numToPrefill n d))%Z
                        | None => false
                        end)
                     [easy; medium; hard])
          (seq 0 1000) = true.
Proof. vm_compute. reflexivity. Qed.

(** The three fractions are the binary64 values of the literals. *)
Lemma prefillPercentBits_float (d : Difficulty) :
  Prim2SF (prefillPercent d)
  = S754_finite false (Z.to_pos (fst (prefillPercentBits d))) (- snd (prefillPercentBits d)).
Proof. destruct d; vm_compute; reflexivity. Qed.

Lemma round53_bound (p n k : Z) :
  (0 <= k)%Z -> (0 <= n < 2 ^ 53)%Z -> (0 <= p)%Z -> (p < n * 2 ^ k \/ p = 0)%Z ->
  (0 <= fst (round53 p) * 2 ^ snd (round53 p) <= n * 2 ^ k
   /\ 0 <= snd (round53 p))%Z.
Proof.
  intros Hk Hn Hp Hlt. unfold round53.
  assert (H2k : (0 < 2 ^ k)%Z) by (apply Z.pow_pos_nonneg; lia).
  destruct (Z.log2 p + 1 <=? 53)%Z eqn:Eb; simpl.
  - rewrite Z.mul_1_r. split; [|lia]. destruct Hlt as [Hlt| ->]; nia.
  - apply Z.leb_gt in Eb.
    assert (Hp0 : (0 < p)%Z).
    { destruct (Z.eq_dec p 0) as [->|]; [simpl in Eb; lia | lia]. }
    destruct Hlt as [Hlt|]; [|lia].
    set (s := (Z.log2 p + 1 - 53)%Z) in *.
    assert (Hs : (0 < s)%Z) by (unfold s; lia).
    assert (Hsk : (s <= k)%Z).
    { assert (Hpk : (p < 2 ^ (53 + k))%Z).
      { rewrite Z.pow_add_r by lia. nia. }
      apply Z.log2_lt_pow2 in Hpk; [unfold s; lia | assumption]. }
    assert (H2s : (0 < 2 ^ s)%Z) by (apply Z.pow_pos_nonneg; lia).
    rewrite Z.shiftr_div_pow2 by lia.
    assert (Hsplit : (n * 2 ^ k = (n * 2 ^ (k - s)) * 2 ^ s)%Z).
    { rewrite <- Z.mul_assoc, <- Z.pow_add_r by lia. f_equal. f_equal. lia. }
    assert (Hq : (p / 2 ^ s < n * 2 ^ (k - s))%Z).
    { apply Z.div_lt_upper_bound; [assumption|]. rewrite Z.mul_comm, <- Hsplit. exact Hlt. }
    assert (Hq0 : (0 <= p / 2 ^ s)%Z) by (apply Z.div_pos; lia).
    split; [|lia].
    destruct (_ || _); rewrite Hsplit; split; try nia.
Qed.

Lemma floorMul_bound (n : nat) (m k : Z) :
  (0 <= k)%Z -> (0 <= m < 2 ^ k)%Z -> (Z.of_nat n < 2 ^ 53)%Z ->
  (0 <= floorMul n m k <= Z.of_nat n)%Z.
Proof.
  intros Hk Hm Hn. unfold floorMul.
  assert (H2k : (0 < 2 ^ k)%Z) by (apply Z.pow_pos_nonneg; lia).
  assert (Hp : (0 <= Z.of_nat n * m)%Z) by nia.
  assert (Hlt : (Z.of_nat n * m < Z.of_nat n * 2 ^ k \/ Z.of_nat n * m = 0)%Z).
  { destruct (Z.eq_dec (Z.of_nat n) 0) as [E|E]; [right; rewrite E; lia | left; nia]. }
  assert (Hn' : (0 <= Z.of_nat n < 2 ^ 53)%Z) by lia.
  destruct (round53_bound Hk Hn' Hp Hlt) as [[H0 H1] Hs].
  destruct (round53 (Z.of_nat n * m)) as [q s]. simpl in *.
  rewrite Z.shiftl_mul_pow2, Z.shiftr_div_pow2 by lia. split.
  - apply Z.div_pos; lia.
  - apply Z.div_le_upper_bound; [lia|]. rewrite (Z.mul_comm (2 ^ k)). exact H1.
Qed.

(** The prefill count never exceeds the number of playable fragments. *)
Lemma numToPrefill_le (n : nat) (d : Difficulty) :
  (Z.of_nat n < 2 ^ 53)%Z -> numToPrefill n d <= n.
Proof.
  intro Hn. unfold numToPrefill.
  destruct (prefillPercentBits d) as [m k] eqn:E.
  assert (H : (0 <= floorMul n m k <= Z.of_nat n)%Z).
  { destruct d; injection E as <- <-; apply floorMul_bound; auto; lia. }
  lia.
Qed.

(** *** Playable indices, weights, the prefilled set *)

Lemma indicesFrom_cons (p : GameItem -> bool) (k : nat) (x : GameItem)
    (l : list GameItem) :
  indicesFrom p k (x :: l)
  = if p x then k :: indicesFrom p (S k) l else indicesFrom p (S k) l.
Proof.
  unfold indicesFrom. cbn [mapi_from filter]. destruct (p x).
  - destruct (Z.of_nat k =? -1)%Z eqn:E; [apply Z.eqb_eq in E; lia|].
    cbn [negb List.map]. now rewrite Nat2Z.id.
  - reflexivity.
Qed.

Lemma indicesFrom_ge (p : GameItem -> bool) (l : list GameItem) :
  forall k i, In i (indicesFrom p k l) -> k <= i.
Proof.
  induction l as [|x l IH]; intros k i H; [destruct H|].
  rewrite indicesFrom_cons in H. destruct (p x).
  - destruct H as [<-|H]; [lia | apply IH in H; lia].
  - apply IH in H; lia.
Qed.

Lemma indicesFrom_NoDup (p : GameItem -> bool) (l : list GameItem) :
  forall k, NoDup (indicesFrom p k l).
Proof.
  induction l as [|x l IH]; intro k; [constructor|].
  rewrite indicesFrom_cons. destruct (p x); [|apply IH].
  constructor; [|apply IH]. intro H. apply indicesFrom_ge in H. lia.
Qed.

Lemma indicesFrom_length (p : GameItem -> bool) (l : list GameItem) :
  forall k, List.length (indicesFrom p k l) = List.length (filter p l).
Proof.
  induction l as [|x l IH]; intro k; [reflexivity|].
  rewrite indicesFrom_cons. simpl. destruct (p x); simpl; now rewrite IH.
Qed.

Lemma weigh_indices (rnd : nat -> float) (its : list GameItem) (playable : list nat) :
  (forall idx, In idx playable -> nth_error its idx <> None) ->
  forall k, List.map fst (fst (weigh rnd its playable k)) = playable.
Proof.
  induction playable as [|idx rest IH]; intros Hin k; [reflexivity|].
  cbn [weigh]. destruct (nth_error its idx) as [item|] eqn:E.
  - specialize (IH (fun i Hi => Hin i (or_intror Hi))
                   (if isSubHeading item then k else S k)).
    destruct (weigh rnd its rest _) as [ws k'']. simpl in *. now rewrite IH.
  - exfalso. apply (Hin idx); [now left | assumption].
Qed.

Lemma insertWeighted_perm (x : nat * float) (l : list (nat * float)) :
  Permutation (insertWeighted x l) (x :: l).
Proof.
  induction l as [|y l IH]; simpl; [reflexivity|].
  destruct (0 <? snd y - snd x)%float; [|reflexivity].
  rewrite IH. apply perm_swap.
Qed.

Lemma sortWeighted_perm (l : list (nat * float)) : Permutation (sortWeighted l) l.
Proof.
  induction l as [|x l IH]; simpl; [reflexivity|].
  rewrite insertWeighted_perm. now constructor.
Qed.

Lemma setHas_In (s : list nat) (x : nat) : setHas Nat.eqb s x = true <-> In x s.
Proof.
  unfold setHas. rewrite existsb_exists. split.
  - intros (y & Hy & E). apply Nat.eqb_eq in E. now subst.
  - intro H. exists x. split; [assumption | apply Nat.eqb_refl].
Qed.

Lemma newSet_NoDup (l : list nat) : NoDup l -> newSet Nat.eqb l = l.
Proof.
  unfold newSet. change l with ([] ++ l) at 1 3. generalize (@nil nat).
  induction l as [|x l IH]; intros acc H; simpl.
  - now rewrite app_nil_r.
  - unfold setAdd at 2.
    destruct (setHas Nat.eqb acc x) eqn:E.
    + apply setHas_In in E. apply NoDup_remove_2 in H.
      exfalso. apply H, in_or_app. now left.
    + replace (acc ++ x :: l) with ((acc ++ [x]) ++ l) in *
        by (rewrite <- app_assoc; reflexivity).
      now apply IH.
Qed.

Lemma NoDup_firstn (A : Type) (n : nat) (l : list A) : NoDup l -> NoDup (firstn n l).
Proof.
  revert n. induction l as [|x l IH]; intros [|n] H; simpl; try constructor.
  - inversion H; subst. intro Hin. apply In_firstn in Hin. contradiction.
  - inversion H; subst. now apply IH.
Qed.

(** *** Slots *)

Lemma setNth_length (A : Type) (l : list A) (v : A) :
  forall idx, List.length (setNth l idx v) = List.length l.
Proof. induction l; intros [|idx]; simpl; auto. Qed.

Lemma setNth_same (A : Type) (l : list A) (v : A) :
  forall idx, idx < List.length l -> nth_error (setNth l idx v) idx = Some v.
Proof.
  induction l as [|x l IH]; intros [|idx] H; simpl in *; try lia; auto.
  apply IH. lia.
Qed.

Lemma setNth_other (A : Type) (l : list A) (v : A) :
  forall idx p, p <> idx -> nth_error (setNth l idx v) p = nth_error l p.
Proof.
  induction l as [|x l IH]; intros [|idx] [|p] H; simpl; auto; try lia.
Qed.

Lemma fillSlots_length (ps : list nat) (its : list GameItem) :
  forall idx s0, List.length (fillSlots its idx ps s0) = List.length s0.
Proof.
  induction its as [|item rest IH]; intros idx s0; simpl; [reflexivity|].
  rewrite IH. destruct (_ || _); [apply setNth_length | reflexivity].
Qed.

Lemma fillSlots_before (ps : list nat) (its : list GameItem) :
  forall idx s0 p, p < idx ->
    nth_error (fillSlots its idx ps s0) p = nth_error s0 p.
Proof.
  induction its as [|item rest IH]; intros idx s0 p Hp; simpl; [reflexivity|].
  rewrite IH by lia. destruct (_ || _); [apply setNth_other; lia | reflexivity].
Qed.

(** After the pass a slot of the heading holds its own fragment when that
    fragment is static or prefilled, and is as before otherwise. *)
Lemma fillSlots_at (ps : list nat) (its : list GameItem) :
  forall idx s0 k item,
    idx + List.length its <= List.length s0 ->
    nth_error its k = Some item ->
    nth_error (fillSlots its idx ps s0) (idx + k)
    = if isStatic item || setHas Nat.eqb ps (idx + k) then Some (Some item)
      else nth_error s0 (idx + k).
Proof.
  induction its as [|x rest IH]; intros idx s0 k item Hlen Hk; [destruct k; discriminate|].
  cbn [fillSlots]. simpl in Hlen. destruct k as [|k]; simpl in Hk.
  - injection Hk as ->. rewrite Nat.add_0_r.
    rewrite fillSlots_before by lia.
    destruct (_ || _); [apply setNth_same; lia | reflexivity].
  - replace (idx + S k) with (S idx + k) by lia.
    rewrite (IH (S idx) _ k item); [| |assumption].
    + destruct (isStatic item || _); [reflexivity|].
      destruct (isStatic x || _); [apply setNth_other; lia | reflexivity].
    + destruct (isStatic x || _); [rewrite setNth_length|]; lia.
Qed.

Lemma startSession_session (R : Random) (index : nat) (state : GameState)
    (heading : GameHeading) :
  nth_error (headings state) index = Some heading ->
  slots (fst (startSession R index state))
  = slots (fst (sessionSlots R index heading state))
  /\ prefilledIndices (fst (startSession R index state))
     = prefilledIndices (fst (sessionSlots R index heading state))
  /\ activeHeadingIndex (fst (startSession R index state)) = Some index.
Proof.
  intro Hh. unfold startSession. rewrite Hh.
  assert (Ha : activeHeadingIndex (fst (sessionSlots R index heading state)) = Some index).
  { unfold sessionSlots. now destruct (weigh _ _ _ _). }
  destruct (sessionSlots R index heading state) as [state1 k].
  destruct (intrudersOf R k index state1); simpl in *; auto.
Qed.

(** The prefilled set [startSession] computes: distinct playable indices,
    as many as [numToPrefill] says. *)
Lemma sessionSlots_prefilled (R : Random) (index : nat) (heading : GameHeading)
    (state : GameState) :
  (Z.of_nat (List.length (items heading)) < 2 ^ 32)%Z ->
  let ps := prefilledIndices (fst (sessionSlots R index heading state)) in
  let playable := filter (fun it => negb (isStatic it)) (items heading) in
  NoDup ps
  /\ (forall idx, In idx ps ->
        exists item, nth_error (items heading) idx = Some item /\ isStatic item = false)
  /\ List.length ps = numToPrefill (List.length playable) (difficulty state)
  /\ numToPrefill (List.length playable) (difficulty state) <= List.length playable.
Proof.
  intros Hlen ps playable. subst ps. unfold sessionSlots.
  set (p := fun item : GameItem => negb (isStatic item)).
  set (pidx := indicesWhere p (items heading)).
  assert (Hvalid : forall idx, In idx pidx -> nth_error (items heading) idx <> None).
  { intros idx Hin. apply indicesWhere_spec in Hin as (item & -> & _). discriminate. }
  pose proof (weigh_indices (random R) (items heading) pidx Hvalid 0) as Hw.
  destruct (weigh (random R) (items heading) pidx 0) as [ws k]. simpl in Hw |- *.
  assert (Hcount : List.length pidx = List.length playable)
    by apply indicesFrom_length.
  rewrite Hcount.
  set (n := numToPrefill (List.length playable) (difficulty state)).
  assert (Hn : n <= List.length playable).
  { apply numToPrefill_le.
    assert (Hf : List.length playable <= List.length (items heading))
      by apply filter_length_le.
    assert (Hpow : (2 ^ 32 < 2 ^ 53)%Z) by reflexivity.
    lia. }
  assert (Hperm : Permutation (List.map fst (sortWeighted ws)) pidx).
  { rewrite <- Hw. apply Permutation_map, sortWeighted_perm. }
  assert (Hnd : NoDup (List.map fst (sortWeighted ws))).
  { apply (Permutation_NoDup (Permutation_sym Hperm)). apply indicesFrom_NoDup. }
  rewrite <- firstn_map, newSet_NoDup by now apply NoDup_firstn.
  split; [now apply NoDup_firstn|]. split; [|split; [|exact Hn]].
  - intros idx Hin. apply In_firstn in Hin.
    apply (Permutation_in _ Hperm) in Hin.
    apply indicesWhere_spec in Hin as (item & Hit & Hp).
    exists item. split; [assumption|]. unfold p in Hp. now destruct (isStatic item).
  - rewrite length_firstn, length_map, (Permutation_length (sortWeighted_perm ws)).
    rewrite <- (length_map fst ws), Hw, Hcount. lia.
Qed.

Lemma sessionSlots_slots (R : Random) (index : nat) (heading : GameHeading)
    (state : GameState) :
  let s := fst (sessionSlots R index heading state) in
  List.length (slots s) = List.length (items heading)
  /\ forall idx item, nth_error (items heading) idx = Some item ->
       nth_error (slots s) idx
       = Some (if isStatic item || setHas Nat.eqb (prefilledIndices s) idx
               then Some item else None).
Proof.
  unfold sessionSlots. destruct (weigh _ _ _ _) as [ws k]. simpl. split.
  - now rewrite fillSlots_length, repeat_length.
  - intros idx item Hit.
    pose proof (@fillSlots_at
                  (newSet Nat.eqb
                     (List.map fst
                        (firstn (numToPrefill
                                   (List.length
                                      (indicesWhere (fun item => negb (isStatic item))
                                                    (items heading)))
                                   (difficulty state))
                                (sortWeighted ws))))
                  (items heading) 0
                  (repeat None (List.length (items heading))) idx item) as H.
    simpl in H. rewrite H; [|rewrite repeat_length; lia|assumption].
    destruct (_ || _); [reflexivity|].
    rewrite nth_error_repeat; [reflexivity|].
    apply nth_error_Some. congruence.
Qed.

(** C4, as stated, fails: for a group of ninety playable fragments on [easy]
    the call leaves 62 prefilled indices, while floor(90 * 0.7) is 63: the
    binary64 product [90 * 0.7] is 62.99999999999999. *)
Lemma prefill_90_easy :
  option_map (fun g => setDifficulty g easy)
    (parseMarkdownToGame sampleRandom36 ninetyDocument (js "note") (js "note.md"))
  = Some ninetyState
  /\ nth_error (headings ninetyState) 0 = Some ninetyHeading
  /\ List.length (filter (fun it => negb (isStatic it)) (items ninetyHeading)) = 90
  /\ snd (startSession halfRandom 0 ninetyState) = Returns tt
  /\ List.length (prefilledIndices (fst (startSession halfRandom 0 ninetyState))) = 62
  /\ specPrefillCount 90 easy = 63%Z
  /\ floorF (ofNat 90 * prefillPercent easy) = Some 62%Z.
Proof. repeat split; vm_compute; reflexivity. Qed.

(** C4 (amended): right after [startSession] on a heading of the document,
    whatever the difficulty and the random draws, [slots.length] is the
    number of fragments of the heading; the slot of a static fragment and
    the slot of a prefilled index hold the heading's own fragment of that
    index; every other slot is empty; the prefilled indices are distinct
    indices of playable (non-static) fragments; and their number is
    [Math.floor(playableCount * prefillPercent)] as JavaScript computes it,
    in binary64 arithmetic, which never exceeds [playableCount]. *)
Theorem startSession_slots (R : Random) (index : nat) (state : GameState)
    (heading : GameHeading) :
  nth_error (headings state) index = Some heading ->
  (Z.of_nat (List.length (items heading)) < 2 ^ 32)%Z ->
  let s := fst (startSession R index state) in
  let playable := filter (fun it => negb (isStatic it)) (items heading) in
  activeHeadingIndex s = Some index
  /\ List.length (slots s) = List.length (items heading)
  /\ (forall idx item, nth_error (items heading) idx = Some item ->
        (isStatic item = true -> nth_error (slots s) idx = Some (Some item))
        /\ (In idx (prefilledIndices s) -> nth_error (slots s) idx = Some (Some item))
        /\ (isStatic item = false -> ~ In idx (prefilledIndices s) ->
            nth_error (slots s) idx = Some None))
  /\ NoDup (prefilledIndices s)
  /\ (forall idx, In idx (prefilledIndices s) ->
        exists item, nth_error (items heading) idx = Some item /\ isStatic item = false)
  /\ List.length (prefilledIndices s)
     = numToPrefill (List.length playable) (difficulty state)
  /\ numToPrefill (List.length playable) (difficulty state) <= List.length playable.
Proof.
  intros Hh Hlen s playable. subst s.
  destruct (startSession_session R index state Hh) as (Hs & Hp & Ha).
  rewrite Hs, Hp.
  destruct (sessionSlots_slots R index heading state) as [Hl Hslot].
  destruct (@sessionSlots_prefilled R index heading state Hlen) as (Hnd & Hin & Hn & Hle).
  split; [exact Ha|]. split; [exact Hl|]. split; [|auto].
  intros idx item Hit. rewrite (Hslot idx item Hit). split; [|split].
  - now intros ->.
  - intro H. apply setHas_In in H. rewrite H. now rewrite orb_true_r.
  - intros Hst Hnot. rewrite Hst. simpl.
    destruct (setHas Nat.eqb _ idx) eqn:E; [|reflexivity].
    apply setHas_In in E. contradiction.
Qed.

Lemma startSession_slots_witness :
  List.length (slots (fst (startSession halfRandom 0 ninetyState))) = 90
  /\ List.length (prefilledIndices (fst (startSession halfRandom 0 ninetyState)))
     = numToPrefill 90 easy.
Proof.
  assert (Hlen : (Z.of_nat (List.length (items ninetyHeading)) < 2 ^ 32)%Z)
    by (vm_compute; reflexivity).
  destruct (@startSession_slots halfRandom 0 ninetyState ninetyHeading eq_refl Hlen)
    as (_ & Hl & _ & _ & _ & Hn & _).
  split; [exact Hl | exact Hn].
Defined.

(** ** Decoys *)

(** C6 fails on the code: in ["# A\n- x\n# A\n- y"] the session on the first
    group draws the fragment [- y] of the second group as a decoy and puts
    it in the pool; it is not a fragment of the first group, yet
    [isSlotCorrect] accepts it in slot 0 of the first group, whose title and
    index it shares, and placing it there wins the group. *)
Theorem decoy_accepted :
  parseMarkdownToGame countingRandom36 twinDocument (js "note") (js "note.md")
    = Some homonymGame
  /\ headings homonymGame = [homonymFirst; homonymSecond]
  /\ snd (startSession halfRandom 0 homonymGame) = Returns tt
  /\ In homonymDecoy (items homonymSecond)
  /\ ~ In homonymDecoy (items homonymFirst)
  /\ (forall it, In it (items homonymFirst) -> id it <> id homonymDecoy)
  /\ In homonymDecoy (poolItems (fst (startSession halfRandom 0 homonymGame)))
  /\ isSlotCorrect (Some homonymDecoy) 0 homonymFirst = Returns true
  /\ checkWinCondition [Some homonymDecoy] homonymFirst
     = Returns (setRestored homonymFirst, true).
Proof.
  split; [vm_compute; reflexivity|]. split; [reflexivity|].
  split; [vm_compute; reflexivity|]. split; [left; reflexivity|].
  split; [intros [H|[]]; discriminate H|].
  split; [intros it [<-|[]] H; discriminate H|].
  split; [vm_compute; auto|]. split; reflexivity.
Qed.

(** ** The win timer *)

Lemma run_reachable (es : list Event) :
  forall v0 v v', reachable v0 v -> run es v = Some v' -> reachable v0 v'.
Proof.
  induction es as [|e es IH]; intros v0 v v' Hr H; simpl in H.
  - now injection H as <-.
  - destruct (handle e v) as [v1|] eqn:E; [|discriminate].
    eapply IH; [|exact H]. eapply reachable_event; eassumption.
Qed.

Lemma setActiveHeadingIndex_same (st : GameState) :
  setActiveHeadingIndex st (activeHeadingIndex st) = st.
Proof. now destruct st. Qed.




(** * Further properties of the code *)

(** ** The parser loses no line *)

Lemma fragmentTexts_app (hs1 hs2 : list GameHeading) :
  fragmentTexts (hs1 ++ hs2) = fragmentTexts hs1 ++ fragmentTexts hs2.
Proof. apply flat_map_app. Qed.

Lemma fragmentTexts_last (hs : list GameHeading) (cur : GameHeading) :
  fragmentTexts (hs ++ [cur]) = fragmentTexts hs ++ List.map text (items cur).
Proof. rewrite fragmentTexts_app. simpl. now rewrite app_nil_r. Qed.

(** Fragments that are the lines [i], [i + 1], ... have these lines as
    texts. *)
Lemma texts_of_lines (lines : list jstring) (new : list GameItem) :
  forall i,
    (forall k it, nth_error new k = Some it -> nth_error lines (i + k) = Some (text it)) ->
    firstn (List.length new) (skipn i lines) = List.map text new.
Proof.
  induction new as [|it new IH]; intros i H; [reflexivity|].
  pose proof (H 0 it eq_refl) as H0. rewrite Nat.add_0_r in H0.
  destruct (nth_error_split lines i H0) as (l1 & l2 & -> & Hlen).
  assert (Hs : forall n, skipn (i + n) (l1 ++ text it :: l2) = skipn n (text it :: l2)).
  { intro n. rewrite skipn_app, <- Hlen.
    replace (skipn (List.length l1 + n) l1) with (@nil jstring)
      by (symmetry; apply skipn_all2; lia).
    simpl. f_equal. lia. }
  pose proof (Hs 0) as Hs0. rewrite Nat.add_0_r in Hs0. rewrite Hs0. simpl. f_equal.
  specialize (IH (S i)). replace (S i) with (i + 1) in IH by lia.
  rewrite Hs in IH. simpl in IH. apply IH.
  intros k x Hk. replace (i + 1 + k) with (i + S k) by lia. now apply H.
Qed.

Lemma filter_all (A : Type) (p : A -> bool) (l : list A) :
  (forall x, In x l -> p x = true) -> filter p l = l.
Proof.
  induction l as [|x l IH]; intro H; simpl; [reflexivity|].
  rewrite (H x (or_introl eq_refl)). f_equal. apply IH. intros y Hy. apply H. now right.
Qed.

Lemma firstn_add_skipn (A : Type) (i n : nat) (l : list A) :
  firstn (i + n) l = firstn i l ++ firstn n (skipn i l).
Proof.
  revert l. induction i as [|i IH]; intros [|x l]; simpl; auto.
  - now rewrite firstn_nil.
  - now rewrite IH.
Qed.

Lemma keptLine_plain (line : jstring) :
  line <> [] -> headingMatch line = None -> keptLine line = true.
Proof.
  intros Hne Hh. unfold keptLine, isGroupHeading. rewrite Hh.
  destruct (jseq line []) eqn:E; [apply jseq_true in E; contradiction | reflexivity].
Qed.

Lemma keptLine_separator (l : jstring) :
  isSeparatorRow (trim l) = true -> keptLine l = true.
Proof.
  intro H. apply keptLine_plain.
  - intros ->. discriminate H.
  - destruct (headingMatch l) as [[level t]|] eqn:E; [|reflexivity].
    apply headingMatch_trim in E as [s E]. rewrite E, separator_hash in H. discriminate H.
Qed.

Section Lossless.

Variable rand36 : nat -> jstring.
Variable lines : list jstring.

(** The lines a block consumes are all kept. *)
Lemma block_kept (i nStatic : nat) (bId marker : jstring) (new : list GameItem)
    (line : jstring) :
  nth_error lines i = Some line -> line <> [] -> headingMatch line = None ->
  (nStatic = 2 -> isSeparatorRow (nextLineOf lines i) = true) ->
  1 <= nStatic <= 2 ->
  (marker = js "|" \/ marker = js ">") ->
  blockOf lines i bId nStatic marker new ->
  filter keptLine (firstn (List.length new) (skipn i lines)) = List.map text new.
Proof.
  intros Hline Hne Hh Hsep Hn Hm [Hlen Hb].
  rewrite (texts_of_lines lines new i) by (intros k it Hk; now apply Hb).
  apply filter_all. intros x Hx. apply in_map_iff in Hx as (it & <- & Hin).
  apply In_nth_error in Hin as [k Hk].
  destruct (Hb k it Hk) as (Hl & _ & _ & _ & Hrow).
  destruct (Nat.lt_ge_cases k nStatic) as [Hlt|Hge].
  - destruct k as [|k].
    + rewrite Nat.add_0_r in Hl. assert (text it = line) as -> by congruence.
      now apply keptLine_plain.
    + assert (nStatic = 2 /\ k = 0) as [E ->] by lia.
      apply keptLine_separator. specialize (Hsep E). unfold nextLineOf in Hsep.
      replace (i + 1) with (S i) in Hl by lia. now rewrite Hl in Hsep.
  - specialize (Hrow Hge). destruct Hm as [-> | ->].
    + destruct (pipe_no_heading _ Hrow). now apply keptLine_plain.
    + destruct (quote_no_heading _ Hrow). now apply keptLine_plain.
Qed.

(** After every turn the fragments made so far are the kept lines among
    those read. *)
Lemma turn_texts (st st' : PState) (line : jstring) :
  nth_error lines (ps_i st) = Some line ->
  turn rand36 lines st line st' ->
  fragmentTexts (ps_headings st ++ [ps_current st])
  = filter keptLine (firstn (ps_i st) lines) ->
  fragmentTexts (ps_headings st' ++ [ps_current st'])
  = filter keptLine (firstn (ps_i st') lines).
Proof.
  intros Hline Ht Hinv.
  assert (Hone : forall n, firstn (ps_i st + n) lines
                           = firstn (ps_i st) lines ++ firstn n (skipn (ps_i st) lines))
    by (intro n; apply firstn_add_skipn).
  assert (Hskip : firstn 1 (skipn (ps_i st) lines) = [line]).
  { destruct (nth_error_split lines (ps_i st) Hline) as (l1 & l2 & -> & Hlen).
    rewrite skipn_app, <- Hlen, Nat.sub_diag.
    replace (skipn (List.length l1) l1) with (@nil jstring)
      by (symmetry; apply skipn_all2; lia).
    reflexivity. }
  rewrite fragmentTexts_last in Hinv.
  destruct Ht as [Hb|level t Hh Hl|level t Hh Hl|cur' rng' new Hne Hh Htab Hp Hblock
                  |cur' rng' new Hne Hh Htab Hc Hp Hblock|Hne Hh Htab Hc];
    cbn [ps_i ps_current ps_headings]; rewrite fragmentTexts_last.
  - replace (S (ps_i st)) with (ps_i st + 1) by lia.
    rewrite Hone, Hskip, filter_app, <- Hinv. subst line. simpl.
    symmetry. apply app_nil_r.
  - replace (S (ps_i st)) with (ps_i st + 1) by lia.
    rewrite Hone, Hskip, filter_app, <- Hinv.
    assert (Hk : keptLine line = false).
    { unfold keptLine, isGroupHeading. rewrite Hh.
      apply Nat.leb_le in Hl. rewrite Hl. apply andb_false_r. }
    cbn [filter items List.map]. rewrite Hk, !app_nil_r.
    destruct (items (ps_current st)) as [|x its] eqn:E; cbn [List.length Nat.ltb Nat.leb].
    + cbn [List.map]. now rewrite app_nil_r.
    + rewrite fragmentTexts_last, E. reflexivity.
  - replace (S (ps_i st)) with (ps_i st + 1) by lia.
    rewrite Hone, Hskip, filter_app, <- Hinv. simpl.
    assert (Hk : keptLine line = true).
    { unfold keptLine, isGroupHeading. rewrite Hh.
      destruct (headingMatch_hash _ Hh) as [rest ->].
      assert (E : (level <=? 2) = false) by (apply Nat.leb_gt; lia).
      now rewrite E. }
    rewrite Hk, map_app, app_assoc. reflexivity.
  - destruct (pushed_rowsAdded Hp) as (_ & _ & ->).
    rewrite Hone, filter_app, <- Hinv, map_app, app_assoc. f_equal.
    symmetry.
    apply (@block_kept (ps_i st) 2 (js "table-" ++ decimal (ps_i st)) (js "|") new line
             Hline Hne Hh);
      [|lia|now left|exact Hblock].
    intros _. unfold tableStart in Htab. now apply andb_true_iff in Htab.
  - destruct (pushed_rowsAdded Hp) as (_ & _ & ->).
    rewrite Hone, filter_app, <- Hinv, map_app, app_assoc. f_equal.
    symmetry.
    apply (@block_kept (ps_i st) 1 (js "callout-" ++ decimal (ps_i st)) (js ">") new line
             Hline Hne Hh);
      [intro; discriminate|lia|now right|exact Hblock].
  - replace (S (ps_i st)) with (ps_i st + 1) by lia.
    rewrite Hone, Hskip, filter_app, <- Hinv. simpl.
    rewrite (keptLine_plain Hne Hh), map_app, app_assoc. reflexivity.
Qed.

Lemma reaches_texts (st : PState) :
  reaches rand36 lines st ->
  fragmentTexts (ps_headings st ++ [ps_current st])
  = filter keptLine (firstn (ps_i st) lines).
Proof.
  induction 1 as [|st Hr IH Hi]; [reflexivity|].
  destruct (reaches_turn rand36 lines st Hi) as (line & Hline & Ht).
  exact (turn_texts Hline Ht IH).
Qed.

End Lossless.

Lemma flexed_texts (its out : list GameItem) :
  flexed its out -> List.map text out = List.map text its.
Proof. induction 1; simpl; congruence. Qed.

Lemma flexed_groups_texts (hs hs' : list GameHeading) :
  Forall2 (fun h h' => title h' = title h /\ isRestored h' = isRestored h
                       /\ flexed (items h) (items h')) hs hs' ->
  fragmentTexts hs' = fragmentTexts hs.
Proof.
  induction 1 as [|h h' hs hs' (_ & _ & Hf) _ IH]; [reflexivity|].
  unfold fragmentTexts in *. simpl. now rewrite IH, (flexed_texts Hf).
Qed.

(** X1: the texts of the fragments of a parsed document, read group after
    group, are exactly the lines of the document, in order, that are neither
    empty nor a heading of level 1 or 2: no line is lost, none is emitted
    twice, none is reordered. *)
Theorem parse_lossless (rand36 : nat -> jstring) (content fname fpath : jstring)
    (g : GameState) :
  parseMarkdownToGame rand36 content fname fpath = Some g ->
  fragmentTexts (headings g) = filter keptLine (splitLines [] content).
Proof.
  intro Hp. destruct (@parse_result rand36 _ _ _ _ Hp) as (st & Hr & Hlen & Hg).
  rewrite Hg, (flexed_groups_texts (@flexPass_flexed rand36 _ (ps_rng st))).
  rewrite (reaches_texts Hr). now rewrite firstn_all2.
Qed.

Lemma parse_lossless_witness :
  fragmentTexts (headings sampleGame) = [js "- x"; js "- y"; js "- z"].
Proof.
  assert (Hp : parseMarkdownToGame sampleRandom36 sampleDocument (js "note") (js "note.md")
               = Some sampleGame) by (vm_compute; reflexivity).
  rewrite (parse_lossless _ _ _ _ Hp). vm_compute. reflexivity.
Defined.

(** ** The random draws decide the ids only *)

Lemma sameGroup_empty (t : jstring) (r : bool) :
  sameGroup (mkHeading t [] r) (mkHeading t [] r).
Proof. repeat split. constructor. Qed.

Lemma Forall2_snoc (A B : Type) (R : A -> B -> Prop) (l : list A) (l' : list B)
    (x : A) (y : B) :
  Forall2 R l l' -> R x y -> Forall2 R (l ++ [x]) (l' ++ [y]).
Proof. intros H Hxy. apply Forall2_app; [assumption | now constructor]. Qed.

Lemma Forall2_hd_error (A B : Type) (R : A -> B -> Prop) (l : list A) (l' : list B) :
  Forall2 R l l' ->
  match hd_error l, hd_error l' with
  | Some x, Some y => R x y
  | None, None => True
  | _, _ => False
  end.
Proof. destruct 1; simpl; auto. Qed.

Section TwoOracles.

Variables r1 r2 : nat -> jstring.

Lemma pushItem_same (h1 h2 : GameHeading) (k1 k2 : nat) (t : jstring) (s sh : bool)
    (b : option jstring) :
  sameGroup h1 h2 ->
  sameGroup (fst (pushItem r1 h1 k1 t s sh b)) (fst (pushItem r2 h2 k2 t s sh b)).
Proof.
  intros (Ht & Hr & Hi). unfold sameGroup. simpl. split; [assumption|].
  split; [assumption|]. apply Forall2_snoc; [assumption|].
  unfold sameFragment. simpl. rewrite Ht, (Forall2_length Hi). tauto.
Qed.

Lemma tableRows_same (bId : jstring) (rest : list jstring) :
  forall c1 c2 k i,
    sameGroup c1 c2 ->
    sameGroup (fst (fst (tableRows r1 rest bId c1 k i)))
              (fst (fst (tableRows r2 rest bId c2 k i)))
    /\ snd (fst (tableRows r1 rest bId c1 k i)) = snd (fst (tableRows r2 rest bId c2 k i))
    /\ snd (tableRows r1 rest bId c1 k i) = snd (tableRows r2 rest bId c2 k i).
Proof.
  induction rest as [|l rest IH]; intros c1 c2 k i Hc; cbn [tableRows pushItem].
  - simpl. auto.
  - destruct (startsWith (js "|") (trim l)); [|simpl; auto].
    apply IH. exact (pushItem_same k k l false false (Some bId) Hc).
Qed.

Lemma calloutRows_same (bId : jstring) (rest : list jstring) :
  forall c1 c2 k i,
    sameGroup c1 c2 ->
    sameGroup (fst (fst (calloutRows r1 rest bId c1 k i)))
              (fst (fst (calloutRows r2 rest bId c2 k i)))
    /\ snd (fst (calloutRows r1 rest bId c1 k i))
       = snd (fst (calloutRows r2 rest bId c2 k i))
    /\ snd (calloutRows r1 rest bId c1 k i) = snd (calloutRows r2 rest bId c2 k i).
Proof.
  induction rest as [|l rest IH]; intros c1 c2 k i Hc; cbn [calloutRows pushItem].
  - simpl. auto.
  - destruct (startsWith (js ">") (trim l)); cbn [orb].
    + apply IH. exact (pushItem_same k k l false false (Some bId) Hc).
    + destruct (jseq (trim l) []); simpl; auto.
Qed.

Lemma parseStep_same (lines : list jstring) (st1 st2 : PState) :
  sameParse st1 st2 -> sameParse (parseStep r1 lines st1) (parseStep r2 lines st2).
Proof.
  intros (Hi & Hk & Hc & Hhs). pose proof Hc as (Ht & Hr & Hits).
  unfold parseStep. rewrite <- Hi, <- Hk.
  destruct (nth_error lines (ps_i st1)) as [line|]; [|repeat split; auto].
  destruct (jseq (trim line) [] && (List.length line =? 0)).
  { repeat split; auto. }
  destruct (headingMatch line) as [[level t]|].
  { destruct (level <=? 2).
    - unfold sameParse. cbn [ps_i ps_rng ps_current ps_headings].
      split; [reflexivity|]. split; [reflexivity|]. split; [apply sameGroup_empty|].
      rewrite (Forall2_length Hits).
      destruct (0 <? List.length (items (ps_current st2))); [|assumption].
      now apply Forall2_snoc.
    - cbn [pushItem]. unfold sameParse. cbn [ps_i ps_rng ps_current ps_headings].
      split; [reflexivity|]. split; [reflexivity|]. split; [|assumption].
      exact (pushItem_same _ _ line false true None Hc). }
  destruct (startsWith (js "|") (trim line) && isSeparatorRow (nextLineOf lines (ps_i st1))).
  { cbn [pushItem].
    set (bId := js "table-" ++ decimal (ps_i st1)).
    pose proof (pushItem_same (ps_rng st1) (ps_rng st1) line true false (Some bId) Hc) as H1.
    pose proof (pushItem_same (S (ps_rng st1)) (S (ps_rng st1))
                  (nth (S (ps_i st1)) lines []) true false (Some bId) H1) as H2.
    destruct (tableRows_same bId (skipn (ps_i st1 + 2) lines)
                (S (S (ps_rng st1))) (ps_i st1 + 2) H2) as (Hg & Hrng & Hidx).
    cbn [pushItem fst] in Hg, Hrng, Hidx.
    destruct (tableRows r1 _ _ _ _ _) as [[c1 k1] i1].
    destruct (tableRows r2 _ _ _ _ _) as [[c2 k2] i2].
    simpl in *. repeat split; auto; apply Hg. }
  destruct (startsWith (js "> [!") (trim line)).
  { cbn [pushItem].
    set (bId := js "callout-" ++ decimal (ps_i st1)).
    pose proof (pushItem_same (ps_rng st1) (ps_rng st1) line true false (Some bId) Hc) as H1.
    destruct (calloutRows_same bId (skipn (S (ps_i st1)) lines)
                (S (ps_rng st1)) (S (ps_i st1)) H1) as (Hg & Hrng & Hidx).
    cbn [pushItem fst] in Hg, Hrng, Hidx.
    destruct (calloutRows r1 _ _ _ _ _) as [[c1 k1] i1].
    destruct (calloutRows r2 _ _ _ _ _) as [[c2 k2] i2].
    simpl in *. repeat split; auto; apply Hg. }
  cbn [pushItem]. unfold sameParse. cbn [ps_i ps_rng ps_current ps_headings].
  split; [reflexivity|]. split; [reflexivity|]. split; [|assumption].
  exact (pushItem_same _ _ line false false None Hc).
Qed.

Lemma parseLoop_same (lines : list jstring) (fuel : nat) :
  forall st1 st2 st1' st2',
    sameParse st1 st2 ->
    parseLoop r1 fuel lines st1 = Some st1' ->
    parseLoop r2 fuel lines st2 = Some st2' ->
    sameParse st1' st2'.
Proof.
  induction fuel as [|fuel IH]; intros st1 st2 st1' st2' Hs H1 H2; simpl in H1, H2;
    destruct Hs as (Hi & Hs'); rewrite <- Hi in H2;
    destruct (List.length lines <=? ps_i st1).
  - injection H1 as <-. injection H2 as <-. split; assumption.
  - discriminate.
  - injection H1 as <-. injection H2 as <-. split; assumption.
  - eapply IH; [|exact H1|exact H2]. apply parseStep_same. split; assumption.
Qed.

Lemma flexTurn_same (t1 t2 : jstring) (j : nat) (a b : GameItem)
    (na nb : option GameItem) (fs1 fs2 : FlexState) :
  sameFragment a b ->
  match na, nb with
  | Some x, Some y => sameFragment x y
  | None, None => True
  | _, _ => False
  end ->
  sameFlex fs1 fs2 ->
  sameFragment (fst (flexTurn r1 t1 j a na fs1)) (fst (flexTurn r2 t2 j b nb fs2))
  /\ sameFlex (snd (flexTurn r1 t1 j a na fs1)) (snd (flexTurn r2 t2 j b nb fs2)).
Proof.
  intros Hab Hn (Hst & Hlp & Hli & Hrng & Hcur).
  pose proof Hab as (Htx & Hoh & Hoi & Hin & Hl & Hm & Hs & Hsh & Hb & Hf).
  assert (Hch : hasChildrenOf a na = hasChildrenOf b nb).
  { unfold hasChildrenOf. rewrite Hin.
    destruct na as [x|], nb as [y|]; try contradiction; [|reflexivity].
    destruct Hn as (_ & _ & _ & -> & _). reflexivity. }
  unfold flexTurn. rewrite <- Htx, <- Hin, <- Hs, <- Hsh, <- Hch, <- Hst, <- Hlp, <- Hli, <- Hrng.
  destruct (negb (isUnordered (text a)) || (isStatic a || isSubHeading a)
            || hasChildrenOf a na).
  - simpl. split; [assumption|]. repeat split; auto.
  - assert (Hfresh :
      match currentFlexGroupId fs1 with
      | None => true
      | Some _ =>
          negb (topIndex (popParents (parentStack fs1) (Z.of_nat (indentation a)))
                =? lastParentIdx fs1)%Z
          || negb (Z.of_nat (indentation a) =? lastIndent fs1)%Z
      end
      = match currentFlexGroupId fs2 with
        | None => true
        | Some _ =>
            negb (topIndex (popParents (parentStack fs1) (Z.of_nat (indentation a)))
                  =? lastParentIdx fs1)%Z
            || negb (Z.of_nat (indentation a) =? lastIndent fs1)%Z
        end).
    { destruct (currentFlexGroupId fs1), (currentFlexGroupId fs2); try reflexivity.
      - destruct Hcur as [_ H]. discriminate (H eq_refl).
      - destruct Hcur as [H _]. discriminate (H eq_refl). }
    rewrite <- Hfresh. simpl. split.
    + unfold sameFragment. simpl. repeat split; auto; discriminate.
    + unfold sameFlex. simpl. repeat split; auto; discriminate.
Qed.

Lemma flexLoop_same (t1 t2 : jstring) (its1 its2 : list GameItem) :
  Forall2 sameFragment its1 its2 ->
  forall j fs1 fs2,
    sameFlex fs1 fs2 ->
    Forall2 sameFragment (fst (flexLoop r1 t1 j its1 fs1)) (fst (flexLoop r2 t2 j its2 fs2))
    /\ snd (flexLoop r1 t1 j its1 fs1) = snd (flexLoop r2 t2 j its2 fs2).
Proof.
  induction 1 as [|a b its1 its2 Hab Hrest IH]; intros j fs1 fs2 Hfs; cbn [flexLoop].
  - simpl. split; [constructor | apply Hfs].
  - destruct (@flexTurn_same t1 t2 j a b (hd_error its1) (hd_error its2) fs1 fs2
                Hab (Forall2_hd_error Hrest) Hfs) as [Hitem Hfs'].
    destruct (flexTurn r1 t1 j a (hd_error its1) fs1) as [a' fs1'].
    destruct (flexTurn r2 t2 j b (hd_error its2) fs2) as [b' fs2'].
    simpl in Hitem, Hfs'. destruct (IH (S j) fs1' fs2' Hfs') as [Hl Hr].
    destruct (flexLoop r1 t1 (S j) its1 fs1') as [o1 k1].
    destruct (flexLoop r2 t2 (S j) its2 fs2') as [o2 k2].
    simpl in *. split; [now constructor | assumption].
Qed.

Lemma flexPass_same (hs1 hs2 : list GameHeading) :
  Forall2 sameGroup hs1 hs2 ->
  forall rng, Forall2 sameGroup (flexPass r1 hs1 rng) (flexPass r2 hs2 rng).
Proof.
  induction 1 as [|h1 h2 hs1 hs2 (Ht & Hr & Hi) _ IH]; intro rng; cbn [flexPass].
  - constructor.
  - assert (Hinit : sameFlex (flexInit rng) (flexInit rng)) by (repeat split; auto).
    destruct (flexLoop_same (title h1) (title h2) Hi 0 Hinit) as [Hl Hk].
    destruct (flexLoop r1 (title h1) 0 (items h1) (flexInit rng)) as [o1 k1].
    destruct (flexLoop r2 (title h2) 0 (items h2) (flexInit rng)) as [o2 k2].
    simpl in Hl, Hk. subst k2. constructor; [|apply IH].
    repeat split; assumption.
Qed.

End TwoOracles.

(** X2: parsing one document with two sequences of random strings gives the
    same groups, title by title, and in each group the same fragments with
    the same text, originalHeading, originalIndex, indentation, isListItem,
    listMarker, isStatic, isSubHeading and blockId; a fragment has a
    flexGroupId in one result exactly when it has one in the other.  Only the
    values of [id] and [flexGroupId] depend on the random draws. *)
Theorem parse_random_independent (r1 r2 : nat -> jstring) (content fname fpath : jstring)
    (g1 g2 : GameState) :
  parseMarkdownToGame r1 content fname fpath = Some g1 ->
  parseMarkdownToGame r2 content fname fpath = Some g2 ->
  Forall2 sameGroup (headings g1) (headings g2).
Proof.
  unfold parseMarkdownToGame. intros H1 H2.
  destruct (parseLoop r1 _ _ parseInit) as [st1|] eqn:E1; [|discriminate].
  destruct (parseLoop r2 _ _ parseInit) as [st2|] eqn:E2; [|discriminate].
  injection H1 as <-. injection H2 as <-. simpl.
  assert (Hinit : sameParse parseInit parseInit).
  { repeat split; auto; constructor. }
  destruct (@parseLoop_same r1 r2 _ _ _ _ _ _ Hinit E1 E2) as (_ & Hk & Hc & Hhs).
  rewrite Hk. apply flexPass_same. now apply Forall2_snoc.
Qed.

Lemma parse_random_independent_witness :
  Forall2 sameGroup (headings sampleGame) (headings sampleGameCounting).
Proof.
  assert (Hp : parseMarkdownToGame sampleRandom36 sampleDocument (js "note") (js "note.md")
               = Some sampleGame) by (vm_compute; reflexivity).
  assert (Hq : parseMarkdownToGame countingRandom36 sampleDocument (js "note") (js "note.md")
               = Some sampleGameCounting) by (vm_compute; reflexivity).
  exact (@parse_random_independent _ _ _ _ _ _ _ Hp Hq).
Defined.

(** ** Groups of a parsed document *)

Lemma turn_closed_nonempty (rand36 : nat -> jstring) (lines : list jstring)
    (st st' : PState) (line : jstring) :
  turn rand36 lines st line st' ->
  Forall (fun h => items h <> []) (ps_headings st) ->
  Forall (fun h => items h <> []) (ps_headings st').
Proof.
  intros Ht H. destruct Ht; simpl; auto.
  destruct (items (ps_current st)) as [|x its] eqn:E; simpl; [assumption|].
  apply Forall_app. split; [assumption|]. constructor; [|constructor]. congruence.
Qed.

Lemma reaches_closed_nonempty (rand36 : nat -> jstring) (lines : list jstring)
    (st : PState) :
  reaches rand36 lines st -> Forall (fun h => items h <> []) (ps_headings st).
Proof.
  induction 1 as [|st Hr IH Hi]; [constructor|].
  destruct (reaches_turn rand36 lines st Hi) as (line & Hline & Ht).
  exact (turn_closed_nonempty Ht IH).
Qed.

(** X3: every group of a parsed document but the last one has at least one
    fragment: a heading of level 1 or 2 closes the group before it only when
    that group is not empty, so an empty group can only be the one the input
    ends in. *)
Theorem parsed_groups_nonempty (rand36 : nat -> jstring) (content fname fpath : jstring)
    (g : GameState) (gs : list GameHeading) (last : GameHeading) :
  parseMarkdownToGame rand36 content fname fpath = Some g ->
  headings g = gs ++ [last] ->
  Forall (fun h => items h <> []) gs.
Proof.
  intros Hp Hg. destruct (@parse_result rand36 _ _ _ _ Hp) as (st & Hr & _ & Hg').
  pose proof (@flexPass_flexed rand36 (ps_headings st ++ [ps_current st]) (ps_rng st)) as Hf.
  rewrite <- Hg', Hg in Hf.
  apply Forall2_app_inv_l in Hf as (gs' & l' & Hgs & Hl & E).
  inversion Hl as [|? y ? ? _ Hnil]; subst. inversion Hnil; subst.
  apply app_inj_tail in E as [-> _].
  pose proof (reaches_closed_nonempty Hr) as Hne.
  clear - Hgs Hne. induction Hgs as [|h h' hs hs' (_ & _ & Hfl) _ IH]; [constructor|].
  inversion Hne; subst. constructor; [|now apply IH].
  intro E. apply flexed_length in Hfl. rewrite E in Hfl. destruct (items h); [auto | discriminate].
Qed.

Lemma parsed_groups_nonempty_witness :
  Forall (fun h => items h <> []) [sampleA].
Proof.
  assert (Hp : parseMarkdownToGame sampleRandom36 sampleDocument (js "note") (js "note.md")
               = Some sampleGame) by (vm_compute; reflexivity).
  exact (@parsed_groups_nonempty _ _ _ _ _ [sampleA] sampleB Hp eq_refl).
Defined.

(** ** Flexible-group ids of a parsed document *)

Lemma flexTurn_prefixed (rand36 : nat -> jstring) (t : jstring) (j : nat)
    (item : GameItem) (next : option GameItem) (fs : FlexState) :
  (forall g, currentFlexGroupId fs = Some g -> flexPrefixed g) ->
  (forall g, flexGroupId item = Some g -> flexPrefixed g) ->
  (forall g, flexGroupId (fst (flexTurn rand36 t j item next fs)) = Some g -> flexPrefixed g)
  /\ (forall g, currentFlexGroupId (snd (flexTurn rand36 t j item next fs)) = Some g ->
                flexPrefixed g).
Proof.
  intros Hcur Hitem. unfold flexTurn.
  destruct (negb (isUnordered (text item)) || (isStatic item || isSubHeading item)
            || hasChildrenOf item next); simpl.
  - split; [assumption | discriminate].
  - assert (H : forall g,
               Some (if match currentFlexGroupId fs with
                        | None => true
                        | Some _ =>
                            negb (topIndex (popParents (parentStack fs)
                                              (Z.of_nat (indentation item)))
                                  =? lastParentIdx fs)%Z
                            || negb (Z.of_nat (indentation item) =? lastIndent fs)%Z
                        end
                     then js "flex-" ++ t ++ js "-" ++ decimal j ++ js "-"
                             ++ substring 2 5 (rand36 (fx_rng fs))
                     else match currentFlexGroupId fs with
                          | Some g0 => g0
                          | None => []
                          end) = Some g -> flexPrefixed g).
    { intros g E. injection E as <-.
      destruct (currentFlexGroupId fs) as [g0|].
      - destruct (_ || _); [eexists; reflexivity | now apply Hcur].
      - eexists; reflexivity. }
    split; exact H.
Qed.

Lemma flexLoop_prefixed (rand36 : nat -> jstring) (t : jstring) (its : list GameItem) :
  forall j fs,
    (forall g, currentFlexGroupId fs = Some g -> flexPrefixed g) ->
    (forall it g, In it its -> flexGroupId it = Some g -> flexPrefixed g) ->
    forall it g, In it (fst (flexLoop rand36 t j its fs)) ->
                 flexGroupId it = Some g -> flexPrefixed g.
Proof.
  induction its as [|item rest IH]; intros j fs Hcur Hits it g Hin Hg; cbn [flexLoop] in Hin.
  - destruct Hin.
  - destruct (@flexTurn_prefixed rand36 t j item (hd_error rest) fs Hcur
                (fun g0 => Hits item g0 (or_introl eq_refl))) as [H1 H2].
    destruct (flexTurn rand36 t j item (hd_error rest) fs) as [item' fs'].
    specialize (IH (S j) fs' H2 (fun x g0 Hx => Hits x g0 (or_intror Hx))).
    destruct (flexLoop rand36 t (S j) rest fs') as [rest' rng']. simpl in *.
    destruct Hin as [<-|Hin]; [now apply H1 | now apply (IH it g)].
Qed.

Lemma flexPass_prefixed (rand36 : nat -> jstring) (hs : list GameHeading) :
  forall rng,
    Forall noFlex hs ->
    forall h it g, In h (flexPass rand36 hs rng) -> In it (items h) ->
                   flexGroupId it = Some g -> flexPrefixed g.
Proof.
  induction hs as [|h0 hs IH]; intros rng Hn h it g Hin Hit Hg; cbn [flexPass] in Hin.
  - destruct Hin.
  - inversion Hn as [|? ? Hn0 Hns]; subst.
    pose proof (@flexLoop_prefixed rand36 (title h0) (items h0) 0 (flexInit rng)) as Hl.
    destruct (flexLoop rand36 (title h0) 0 (items h0) (flexInit rng)) as [its rng'].
    destruct Hin as [<-|Hin]; [|now apply (IH rng' Hns h it g)].
    simpl in Hit. apply (Hl (fun g0 (E : None = Some g0) => ltac:(discriminate E))
                           (fun x g0 Hx E => ltac:(destruct (Hn0 x Hx) as [Hx0 _];
                                                    rewrite Hx0 in E; discriminate E))
                           it g Hit Hg).
Qed.

(** Every flexGroupId of a parsed document starts with [flex-]. *)
Lemma parsed_flex_prefixed (rand36 : nat -> jstring) (content fname fpath : jstring)
    (g : GameState) (h : GameHeading) (it : GameItem) (f : jstring) :
  parseMarkdownToGame rand36 content fname fpath = Some g ->
  In h (headings g) -> In it (items h) -> flexGroupId it = Some f -> flexPrefixed f.
Proof.
  intros Hp Hin Hit Hf. destruct (@parse_result rand36 _ _ _ _ Hp) as (st & Hr & _ & Hg).
  rewrite Hg in Hin.
  apply (@flexPass_prefixed rand36 (ps_headings st ++ [ps_current st]) (ps_rng st))
    with (h := h) (it := it); auto.
  pose proof (reaches_parsedSoFar Hr) as Hinv. unfold parsedSoFar in Hinv.
  eapply Forall_impl; [|exact Hinv]. now intros a [_ Ha].
Qed.

(** X4: on a group of a parsed document the test for truth of the
    flexGroupId never bites, since the ids the parser makes start with
    [flex-]: for an index in range, [isSlotCorrect] is true exactly when the
    slot holds a fragment that is at its exact position or that has the same
    flexGroupId as the fragment parsed at that index. *)
Theorem isSlotCorrect_parsed (rand36 : nat -> jstring) (content fname fpath : jstring)
    (g : GameState) (h : GameHeading) (i : nat) (s : option GameItem) :
  parseMarkdownToGame rand36 content fname fpath = Some g ->
  In h (headings g) -> i < List.length (items h) ->
  (isSlotCorrect s i h = Returns true
   <-> exists it, s = Some it /\ (exactPosition it i h \/ sameFlexGroup it i h)).
Proof.
  intros Hp Hin Hi. destruct s as [it|].
  - rewrite isSlotCorrect_true. split.
    + intros [H|(o & f & Ho & Hf & _ & Hit)]; exists it; split; auto.
      right. exists o, f. auto.
    + intros (it' & [= <-] & [H|(o & f & Ho & Hf & Hit)]); [now left|].
      right. exists o, f. repeat split; auto.
      destruct (@parsed_flex_prefixed rand36 _ _ _ _ h o f Hp Hin
                  (nth_error_In _ _ Ho) Hf) as [x ->].
      discriminate.
  - split; [discriminate|]. now intros (it & E & _).
Qed.

Lemma isSlotCorrect_parsed_witness :
  isSlotCorrect (Some sampleY) 0 sampleA = Returns true.
Proof.
  assert (Hp : parseMarkdownToGame sampleRandom36 sampleDocument (js "note") (js "note.md")
               = Some sampleGame) by (vm_compute; reflexivity).
  assert (Hi : 0 < List.length (items sampleA)) by (simpl; lia).
  apply (@isSlotCorrect_parsed _ _ _ _ _ sampleA 0 (Some sampleY) Hp (or_introl eq_refl) Hi).
  exists sampleY. split; [reflexivity|]. right.
  exists sampleX. eexists. repeat split.
Defined.

(** X5: putting every fragment of a group of a parsed document back in its
    own slot wins the group: the win test returns [true] and the heading is
    marked restored. *)
Theorem original_order_wins (rand36 : nat -> jstring) (content fname fpath : jstring)
    (g : GameState) (h : GameHeading) :
  parseMarkdownToGame rand36 content fname fpath = Some g ->
  In h (headings g) ->
  checkWinCondition (List.map Some (items h)) h = Returns (setRestored h, true).
Proof.
  intros Hp Hin.
  assert (H : isPerfect (List.map Some (items h)) h = Returns true).
  { apply isPerfect_true. intros i Hi. unfold slotAt.
    rewrite nth_error_map. rewrite length_map in Hi.
    destruct (nth_error (items h) i) as [it|] eqn:E;
      [|apply nth_error_None in E; lia].
    simpl. apply isSlotCorrect_true. left.
    destruct (@parsed_placed rand36 _ _ _ _ _ _ _ Hp Hin E) as (H1 & H2 & _).
    split; assumption. }
  unfold checkWinCondition. now rewrite H.
Qed.

Lemma original_order_wins_witness :
  checkWinCondition [Some sampleX; Some sampleY] sampleA = Returns (setRestored sampleA, true).
Proof.
  assert (Hp : parseMarkdownToGame sampleRandom36 sampleDocument (js "note") (js "note.md")
               = Some sampleGame) by (vm_compute; reflexivity).
  exact (@original_order_wins _ _ _ _ _ sampleA Hp (or_introl eq_refl)).
Defined.

(** ** The pool of a session *)

Lemma setHas_jseq (s : list jstring) (x : jstring) :
  setHas jseq s x = true <-> In x s.
Proof.
  unfold setHas. rewrite existsb_exists. split.
  - intros (y & Hy & E). apply jseq_true in E. now subst.
  - intro H. exists x. split; [assumption | apply jseq_refl].
Qed.

Lemma newSet_jseq_In (l : list jstring) (x : jstring) :
  In x (newSet jseq l) <-> In x l.
Proof.
  unfold newSet.
  assert (H : forall acc, In x (fold_left (setAdd jseq) l acc) <-> In x acc \/ In x l).
  { induction l as [|y l IH]; intro acc; simpl; [tauto|].
    rewrite IH. unfold setAdd. destruct (setHas jseq acc y) eqn:E.
    - apply setHas_jseq in E. split; [tauto|].
      intros [H|[<-|H]]; auto.
    - rewrite in_app_iff. simpl. tauto. }
  rewrite H. simpl. tauto.
Qed.

Lemma idsInSlots_In (slots0 : list (option GameItem)) (x : jstring) :
  In x (idsInSlots slots0)
  <-> exists idx it, nth_error slots0 idx = Some (Some it) /\ id it = x.
Proof.
  induction slots0 as [|[it|] rest IH]; simpl.
  - split; [intros [] | intros ([|idx] & it & H & _); discriminate].
  - rewrite IH. split.
    + intros [<-|(idx & it' & H & E)]; [exists 0, it; auto | exists (S idx), it'; auto].
    + intros ([|idx] & it' & H & E); simpl in H.
      * injection H as <-. now left.
      * right. eauto.
  - rewrite IH. split.
    + intros (idx & it' & H & E). exists (S idx), it'. auto.
    + intros ([|idx] & it' & H & E); simpl in H; [discriminate | eauto].
Qed.

Lemma pickAt_In (A : Type) (arr : list A) (r : float) (x : A) :
  pickAt arr r = Some x -> In x arr.
Proof.
  unfold pickAt. destruct (floorF _) as [z|]; [|discriminate].
  destruct (0 <=? z)%Z; [|discriminate]. apply nth_error_In.
Qed.

Lemma othersFrom_In (index : nat) (hs : list GameHeading) (h : GameHeading) :
  forall i, In h (othersFrom i index hs) ->
            exists j, i + j <> index /\ nth_error hs j = Some h.
Proof.
  induction hs as [|x hs IH]; intros i Hin; simpl in Hin; [destruct Hin|].
  destruct (i =? index) eqn:E.
  - destruct (IH (S i) Hin) as (j & Hj & Hn). exists (S j). split; [lia | assumption].
  - destruct Hin as [<-|Hin].
    + exists 0. apply Nat.eqb_neq in E. split; [lia | reflexivity].
    + destruct (IH (S i) Hin) as (j & Hj & Hn). exists (S j). split; [lia | assumption].
Qed.

Lemma othersFrom_single (index : nat) (h : GameHeading) :
  nth_error [h] index = Some h -> othersFrom 0 index [h] = [].
Proof. destruct index as [|[|n]]; simpl; [reflexivity | discriminate | discriminate]. Qed.

(** The decoys a session draws: at most as many as the loop has turns, each
    a non-static fragment of one of the other headings. *)
Lemma pickIntruders_spec (rnd : nat -> float) (others : list GameHeading) (n : nat) :
  forall k acc res,
    pickIntruders rnd n others k acc = Some res ->
    exists new, res = acc ++ new /\ List.length new <= n
                /\ forall x, In x new ->
                     isStatic x = false /\ exists h, In h others /\ In x (items h).
Proof.
  induction n as [|n IH]; intros k acc res H; simpl in H.
  - injection H as <-. exists []. rewrite app_nil_r.
    split; [reflexivity|]. split; [simpl; lia|]. intros x [].
  - destruct (pickAt others (rnd k)) as [randomH|] eqn:EH.
    + destruct (0 <? List.length (items randomH)).
      * destruct (pickAt (items randomH) (rnd (S k))) as [randomI|] eqn:EI; [|discriminate].
        apply IH in H as (new & -> & Hlen & Hnew).
        destruct (isStatic randomI) eqn:Es.
        -- exists new. split; [reflexivity|]. split; [lia | assumption].
        -- exists (randomI :: new). rewrite <- app_assoc. split; [reflexivity|].
           split; [simpl; lia|]. intros x [<-|Hx]; [|now apply Hnew].
           split; [assumption|]. exists randomH.
           split; [now apply pickAt_In in EH | now apply pickAt_In in EI].
      * apply IH in H as (new & -> & Hlen & Hnew). exists new. auto.
    + apply IH in H as (new & -> & Hlen & Hnew). exists new. auto.
Qed.

Section Pool.

Variable R : Random.
Variable index : nat.
Variable state : GameState.
Variable heading : GameHeading.
Hypothesis Hheading : nth_error (headings state) index = Some heading.
Hypothesis Hreturns : snd (startSession R index state) = Returns tt.

(** The pool [startSession] leaves when it returns. *)
Lemma startSession_pool :
  exists intr,
    intrudersOf R (snd (sessionSlots R index heading state)) index
                (fst (sessionSlots R index heading state)) = Some intr
    /\ poolItems (fst (startSession R index state))
       = shuffled R
           (filter (fun item =>
                      negb (isStatic item)
                      && negb (setHas jseq
                                 (newSet jseq
                                    (idsInSlots
                                       (slots (fst (sessionSlots R index heading state)))))
                                 (id item)))
                   (items heading) ++ intr).
Proof.
  revert Hreturns. unfold startSession. rewrite Hheading.
  destruct (sessionSlots R index heading state) as [state1 k]. simpl.
  destruct (intrudersOf R k index state1) as [intr|]; simpl; [|discriminate].
  intros _. exists intr. auto.
Qed.

Lemma sessionSlots_headings :
  headings (fst (sessionSlots R index heading state)) = headings state
  /\ difficulty (fst (sessionSlots R index heading state)) = difficulty state.
Proof. unfold sessionSlots. now destruct (weigh _ _ _ _). Qed.

Lemma intruders_spec (intr : list GameItem) :
  intrudersOf R (snd (sessionSlots R index heading state)) index
              (fst (sessionSlots R index heading state)) = Some intr ->
  List.length intr <= intruders (difficulty state)
  /\ forall x, In x intr ->
       isStatic x = false
       /\ exists j h, j <> index /\ nth_error (headings state) j = Some h /\ In x (items h).
Proof.
  unfold intrudersOf. destruct sessionSlots_headings as [-> ->].
  destruct (0 <? List.length (othersFrom 0 index (headings state))).
  - intro H. apply pickIntruders_spec in H as (new & -> & Hlen & Hnew). simpl.
    split; [assumption|]. intros x Hx. destruct (Hnew x Hx) as (Hs & h & Hh & Hin).
    split; [assumption|]. apply othersFrom_In in Hh as (j & Hj & Hn).
    exists j, h. auto.
  - intros [= <-]. split; [simpl; lia | intros x []].
Qed.

End Pool.

(** X6: when [startSession] returns and the shuffle is a permutation, every
    item of the pool is a non-static fragment, either of the heading of the
    session or of another heading of the document (a decoy); the session
    draws at most [intruders] decoys (1, 3 or 6), so the pool has at most
    that many items more than the heading has playable fragments; and with
    a single heading in the document there is no decoy at all. *)
Theorem pool_sound (R : Random) (index : nat) (state : GameState)
    (heading : GameHeading) :
  nth_error (headings state) index = Some heading ->
  snd (startSession R index state) = Returns tt ->
  (forall l, Permutation (shuffled R l) l) ->
  (forall p, In p (poolItems (fst (startSession R index state))) ->
     isStatic p = false
     /\ (In p (items heading)
         \/ exists j h, j <> index /\ nth_error (headings state) j = Some h
                        /\ In p (items h)))
  /\ List.length (poolItems (fst (startSession R index state)))
     <= List.length (filter (fun it => negb (isStatic it)) (items heading))
        + intruders (difficulty state)
  /\ (headings state = [heading] ->
      forall p, In p (poolItems (fst (startSession R index state))) ->
                In p (items heading)).
Proof.
  intros Hh Hret Hperm.
  destruct (@startSession_pool R index state heading Hh Hret) as (intr & Hintr & ->).
  destruct (@intruders_spec R index state heading intr Hintr) as [Hlen Hdecoy].
  split; [|split].
  - intros p Hp. apply (Permutation_in _ (Hperm _)) in Hp.
    apply in_app_or in Hp as [Hp|Hp].
    + apply filter_In in Hp as [Hin Hf]. apply andb_true_iff in Hf as [Hs _].
      split; [now destruct (isStatic p) | now left].
    + destruct (Hdecoy p Hp) as [Hs Hother]. auto.
  - rewrite (Permutation_length (Hperm _)), length_app.
    apply Nat.add_le_mono; [|assumption].
    clear. induction (items heading) as [|x l IH]; simpl; [lia|].
    destruct (isStatic x); simpl; [assumption|].
    destruct (negb _); simpl; lia.
  - intros Hone p Hp. apply (Permutation_in _ (Hperm _)) in Hp.
    apply in_app_or in Hp as [Hp|Hp]; [now apply filter_In in Hp|].
    exfalso. revert Hintr. unfold intrudersOf.
    destruct (@sessionSlots_headings R index state heading) as [-> _].
    rewrite Hone in *. rewrite (@othersFrom_single index heading Hh). simpl.
    intros [= <-]. destruct Hp.
Qed.

Lemma pool_sound_witness :
  (forall p, In p (poolItems (fst (startSession halfRandom 0 sampleGame))) ->
     isStatic p = false
     /\ (In p (items sampleA)
         \/ exists j h, j <> 0 /\ nth_error (headings sampleGame) j = Some h
                        /\ In p (items h)))
  /\ List.length (poolItems (fst (startSession halfRandom 0 sampleGame)))
     <= List.length (filter (fun it => negb (isStatic it)) (items sampleA))
        + intruders (difficulty sampleGame)
  /\ (headings sampleGame = [sampleA] ->
      forall p, In p (poolItems (fst (startSession halfRandom 0 sampleGame))) ->
                In p (items sampleA)).
Proof.
  assert (Hperm : forall l, Permutation (shuffled halfRandom l) l)
    by (intro l; apply Permutation_refl).
  assert (Hret : snd (startSession halfRandom 0 sampleGame) = Returns tt)
    by (vm_compute; reflexivity).
  exact (@pool_sound halfRandom 0 sampleGame sampleA eq_refl Hret Hperm).
Defined.

(** When [startSession] returns, a playable fragment is prefilled in its own
    slot or waits in the pool. *)
Lemma unplaced_in_pool (R : Random) (index : nat) (state : GameState)
    (heading : GameHeading) :
  nth_error (headings state) index = Some heading ->
  snd (startSession R index state) = Returns tt ->
  (forall l, Permutation (shuffled R l) l) ->
  NoDup (List.map id (items heading)) ->
  forall idx item,
    nth_error (items heading) idx = Some item -> isStatic item = false ->
    nth_error (slots (fst (startSession R index state))) idx = Some (Some item)
    \/ (nth_error (slots (fst (startSession R index state))) idx = Some None
        /\ In item (poolItems (fst (startSession R index state)))).
Proof.
  intros Hh Hret Hperm Hnd idx item Hit Hst.
  destruct (@startSession_pool R index state heading Hh Hret) as (intr & _ & ->).
  destruct (@startSession_session R index state heading Hh) as (-> & _ & _).
  destruct (@sessionSlots_slots R index heading state) as [Hlen Hslot].
  set (s1 := fst (sessionSlots R index heading state)) in *.
  rewrite (Hslot idx item Hit), Hst. simpl.
  destruct (setHas Nat.eqb (prefilledIndices s1) idx) eqn:Ep; [now left|].
  right. split; [reflexivity|].
  apply (Permutation_in _ (Permutation_sym (Hperm _))), in_or_app. left.
  apply filter_In. split; [eapply nth_error_In, Hit|].
  rewrite Hst. simpl.
  destruct (setHas jseq _ (id item)) eqn:E; [|reflexivity]. exfalso.
  apply setHas_jseq, newSet_jseq_In, idsInSlots_In in E as (idx' & it' & Hs' & Hid).
  assert (Hlt : idx' < List.length (items heading)).
  { rewrite <- Hlen. apply nth_error_Some. congruence. }
  destruct (nth_error (items heading) idx') as [orig|] eqn:Eo;
    [|apply nth_error_None in Eo; lia].
  rewrite (Hslot idx' orig Eo) in Hs'.
  destruct (isStatic orig || setHas Nat.eqb (prefilledIndices s1) idx') eqn:Ec;
    [|discriminate].
  injection Hs' as <-.
  assert (idx' = idx).
  { apply (proj1 (NoDup_nth_error _) Hnd).
    - now rewrite length_map.
    - rewrite !nth_error_map, Eo, Hit. simpl. now rewrite Hid. }
  subst idx'. assert (orig = item) by congruence. subst orig.
  rewrite Hst, Ep in Ec. discriminate.
Qed.

(** X7: when [startSession] returns, the shuffle is a permutation and the
    fragments of the heading have pairwise distinct ids, no fragment is
    lost: a static fragment is in its own slot, and a playable one is either
    prefilled in its own slot or in the pool, with its slot empty. *)
Theorem pool_complete (R : Random) (index : nat) (state : GameState)
    (heading : GameHeading) :
  nth_error (headings state) index = Some heading ->
  snd (startSession R index state) = Returns tt ->
  (forall l, Permutation (shuffled R l) l) ->
  NoDup (List.map id (items heading)) ->
  forall idx item,
    nth_error (items heading) idx = Some item ->
    (isStatic item = true ->
     nth_error (slots (fst (startSession R index state))) idx = Some (Some item))
    /\ (isStatic item = false ->
        nth_error (slots (fst (startSession R index state))) idx = Some (Some item)
        \/ (nth_error (slots (fst (startSession R index state))) idx = Some None
            /\ In item (poolItems (fst (startSession R index state))))).
Proof.
  intros Hh Hret Hperm Hnd idx item Hit. split; intro Hst.
  - destruct (@startSession_session R index state heading Hh) as (-> & _ & _).
    destruct (@sessionSlots_slots R index heading state) as [_ Hslot].
    now rewrite (Hslot idx item Hit), Hst.
  - now apply (@unplaced_in_pool R index state heading).
Qed.

Lemma pool_complete_witness :
  (isStatic sampleX = true ->
   nth_error (slots (fst (startSession halfRandom 0 sampleGame))) 0 = Some (Some sampleX))
  /\ (isStatic sampleX = false ->
      nth_error (slots (fst (startSession halfRandom 0 sampleGame))) 0 = Some (Some sampleX)
      \/ (nth_error (slots (fst (startSession halfRandom 0 sampleGame))) 0 = Some None
          /\ In sampleX (poolItems (fst (startSession halfRandom 0 sampleGame))))).
Proof.
  assert (Hperm : forall l, Permutation (shuffled halfRandom l) l)
    by (intro l; apply Permutation_refl).
  assert (Hret : snd (startSession halfRandom 0 sampleGame) = Returns tt)
    by (vm_compute; reflexivity).
  assert (Hnd : NoDup (List.map id (items sampleA))).
  { repeat constructor; simpl; intuition discriminate. }
  exact (@pool_complete halfRandom 0 sampleGame sampleA eq_refl Hret Hperm Hnd
           0 sampleX eq_refl).
Defined.

(** ** What the events leave in place *)

Lemma laterHeading_refl (h : GameHeading) : laterHeading h h.
Proof. repeat split; auto. Qed.

Lemma laterHeading_trans (h1 h2 h3 : GameHeading) :
  laterHeading h1 h2 -> laterHeading h2 h3 -> laterHeading h1 h3.
Proof.
  intros (T1 & I1 & R1) (T2 & I2 & R2). repeat split; try congruence; auto.
Qed.

Lemma laterHeadings_refl (hs : list GameHeading) : Forall2 laterHeading hs hs.
Proof. induction hs; constructor; auto using laterHeading_refl. Qed.

Lemma laterHeadings_setNth (hs hs' : list GameHeading) :
  Forall2 laterHeading hs hs' ->
  forall a h h', nth_error hs' a = Some h -> laterHeading h h' ->
                 Forall2 laterHeading hs (setNth hs' a h').
Proof.
  induction 1 as [|x y l l' Hxy Hl IH]; intros [|a] h h' Hn Hh; simpl in *;
    try discriminate.
  - injection Hn as ->. constructor; [|assumption].
    eapply laterHeading_trans; eassumption.
  - constructor; [assumption|]. eapply IH; eassumption.
Qed.

Lemma startSession_frame (R : Random) (index : nat) (st : GameState) :
  fileName (fst (startSession R index st)) = fileName st
  /\ filePath (fst (startSession R index st)) = filePath st
  /\ headings (fst (startSession R index st)) = headings st
  /\ difficulty (fst (startSession R index st)) = difficulty st.
Proof.
  unfold startSession. destruct (nth_error (headings st) index) as [h|]; [|auto].
  unfold sessionSlots. destruct (weigh _ _ _ _) as [ws k].
  destruct (intrudersOf _ _ _ _); simpl; auto.
Qed.

Lemma startSession_shape (R : Random) (index : nat) (st : GameState) (h : GameHeading) :
  nth_error (headings st) index = Some h ->
  sessionShape (fst (startSession R index st)).
Proof.
  intros Hh a Ha.
  destruct (@startSession_session R index st h Hh) as (Hs & Hp & Hact).
  destruct (@sessionSlots_slots R index h st) as [Hlen Hslot].
  destruct (startSession_frame R index st) as (_ & _ & Hhs & _).
  rewrite Hact in Ha. injection Ha as <-. exists h. rewrite Hhs, Hs.
  split; [assumption|]. split; [assumption|].
  intros idx item Hit Hl. rewrite (Hslot idx item Hit).
  unfold lockedAt in Hl. rewrite Hp in Hl. now rewrite Hl.
Qed.

Lemma checkWinCondition_later (s : list (option GameItem)) (h h' : GameHeading) (b : bool) :
  checkWinCondition s h = Returns (h', b) -> laterHeading h h'.
Proof.
  unfold checkWinCondition. destruct (isPerfect s h) as [[|]|]; intros [= <- <-].
  - repeat split.
  - apply laterHeading_refl.
Qed.

Lemma setNth_nth_error (A : Type) (l : list A) (v : A) :
  forall idx, idx < List.length l -> nth_error (setNth l idx v) idx = Some v.
Proof. intros idx H. now apply setNth_same. Qed.

Lemma nth_error_setNth_same (A : Type) (l : list A) (x : A) :
  forall a, nth_error l a = Some x ->
            forall v, nth_error (setNth l a v) a = Some v.
Proof.
  intros a Ha v. apply setNth_same. apply nth_error_Some. congruence.
Qed.

(** One event keeps the document and the shape of the session. *)
Lemma handle_invariant (g : GameState) (e : Event) (v v' : View) (st : GameState) :
  handle e v = Some v' -> state v = Some st ->
  laterGame g st -> sessionShape st ->
  exists st', state v' = Some st' /\ laterGame g st' /\ sessionShape st'.
Proof.
  intros H Hst (Hfn & Hfp & Hhs) Hshape. unfold handle in H. rewrite Hst in H.
  destruct (activeHeadingIndex st) as [a|] eqn:Ea.
  - destruct (Hshape a Ea) as (heading & Hh & Hlen & Hlock).
    destruct e as [d|index R| |val|k|idx|idx|]; try discriminate.
    + (* Back *)
      injection H as <-. eexists. split; [reflexivity|].
      split; [now repeat split|]. intros a' Ha'. discriminate.
    + (* the slider *)
      destruct (_ && _); [|discriminate]. injection H as <-.
      eexists. split; [reflexivity|]. split; [now repeat split|].
      intros a' Ha'. simpl in *. rewrite Ea in Ha'. injection Ha' as <-.
      exists heading. auto.
    + (* a pill *)
      destruct (nth_error (currentPool st) k); [|discriminate]. injection H as <-.
      exists st. split; [reflexivity|]. split; [now repeat split | assumption].
    + (* a drop zone *)
      rewrite Hh in H.
      destruct (nth_error (slots st) idx) as [[it|]|] eqn:Es; try discriminate.
      destruct (rowShown st heading idx); [|discriminate].
      destruct (selectedPill v) as [pill|];
        [|injection H as <-; exists st; split; [assumption|];
          split; [now repeat split | assumption]].
      assert (Hkeep : forall p item, nth_error (items heading) p = Some item ->
                        lockedAt st item p = true ->
                        nth_error (setNth (slots st) idx (Some pill)) p = Some (Some item)).
      { intros p item Hit Hl. destruct (Nat.eq_dec p idx) as [->|Hne].
        - rewrite (Hlock idx item Hit Hl) in Es. discriminate.
        - rewrite setNth_other by assumption. now apply Hlock. }
      simpl in H.
      destruct (checkWinCondition _ heading) as [[heading' scheduled]|] eqn:Ew.
      * injection H as <-. apply checkWinCondition_later in Ew.
        eexists. split; [reflexivity|]. split.
        -- repeat split; simpl; auto.
           eapply laterHeadings_setNth; eassumption.
        -- intros a' Ha'. simpl in *. rewrite Ea in Ha'. injection Ha' as <-.
           exists heading'. rewrite (nth_error_setNth_same _ _ Hh).
           destruct Ew as (_ & Hi & _). rewrite Hi, setNth_length.
           split; [reflexivity|]. split; [assumption|]. exact Hkeep.
      * injection H as <-. eexists. split; [reflexivity|].
        split; [now repeat split|].
        intros a' Ha'. simpl in *. rewrite Ea in Ha'. injection Ha' as <-.
        exists heading. rewrite setNth_length. auto.
    + (* a fragment in a slot *)
      rewrite Hh in H.
      destruct (nth_error (slots st) idx) as [[itemInSlot|]|] eqn:Es; try discriminate.
      destruct (rowShown st heading idx); [|discriminate]. simpl in H.
      destruct (setHas Nat.eqb (prefilledIndices st) idx || isStatic itemInSlot) eqn:El;
        [discriminate|].
      injection H as <-. eexists. split; [reflexivity|].
      split; [now repeat split|].
      intros a' Ha'. simpl in *. rewrite Ea in Ha'. injection Ha' as <-.
      exists heading. rewrite setNth_length.
      split; [assumption|]. split; [assumption|].
      intros p item Hit Hl. destruct (Nat.eq_dec p idx) as [->|Hne].
      * exfalso. rewrite (Hlock idx item Hit Hl) in Es. injection Es as <-.
        unfold lockedAt in Hl. simpl in Hl. rewrite orb_comm in Hl. congruence.
      * rewrite setNth_other by assumption. now apply Hlock.
    + (* the timer *)
      destruct (pendingTimers v); [discriminate|]. injection H as <-.
      eexists. split; [reflexivity|]. split; [now repeat split|].
      intros a' Ha'. discriminate.
  - destruct e as [d|index R| |val|k|idx|idx|]; try discriminate.
    + (* a difficulty button *)
      injection H as <-. eexists. split; [reflexivity|].
      split; [now repeat split|]. intros a' Ha'. simpl in Ha'. congruence.
    + (* a card *)
      destruct (nth_error (headings st) index) as [h|] eqn:Eh; [|discriminate].
      destruct (isRestored h); [discriminate|]. injection H as <-.
      eexists. split; [reflexivity|].
      destruct (startSession_frame R index st) as (F1 & F2 & F3 & _).
      split; [|eapply startSession_shape; eassumption].
      repeat split; congruence.
    + (* the timer *)
      destruct (pendingTimers v); [discriminate|]. injection H as <-.
      eexists. split; [reflexivity|]. split; [now repeat split|].
      intros a' Ha'. discriminate.
Qed.

Lemma reachable_invariant (g : GameState) (v : View) :
  activeHeadingIndex g = None ->
  reachable (openView g) v ->
  exists st, state v = Some st /\ laterGame g st /\ sessionShape st.
Proof.
  intros Hg Hr. induction Hr as [|v v' e Hr (st & Hst & Hl & Hs) H].
  - exists g. split; [reflexivity|]. split.
    + repeat split. apply laterHeadings_refl.
    + intros a Ha. congruence.
  - eapply handle_invariant; eassumption.
Qed.

(** X8: whatever the player does after a game is opened in the lobby, the
    document stays as it was parsed: the file name and path, and for each
    heading its title and its fragments; and a heading that is restored
    stays restored. *)
Theorem document_preserved (g : GameState) (v : View) (st : GameState) :
  activeHeadingIndex g = None ->
  reachable (openView g) v -> state v = Some st ->
  fileName st = fileName g /\ filePath st = filePath g
  /\ List.length (headings st) = List.length (headings g)
  /\ forall j h, nth_error (headings g) j = Some h ->
       exists h', nth_error (headings st) j = Some h'
                  /\ title h' = title h /\ items h' = items h
                  /\ (isRestored h = true -> isRestored h' = true).
Proof.
  intros Hg Hr Hst.
  destruct (reachable_invariant Hg Hr) as (st' & Hst' & (Hfn & Hfp & Hhs) & _).
  assert (st' = st) by congruence. subst st'.
  split; [assumption|]. split; [assumption|].
  split; [symmetry; eapply Forall2_length; eassumption|].
  clear - Hhs. induction Hhs as [|x y l l' Hxy Hl IH]; intros [|j] h Hn; simpl in *;
    try discriminate.
  - injection Hn as <-. exists y. destruct Hxy as (T & I & R). auto.
  - now apply IH.
Qed.

Lemma document_preserved_witness :
  fileName staleState = fileName sampleGame
  /\ filePath staleState = filePath sampleGame
  /\ List.length (headings staleState) = List.length (headings sampleGame)
  /\ forall j h, nth_error (headings sampleGame) j = Some h ->
       exists h', nth_error (headings staleState) j = Some h'
                  /\ title h' = title h /\ items h' = items h
                  /\ (isRestored h = true -> isRestored h' = true).
Proof.
  assert (Hrun : run staleTrace (openView sampleGame) = Some staleView)
    by (vm_compute; reflexivity).
  exact (@document_preserved sampleGame staleView staleState eq_refl
           (run_reachable staleTrace (reachable_start _) Hrun) eq_refl).
Defined.

(** X9: during a session reached by any sequence of events there is one slot
    for each fragment of the active heading, and a locked position (where a
    static fragment was parsed, or one that was prefilled) still holds the
    fragment parsed there: no click empties or overwrites it. *)
Theorem locked_slots_kept (g : GameState) (v : View) (st : GameState)
    (a : nat) :
  activeHeadingIndex g = None ->
  reachable (openView g) v -> state v = Some st ->
  activeHeadingIndex st = Some a ->
  exists heading,
    nth_error (headings st) a = Some heading
    /\ List.length (slots st) = List.length (items heading)
    /\ forall idx item, nth_error (items heading) idx = Some item ->
         isStatic item || setHas Nat.eqb (prefilledIndices st) idx = true ->
         nth_error (slots st) idx = Some (Some item).
Proof.
  intros Hg Hr Hst Ha.
  destruct (reachable_invariant Hg Hr) as (st' & Hst' & _ & Hshape).
  assert (st' = st) by congruence. subst st'.
  exact (Hshape a Ha).
Qed.

Lemma locked_slots_kept_witness :
  exists heading,
    nth_error (headings staleState) 0 = Some heading
    /\ List.length (slots staleState) = List.length (items heading)
    /\ forall idx item, nth_error (items heading) idx = Some item ->
         isStatic item || setHas Nat.eqb (prefilledIndices staleState) idx = true ->
         nth_error (slots staleState) idx = Some (Some item).
Proof.
  assert (Hrun : run staleTrace (openView sampleGame) = Some staleView)
    by (vm_compute; reflexivity).
  exact (@locked_slots_kept sampleGame staleView staleState 0 eq_refl
           (run_reachable staleTrace (reachable_start _) Hrun) eq_refl eq_refl).
Defined.



(** ** A session leaves something to place *)

Lemma floorMul_lt (n : nat) (m k : Z) :
  (2 <= k)%Z -> (0 <= m < 3 * 2 ^ (k - 2))%Z -> 0 < n -> (Z.of_nat n < 2 ^ 32)%Z ->
  (0 <= floorMul n m k < Z.of_nat n)%Z.
Proof.
  intros Hk Hm H0 Hn. unfold floorMul.
  assert (H2k : (0 < 2 ^ (k - 2))%Z) by (apply Z.pow_pos_nonneg; lia).
  assert (E : (2 ^ k = 4 * 2 ^ (k - 2))%Z).
  { replace k with (2 + (k - 2))%Z at 1 by lia. rewrite Z.pow_add_r by lia. reflexivity. }
  assert (H32 : (2 ^ 32 < 2 ^ 53)%Z) by reflexivity.
  assert (H232 : (3 * 2 ^ 32 < 2 ^ 53)%Z) by reflexivity.
  assert (Hk' : (0 <= k - 2)%Z) by lia.
  assert (Hn' : (0 <= 3 * Z.of_nat n < 2 ^ 53)%Z) by lia.
  assert (Hp : (0 <= Z.of_nat n * m)%Z) by nia.
  assert (Hlt : (Z.of_nat n * m < 3 * Z.of_nat n * 2 ^ (k - 2) \/ Z.of_nat n * m = 0)%Z)
    by (left; nia).
  destruct (round53_bound Hk' Hn' Hp Hlt) as [[Hq0 Hq1] Hs].
  destruct (round53 (Z.of_nat n * m)) as [q s]. cbn [fst snd] in *.
  rewrite Z.shiftl_mul_pow2, Z.shiftr_div_pow2 by lia. split.
  - apply Z.div_pos; lia.
  - apply Z.div_lt_upper_bound; [lia|]. rewrite E.
    assert (Hpos : (0 < Z.of_nat n * 2 ^ (k - 2))%Z) by (apply Z.mul_pos_pos; lia).
    lia.
Qed.

(** The prefill count is below the number of playable fragments, if there is
    one. *)
Lemma numToPrefill_lt (n : nat) (d : Difficulty) :
  0 < n -> (Z.of_nat n < 2 ^ 32)%Z -> numToPrefill n d < n.
Proof.
  intros H0 Hn. unfold numToPrefill.
  destruct (prefillPercentBits d) as [m k] eqn:E.
  assert (H : (0 <= floorMul n m k < Z.of_nat n)%Z).
  { destruct d; injection E as <- <-; apply floorMul_lt; try assumption; try lia;
      (split; [discriminate | reflexivity]). }
  lia.
Qed.

Lemma one_outside (l ps : list nat) :
  NoDup l -> List.length ps < List.length l -> exists x, In x l /\ ~ In x ps.
Proof.
  intros Hnd Hlen.
  assert (H : (forall x, In x l -> In x ps) \/ exists x, In x l /\ ~ In x ps).
  { clear. induction l as [|y l [IH|(x & Hx & Hn)]].
    - left. intros x [].
    - destruct (in_dec Nat.eq_dec y ps) as [Hy|Hy].
      + left. intros x [<-|Hx]; auto.
      + right. exists y. split; [now left | assumption].
    - right. exists x. split; [now right | assumption]. }
  destruct H as [H|H]; [|assumption].
  pose proof (NoDup_incl_length Hnd H). lia.
Qed.

Lemma filter_nonempty (A : Type) (p : A -> bool) (l : list A) (x : A) :
  In x l -> p x = true -> 0 < List.length (filter p l).
Proof.
  intros Hin Hp. assert (H : In x (filter p l)) by (apply filter_In; auto).
  destruct (filter p l); [destruct H | simpl; lia].
Qed.

(** After [startSession] some slot of a playable fragment is empty. *)
Lemma startSession_empty_slot (R : Random) (index : nat) (state : GameState)
    (heading : GameHeading) (item : GameItem) :
  nth_error (headings state) index = Some heading ->
  (Z.of_nat (List.length (items heading)) < 2 ^ 32)%Z ->
  In item (items heading) -> isStatic item = false ->
  exists idx it,
    nth_error (items heading) idx = Some it /\ isStatic it = false
    /\ setHas Nat.eqb (prefilledIndices (fst (startSession R index state))) idx = false
    /\ nth_error (slots (fst (startSession R index state))) idx = Some None.
Proof.
  intros Hh Hlen Hin Hst.
  destruct (@startSession_session R index state heading Hh) as (-> & -> & _).
  destruct (@sessionSlots_prefilled R index heading state Hlen) as (Hnd & Hps & Hn & _).
  destruct (@sessionSlots_slots R index heading state) as [_ Hslot].
  set (s1 := fst (sessionSlots R index heading state)) in *.
  set (p := fun it : GameItem => negb (isStatic it)) in *.
  assert (Hpos : 0 < List.length (filter p (items heading))).
  { apply (@filter_nonempty _ p _ item Hin). unfold p. now rewrite Hst. }
  assert (Hfl : List.length (filter p (items heading)) <= List.length (items heading))
    by apply filter_length_le.
  assert (Hlt : List.length (prefilledIndices s1)
                < List.length (indicesWhere p (items heading))).
  { unfold indicesWhere. rewrite indicesFrom_length, Hn.
    apply numToPrefill_lt; [assumption | lia]. }
  destruct (@one_outside (indicesWhere p (items heading)) (prefilledIndices s1)
              (indicesFrom_NoDup p (items heading) 0) Hlt) as (idx & Hidx & Hout).
  apply indicesWhere_spec in Hidx as (it & Hit & Hp).
  assert (Hs : isStatic it = false) by (unfold p in Hp; now destruct (isStatic it)).
  assert (Hnot : setHas Nat.eqb (prefilledIndices s1) idx = false).
  { destruct (setHas Nat.eqb (prefilledIndices s1) idx) eqn:E; [|reflexivity].
    apply setHas_In in E. contradiction. }
  exists idx, it. rewrite (Hslot idx it Hit), Hs, Hnot. auto.
Qed.

(** X11: a session never starts finished.  When the heading has a playable
    fragment (and fewer than 2 ^ 32 fragments), [startSession] prefills
    fewer playable fragments than there are, at any difficulty, and leaves
    the slot of at least one of them empty. *)
Theorem session_leaves_work (R : Random) (index : nat) (state : GameState)
    (heading : GameHeading) (item : GameItem) :
  nth_error (headings state) index = Some heading ->
  (Z.of_nat (List.length (items heading)) < 2 ^ 32)%Z ->
  In item (items heading) -> isStatic item = false ->
  List.length (prefilledIndices (fst (startSession R index state)))
  < List.length (filter (fun it => negb (isStatic it)) (items heading))
  /\ exists idx it,
       nth_error (items heading) idx = Some it /\ isStatic it = false
       /\ nth_error (slots (fst (startSession R index state))) idx = Some None.
Proof.
  intros Hh Hlen Hin Hst. split.
  - destruct (@startSession_session R index state heading Hh) as (_ & -> & _).
    destruct (@sessionSlots_prefilled R index heading state Hlen) as (_ & _ & -> & _).
    apply numToPrefill_lt.
    + apply (@filter_nonempty _ _ _ item Hin). now rewrite Hst.
    + pose proof (filter_length_le (fun it => negb (isStatic it)) (items heading)). lia.
  - destruct (@startSession_empty_slot R index state heading item Hh Hlen Hin Hst)
      as (idx & it & H1 & H2 & _ & H3).
    eauto.
Qed.

Lemma session_leaves_work_witness :
  List.length (prefilledIndices (fst (startSession halfRandom 0 sampleGame)))
  < List.length (filter (fun it => negb (isStatic it)) (items sampleA))
  /\ exists idx it,
       nth_error (items sampleA) idx = Some it /\ isStatic it = false
       /\ nth_error (slots (fst (startSession halfRandom 0 sampleGame))) idx = Some None.
Proof.
  assert (Hlen : (Z.of_nat (List.length (items sampleA)) < 2 ^ 32)%Z)
    by (vm_compute; reflexivity).
  assert (Hin : In sampleX (items sampleA)) by (now left).
  exact (@session_leaves_work halfRandom 0 sampleGame sampleA sampleX eq_refl Hlen Hin
           eq_refl).
Defined.

(** ** Winning a session *)

Lemma run_app (es1 es2 : list Event) :
  forall v v1, run es1 v = Some v1 -> run (es1 ++ es2) v = run es2 v1.
Proof.
  induction es1 as [|e es1 IH]; intros v v1 H; simpl in *.
  - now injection H as <-.
  - destruct (handle e v) as [v'|]; [now apply IH | discriminate].
Qed.

Lemma setNth_id (A : Type) (l : list A) :
  forall a x, nth_error l a = Some x -> setNth l a x = l.
Proof.
  induction l as [|y l IH]; intros [|a] x H; simpl in *; try discriminate.
  - now injection H as ->.
  - f_equal. now apply IH.
Qed.

Lemma emptySlots_fill (s : list (option GameItem)) (item : GameItem) :
  forall idx, nth_error s idx = Some None ->
              emptySlots s = S (emptySlots (setNth s idx (Some item))).
Proof.
  unfold emptySlots.
  induction s as [|x s IH]; intros [|idx] H; simpl in *; try discriminate.
  - injection H as ->. reflexivity.
  - destruct x; simpl; [now apply IH | f_equal; now apply IH].
Qed.

Lemma emptySlots_some (s : list (option GameItem)) (n : nat) :
  emptySlots s = S n -> exists idx, nth_error s idx = Some None.
Proof.
  unfold emptySlots. induction s as [|[x|] s IH]; simpl; intro H.
  - discriminate.
  - destruct (IH H) as [idx Hidx]. now exists (S idx).
  - now exists 0.
Qed.

Lemma emptySlots_none (s : list (option GameItem)) :
  emptySlots s = 0 -> forall idx, nth_error s idx <> Some None.
Proof.
  unfold emptySlots. induction s as [|[x|] s IH]; simpl; intros H [|idx] Hn;
    try discriminate.
  now apply (IH H idx).
Qed.

Lemma emptySlots_pos (s : list (option GameItem)) (idx : nat) :
  nth_error s idx = Some None -> exists n, emptySlots s = S n.
Proof.
  intro H. destruct (emptySlots s) as [|n] eqn:E; [|now exists n].
  exfalso. exact (@emptySlots_none s E idx H).
Qed.

Section Winning.

Variable heading : GameHeading.
Variable a : nat.
Hypothesis Hplaced :
  forall idx item, nth_error (items heading) idx = Some item ->
                   originalIndex item = idx /\ originalHeading item = title heading.
Hypothesis Hnodup : NoDup (List.map id (items heading)).

(** An empty slot is never counted correct. *)
Lemma empty_not_perfect (s : list (option GameItem)) (idx : nat) :
  List.length s = List.length (items heading) ->
  nth_error s idx = Some None ->
  isPerfect s heading = Returns false.
Proof.
  intros Hlen Hs.
  destruct (@isPerfect_returns s heading) as [[|] Hb]; [lia | | assumption].
  exfalso. pose proof (proj1 (isPerfect_true s heading) Hb idx) as H.
  unfold slotAt in H. rewrite Hs in H.
  assert (Hlt : idx < List.length s) by (apply nth_error_Some; congruence).
  specialize (H Hlt). discriminate.
Qed.

(** With every fragment in its own slot the slots are perfect. *)
Lemma own_perfect (s : list (option GameItem)) :
  List.length s = List.length (items heading) ->
  (forall idx item, nth_error (items heading) idx = Some item ->
                    nth_error s idx = Some (Some item) \/ nth_error s idx = Some None) ->
  emptySlots s = 0 ->
  isPerfect s heading = Returns true.
Proof.
  intros Hlen Hown Hfull. apply isPerfect_true. intros i Hi.
  destruct (nth_error (items heading) i) as [item|] eqn:Ei;
    [|apply nth_error_None in Ei; lia].
  unfold slotAt.
  destruct (Hown i item Ei) as [Hs|Hs]; [|exfalso; exact (@emptySlots_none s Hfull i Hs)].
  rewrite Hs. unfold isSlotCorrect.
  destruct (Hplaced i Ei) as [-> ->]. now rewrite Nat.eqb_refl, jseq_refl.
Qed.

(** The row of an empty slot is shown on its own. *)
Lemma rowShown_empty (st : GameState) (idx : nat) (item : GameItem) :
  nth_error (items heading) idx = Some item ->
  nth_error (slots st) idx = Some None ->
  rowShown st heading idx = true.
Proof.
  intros Hit Hs. unfold rowShown. rewrite Hit.
  destruct (blockId item) as [[|c b]|] eqn:Eb; try reflexivity.
  destruct (isBlockFullyRestored (c :: b) heading (slots st)) as [[|]|] eqn:E;
    try reflexivity.
  exfalso. pose proof (proj1 (isBlockFullyRestored_true _ _ _) E idx item Hit Eb) as H.
  unfold slotAt in H. rewrite Hs in H. discriminate.
Qed.

(** The fragment of an empty slot is among the pills shown. *)
Lemma own_in_currentPool (st : GameState) (idx : nat) (item : GameItem) :
  inPlay a heading st ->
  nth_error (items heading) idx = Some item ->
  nth_error (slots st) idx = Some None ->
  In item (currentPool st).
Proof.
  intros (_ & _ & Hlen & Hown) Hit Hs. unfold currentPool. apply filter_In.
  destruct (Hown idx item Hit) as [H|[_ Hpool]]; [congruence|].
  split; [assumption|].
  destruct (setHas jseq _ (id item)) eqn:E; [|reflexivity]. exfalso.
  apply setHas_jseq, newSet_jseq_In, idsInSlots_In in E as (idx' & it' & Hs' & Hid).
  assert (Hlt : idx' < List.length (items heading)).
  { rewrite <- Hlen. apply nth_error_Some. congruence. }
  destruct (nth_error (items heading) idx') as [orig|] eqn:Eo;
    [|apply nth_error_None in Eo; lia].
  destruct (Hown idx' orig Eo) as [H|[H _]]; [|congruence].
  assert (orig = it') by congruence. subst orig.
  assert (idx' = idx).
  { apply (proj1 (NoDup_nth_error _) Hnodup).
    - now rewrite length_map.
    - rewrite !nth_error_map, Eo, Hit. simpl. now rewrite Hid. }
  subst idx'. congruence.
Qed.

(** Any pill shown can be selected, with one click or two. *)
Lemma select_pill (st : GameState) (sel : option GameItem) (t : nat) (item : GameItem) :
  activeHeadingIndex st = Some a ->
  In item (currentPool st) ->
  exists es, forallb isPlayClick es = true
             /\ run es (mkView (Some st) sel t) = Some (mkView (Some st) (Some item) t).
Proof.
  intros Ha Hin. apply In_nth_error in Hin as [k Hk].
  assert (Hnone : handle (ClickPill k) (mkView (Some st) None t)
                  = Some (mkView (Some st) (Some item) t)).
  { unfold handle. simpl. now rewrite Ha, Hk. }
  destruct sel as [s|];
    [|exists [ClickPill k]; split; [reflexivity|]; simpl; now rewrite Hnone].
  destruct (jseq (id s) (id item)) eqn:E.
  - exists [ClickPill k; ClickPill k].
    assert (H1 : handle (ClickPill k) (mkView (Some st) (Some s) t)
                 = Some (mkView (Some st) None t)).
    { unfold handle. simpl. now rewrite Ha, Hk, E. }
    split; [reflexivity|]. simpl. now rewrite H1, Hnone.
  - exists [ClickPill k]. 
    assert (H1 : handle (ClickPill k) (mkView (Some st) (Some s) t)
                 = Some (mkView (Some st) (Some item) t)).
    { unfold handle. simpl. now rewrite Ha, Hk, E. }
    split; [reflexivity|]. simpl. now rewrite H1.
Qed.

(** Placing the fragment of an empty slot: the last one wins the heading,
    any other leaves a session with one empty slot less. *)
Lemma place_own (st : GameState) (t : nat) (idx : nat) (item : GameItem) :
  inPlay a heading st ->
  nth_error (items heading) idx = Some item ->
  nth_error (slots st) idx = Some None ->
  exists v', handle (ClickDropZone idx) (mkView (Some st) (Some item) t) = Some v'
             /\ ((emptySlots (slots st) = 1 /\ wonView a (S t) v')
                 \/ exists st' n, v' = mkView (Some st') None t /\ inPlay a heading st'
                                  /\ emptySlots (slots st') = S n
                                  /\ emptySlots (slots st) = S (S n)).
Proof.
  intros Hplay Hit Hs. pose proof Hplay as (Ha & Hh & Hlen & Hown).
  pose proof (@emptySlots_fill (slots st) item idx Hs) as Hcount.
  set (s' := setNth (slots st) idx (Some item)) in *.
  assert (Hlen' : List.length s' = List.length (items heading))
    by (unfold s'; now rewrite setNth_length).
  assert (Hidx : idx < List.length (slots st)) by (apply nth_error_Some; congruence).
  assert (Hown' : forall p it, nth_error (items heading) p = Some it ->
                    nth_error s' p = Some (Some it)
                    \/ (nth_error s' p = Some None /\ In it (poolItems st))).
  { intros p it Hp. unfold s'. destruct (Nat.eq_dec p idx) as [->|Hne].
    - left. rewrite setNth_same by assumption. congruence.
    - rewrite setNth_other by assumption. now apply Hown. }
  unfold handle. cbn [state selectedPill pendingTimers]. rewrite Ha, Hh, Hs.
  rewrite (@rowShown_empty st idx item Hit Hs). cbn [slots setSlots headings].
  fold s'. unfold checkWinCondition.
  assert (Hcases : emptySlots s' = 0 \/ exists n, emptySlots s' = S n)
    by (destruct (emptySlots s'); eauto).
  destruct Hcases as [En|[n En]].
  - rewrite own_perfect; [| assumption | | assumption].
    + eexists. split; [reflexivity|]. left. split; [now rewrite Hcount, En|].
      eexists. exists (setRestored heading). cbn.
      split; [reflexivity|]. split; [|auto].
      eapply nth_error_setNth_same; eassumption.
    + intros p it Hp. destruct (Hown' p it Hp) as [H|[H _]]; auto.
  - destruct (@emptySlots_some s' n En) as [idx' Hidx'].
    rewrite (@empty_not_perfect s' idx' Hlen' Hidx').
    eexists. split; [reflexivity|]. right. eexists. exists n. split; [reflexivity|].
    split; [|split; [exact En | now rewrite Hcount, En]].
    split; [exact Ha|]. split; [|split; [exact Hlen' | exact Hown']].
    cbn. eapply nth_error_setNth_same; eassumption.
Qed.

(** From a session with only own fragments placed and an empty slot, some
    clicks on pills and drop zones win the heading. *)
Lemma play_out :
  forall n st sel t,
    inPlay a heading st -> emptySlots (slots st) = S n ->
    exists es v', forallb isPlayClick es = true
                  /\ run es (mkView (Some st) sel t) = Some v' /\ wonView a (S t) v'.
Proof.
  induction n as [|n IH]; intros st sel t Hplay Hn;
    destruct (@emptySlots_some (slots st) _ Hn) as [idx Hs];
    pose proof Hplay as (Ha & Hh & Hlen & Hown);
    (assert (Hlt : idx < List.length (items heading))
      by (rewrite <- Hlen; apply nth_error_Some; congruence));
    (destruct (nth_error (items heading) idx) as [item|] eqn:Hit;
      [|apply nth_error_None in Hit; lia]);
    destruct (@select_pill st sel t item Ha (@own_in_currentPool st idx item Hplay Hit Hs))
      as (es & Hplayes & Hes);
    destruct (@place_own st t idx item Hplay Hit Hs)
      as (v' & Hv' & [[_ Hwon]|(st' & n' & -> & Hplay' & Hn' & Hc)]).
  - exists (es ++ [ClickDropZone idx]), v'.
    split; [now rewrite forallb_app, Hplayes|].
    rewrite (@run_app es _ _ _ Hes). simpl. now rewrite Hv'.
  - rewrite Hn in Hc. discriminate.
  - exists (es ++ [ClickDropZone idx]), v'.
    split; [now rewrite forallb_app, Hplayes|].
    rewrite (@run_app es _ _ _ Hes). simpl. now rewrite Hv'.
  - assert (n' = n) by lia. subst n'.
    destruct (IH st' None t Hplay' Hn') as (es' & v' & Hplayes' & Hrun & Hwon).
    exists (es ++ ClickDropZone idx :: es'), v'.
    split; [rewrite forallb_app, Hplayes; simpl; exact Hplayes'|].
    rewrite (@run_app es _ _ _ Hes). simpl. now rewrite Hv'.
Qed.

End Winning.

Lemma Forall2_nth_r (A B : Type) (P : A -> B -> Prop) (l : list A) (l' : list B) :
  Forall2 P l l' ->
  forall i y, nth_error l' i = Some y -> exists x, nth_error l i = Some x /\ P x y.
Proof.
  induction 1 as [|x y l l' Hxy Hl IH]; intros [|i] z Hn; simpl in *; try discriminate.
  - injection Hn as <-. eauto.
  - now apply IH.
Qed.

Lemma parsed_lobby (rand36 : nat -> jstring) (content fname fpath : jstring)
    (g : GameState) :
  parseMarkdownToGame rand36 content fname fpath = Some g ->
  activeHeadingIndex g = None.
Proof.
  unfold parseMarkdownToGame. destruct (parseLoop _ _ _ _); [|discriminate].
  now intros [= <-].
Qed.

(** The ids of the fragments of one parsed group are pairwise distinct. *)
Lemma parsed_ids_NoDup (rand36 : nat -> jstring) (content fname fpath : jstring)
    (g : GameState) (h : GameHeading) :
  parseMarkdownToGame rand36 content fname fpath = Some g -> In h (headings g) ->
  NoDup (List.map id (items h)).
Proof.
  intros Hp Hin. apply NoDup_nth_error. intros i j Hi E.
  rewrite length_map in Hi. rewrite !nth_error_map in E.
  destruct (nth_error (items h) i) as [x|] eqn:Ex; [|apply nth_error_None in Ex; lia].
  destruct (nth_error (items h) j) as [y|] eqn:Ey; [|discriminate].
  simpl in E. injection E as E.
  destruct (@parsed_placed rand36 _ _ _ _ _ _ _ Hp Hin Ex) as (_ & _ & kx & Hx).
  destruct (@parsed_placed rand36 _ _ _ _ _ _ _ Hp Hin Ey) as (_ & _ & ky & Hy).
  rewrite Hx, Hy in E. now apply itemId_index in E.
Qed.

(** The session [startSession] opens on a heading whose fragments have
    distinct ids holds only own fragments, the others waiting in the pool. *)
Lemma startSession_inPlay (R : Random) (index : nat) (st : GameState)
    (heading : GameHeading) :
  nth_error (headings st) index = Some heading ->
  snd (startSession R index st) = Returns tt ->
  (forall l, Permutation (shuffled R l) l) ->
  NoDup (List.map id (items heading)) ->
  inPlay index heading (fst (startSession R index st)).
Proof.
  intros Hh Hret Hperm Hnd.
  destruct (@startSession_session R index st heading Hh) as (Hs & Hp & Hact).
  destruct (@sessionSlots_slots R index heading st) as [Hlen Hslot].
  destruct (startSession_frame R index st) as (_ & _ & Hhs & _).
  split; [assumption|]. split; [now rewrite Hhs|]. split; [now rewrite Hs|].
  intros idx item Hit. destruct (isStatic item) eqn:Est.
  - left. rewrite Hs, (Hslot idx item Hit), Est. reflexivity.
  - now apply (@unplaced_in_pool R index st heading).
Qed.

(** X12: every session can be won.  In a game parsed from any document,
    whatever was played before, a heading of the lobby that is not restored
    and has a playable fragment (and fewer than 2 ^ 32 fragments) can be
    restored in the session its card opens: when the card is clicked and
    [startSession] returns with a shuffle that permutes the pool, some
    sequence made only of clicks on pills and on drop zones (no other card,
    no Back, no timer) leads to a view where the heading is restored and one
    more timer is pending. *)
Theorem session_winnable (rand36 : nat -> jstring) (content fname fpath : jstring)
    (g : GameState) (v : View) (st : GameState) (index : nat)
    (heading : GameHeading) (R : Random) :
  parseMarkdownToGame rand36 content fname fpath = Some g ->
  reachable (openView g) v -> state v = Some st ->
  activeHeadingIndex st = None ->
  nth_error (headings st) index = Some heading -> isRestored heading = false ->
  (Z.of_nat (List.length (items heading)) < 2 ^ 32)%Z ->
  (exists item, In item (items heading) /\ isStatic item = false) ->
  (forall l, Permutation (shuffled R l) l) ->
  snd (startSession R index st) = Returns tt ->
  exists es v',
    forallb isPlayClick es = true
    /\ run (ClickCard index R :: es) v = Some v'
    /\ exists st' h', state v' = Some st'
                      /\ nth_error (headings st') index = Some h'
                      /\ isRestored h' = true
                      /\ pendingTimers v' = S (pendingTimers v).
Proof.
  intros Hp Hr Hst Ha Hh Hnr Hlen (item & Hin & Hplayable) Hperm Hret.
  destruct (@reachable_invariant g v (@parsed_lobby rand36 content fname fpath g Hp) Hr)
    as (st0 & Hst0 & (_ & _ & Hhs) & _).
  assert (st0 = st) by congruence. subst st0.
  destruct (@Forall2_nth_r _ _ _ _ _ Hhs index heading Hh) as (hg & Hhg & Ht & Hi & _).
  apply nth_error_In in Hhg.
  assert (Hplaced : forall idx it, nth_error (items heading) idx = Some it ->
                      originalIndex it = idx /\ originalHeading it = title heading).
  { intros idx it Hit. rewrite Hi in Hit.
    destruct (@parsed_placed rand36 _ _ _ _ _ _ _ Hp Hhg Hit) as (H1 & H2 & _).
    split; congruence. }
  assert (Hnd : NoDup (List.map id (items heading))).
  { rewrite Hi. exact (@parsed_ids_NoDup rand36 content fname fpath g hg Hp Hhg). }
  pose proof (@startSession_inPlay R index st heading Hh Hret Hperm Hnd) as Hplay.
  destruct (@startSession_empty_slot R index st heading item Hh Hlen Hin Hplayable)
    as (idx & it & _ & _ & _ & Hempty).
  destruct (@emptySlots_pos _ idx Hempty) as [n Hn].
  destruct (@play_out heading index Hplaced Hnd n _ (selectedPill v) (pendingTimers v)
              Hplay Hn) as (es & v' & Hplayes & Hrun & Hwon).
  exists es, v'. split; [exact Hplayes|]. split; [|exact Hwon].
  simpl. unfold handle. rewrite Hst, Ha, Hh, Hnr. exact Hrun.
Qed.

Lemma session_winnable_witness :
  exists es v',
    forallb isPlayClick es = true
    /\ run (ClickCard 0 halfRandom :: es) (openView sampleGame) = Some v'
    /\ exists st' h', state v' = Some st'
                      /\ nth_error (headings st') 0 = Some h'
                      /\ isRestored h' = true
                      /\ pendingTimers v' = S (pendingTimers (openView sampleGame)).
Proof.
  assert (Hp : parseMarkdownToGame sampleRandom36 sampleDocument (js "note") (js "note.md")
               = Some sampleGame) by (vm_compute; reflexivity).
  assert (Hlen : (Z.of_nat (List.length (items sampleA)) < 2 ^ 32)%Z)
    by (vm_compute; reflexivity).
  assert (Hperm : forall l, Permutation (shuffled halfRandom l) l)
    by (intro l; apply Permutation_refl).
  assert (Hret : snd (startSession halfRandom 0 sampleGame) = Returns tt)
    by (vm_compute; reflexivity).
  exact (@session_winnable sampleRandom36 _ _ _ sampleGame (openView sampleGame)
           sampleGame 0 sampleA halfRandom Hp (reachable_start _) eq_refl eq_refl
           eq_refl eq_refl Hlen
           (ex_intro _ sampleX (conj (or_introl eq_refl) eq_refl)) Hperm Hret).
Defined.

(** ** When a heading becomes restored *)

(** The one event that restores a heading: a pill dropped in an empty slot
    of its session, after which every slot is correct. *)
Lemma handle_restores (e : Event) (v v' : View) (st st' : GameState) (j : nat)
    (h h' : GameHeading) :
  handle e v = Some v' -> state v = Some st -> state v' = Some st' ->
  nth_error (headings st) j = Some h -> nth_error (headings st') j = Some h' ->
  isRestored h = false -> isRestored h' = true ->
  activeHeadingIndex st = Some j
  /\ (exists idx pill, e = ClickDropZone idx /\ selectedPill v = Some pill
                       /\ nth_error (slots st) idx = Some None
                       /\ slots st' = setNth (slots st) idx (Some pill))
  /\ isPerfect (slots st') h = Returns true
  /\ pendingTimers v' = S (pendingTimers v).
Proof.
  intros H Hst Hst' Hj Hj' Hr Hr'. unfold handle in H. rewrite Hst in H.
  assert (Hsame : headings st' = headings st -> False).
  { intro E. rewrite E in Hj'. congruence. }
  destruct (activeHeadingIndex st) as [a|] eqn:Ea.
  - destruct e as [d|index R| |val|k|idx|idx|]; try discriminate.
    + injection H as <-. simpl in Hst'. injection Hst' as <-. now destruct Hsame.
    + destruct (_ && _); [|discriminate]. injection H as <-.
      simpl in Hst'. injection Hst' as <-. now destruct Hsame.
    + destruct (nth_error (currentPool st) k); [|discriminate]. injection H as <-.
      simpl in Hst'. injection Hst' as <-. now destruct Hsame.
    + destruct (nth_error (headings st) a) as [heading|] eqn:Eh; [|discriminate].
      destruct (nth_error (slots st) idx) as [[it|]|] eqn:Es; try discriminate.
      destruct (rowShown st heading idx); [|discriminate].
      destruct (selectedPill v) as [pill|] eqn:Ep;
        [|injection H as <-; exfalso; apply Hsame; congruence].
      cbn [slots setSlots headings] in H. unfold checkWinCondition in H.
      destruct (isPerfect (setNth (slots st) idx (Some pill)) heading) as [[|]|] eqn:Ew;
        injection H as <-; simpl in Hst'; injection Hst' as <-; simpl in *.
      * destruct (Nat.eq_dec j a) as [->|Hne].
        -- assert (heading = h) by congruence. subst heading.
           split; [reflexivity|]. split; [exists idx, pill; auto|]. auto.
        -- rewrite setNth_other in Hj' by assumption. congruence.
      * exfalso. rewrite (setNth_id _ _ Eh) in Hj'. congruence.
      * now destruct Hsame.
    + destruct (nth_error (headings st) a) as [heading|]; [|discriminate].
      destruct (nth_error (slots st) idx) as [[itemInSlot|]|]; try discriminate.
      destruct (_ && _); [|discriminate]. injection H as <-.
      simpl in Hst'. injection Hst' as <-. now destruct Hsame.
    + destruct (pendingTimers v); [discriminate|]. injection H as <-.
      simpl in Hst'. injection Hst' as <-. now destruct Hsame.
  - destruct e as [d|index R| |val|k|idx|idx|]; try discriminate.
    + injection H as <-. simpl in Hst'. injection Hst' as <-. now destruct Hsame.
    + destruct (nth_error (headings st) index) as [h0|]; [|discriminate].
      destruct (isRestored h0); [discriminate|]. injection H as <-.
      simpl in Hst'. injection Hst' as <-. exfalso. apply Hsame.
      apply startSession_frame.
    + destruct (pendingTimers v); [discriminate|]. injection H as <-.
      simpl in Hst'. injection Hst' as <-. now destruct Hsame.
Qed.

(** X13: a heading is marked restored by one event only: a pill dropped in
    an empty slot of the session of that heading, after which every slot of
    the session is correct; the same event schedules one timer.  No other
    click, and no timer, marks a heading restored. *)
Theorem restored_only_by_win (e : Event) (v v' : View) (st st' : GameState)
    (j : nat) (h h' : GameHeading) :
  handle e v = Some v' -> state v = Some st -> state v' = Some st' ->
  nth_error (headings st) j = Some h -> nth_error (headings st') j = Some h' ->
  isRestored h = false -> isRestored h' = true ->
  activeHeadingIndex st = Some j
  /\ (exists idx pill, e = ClickDropZone idx /\ selectedPill v = Some pill
                       /\ nth_error (slots st) idx = Some None
                       /\ slots st' = setNth (slots st) idx (Some pill))
  /\ (forall i, i < List.length (slots st') ->
                isSlotCorrect (slotAt (slots st') i) i h = Returns true)
  /\ pendingTimers v' = S (pendingTimers v).
Proof.
  intros H Hst Hst' Hj Hj' Hr Hr'.
  destruct (@handle_restores e v v' st st' j h h' H Hst Hst' Hj Hj' Hr Hr') as (Ha & He & Hp & Ht).
  split; [assumption|]. split; [assumption|]. split; [|assumption].
  now apply isPerfect_true.
Qed.

Lemma restored_only_by_win_witness :
  activeHeadingIndex beforeWinState = Some 1
  /\ (exists idx pill, ClickDropZone 0 = ClickDropZone idx
                       /\ selectedPill beforeWin = Some pill
                       /\ nth_error (slots beforeWinState) idx = Some None
                       /\ slots afterWinState = setNth (slots beforeWinState) idx (Some pill))
  /\ (forall i, i < List.length (slots afterWinState) ->
                isSlotCorrect (slotAt (slots afterWinState) i) i sampleB = Returns true)
  /\ pendingTimers afterWin = S (pendingTimers beforeWin).
Proof.
  assert (H : handle (ClickDropZone 0) beforeWin = Some afterWin)
    by (vm_compute; reflexivity).
  exact (@restored_only_by_win (ClickDropZone 0) beforeWin afterWin beforeWinState
           afterWinState 1 sampleB (setRestored sampleB) H eq_refl eq_refl eq_refl
           eq_refl eq_refl eq_refl).
Defined.

(** A session of a heading whose fragments are all static has no empty
    slot. *)
Lemma static_session_full (st : GameState) (j : nat) (h : GameHeading) (idx : nat) :
  sessionShape st -> activeHeadingIndex st = Some j ->
  nth_error (headings st) j = Some h ->
  (forall it, In it (items h) -> isStatic it = true) ->
  nth_error (slots st) idx <> Some None.
Proof.
  intros Hshape Ha Hh Hall Hs.
  destruct (Hshape j Ha) as (h0 & Hh0 & Hlen & Hlock).
  assert (h0 = h) by congruence. subst h0.
  assert (Hlt : idx < List.length (items h)).
  { rewrite <- Hlen. apply nth_error_Some. congruence. }
  destruct (nth_error (items h) idx) as [item|] eqn:Ei;
    [|apply nth_error_None in Ei; lia].
  assert (Hl : lockedAt st item idx = true).
  { unfold lockedAt. rewrite (Hall item (nth_error_In _ _ Ei)). reflexivity. }
  rewrite (Hlock idx item Ei Hl) in Hs. discriminate.
Qed.

(** X14: a heading without a playable fragment can never be restored.  If
    every fragment of a heading of the game opened in the lobby is static
    (or it has none), the heading is not restored in any view the player can
    reach: its session shows no drop zone. *)
Theorem static_heading_never_restored (g : GameState) (v : View) (j : nat)
    (h : GameHeading) :
  activeHeadingIndex g = None ->
  nth_error (headings g) j = Some h -> isRestored h = false ->
  (forall it, In it (items h) -> isStatic it = true) ->
  reachable (openView g) v ->
  exists st h', state v = Some st /\ nth_error (headings st) j = Some h'
                /\ isRestored h' = false
                /\ (activeHeadingIndex st = Some j ->
                    forall idx, nth_error (slots st) idx <> Some None).
Proof.
  intros Hg Hj Hr Hall Hreach.
  assert (Hmain : exists st h', state v = Some st /\ nth_error (headings st) j = Some h'
                                /\ isRestored h' = false).
  { induction Hreach as [|v v' e Hreach (st & h1 & Hst & Hh1 & Hr1) H].
    - exists g, h. auto.
    - destruct (@reachable_invariant g v Hg Hreach) as (st0 & Hst0 & (_ & _ & Hhs) & Hshape).
      assert (st0 = st) by congruence. subst st0.
      assert (Hreach' : reachable (openView g) v')
        by (eapply reachable_event; eassumption).
      destruct (@reachable_invariant g v' Hg Hreach') as (st' & Hst' & (_ & _ & Hhs') & _).
      assert (Hsome : exists h', nth_error (headings st') j = Some h').
      { destruct (nth_error (headings st') j) as [h'|] eqn:E; [eauto|].
        apply nth_error_None in E. apply Forall2_length in Hhs'.
        assert (j < List.length (headings g)) by (apply nth_error_Some; congruence).
        lia. }
      destruct Hsome as [h' Hh'].
      exists st', h'. split; [assumption|]. split; [assumption|].
      destruct (isRestored h') eqn:Er'; [|reflexivity]. exfalso.
      destruct (@handle_restores e v v' st st' j h1 h' H Hst Hst' Hh1 Hh' Hr1 Er')
        as (Ha & (idx & pill & _ & _ & Hs & _) & _).
      destruct (@Forall2_nth_r _ _ _ _ _ Hhs j h1 Hh1) as (h0 & Hh0 & _ & Hi & _).
      assert (h0 = h) by congruence. subst h0.
      apply (@static_session_full st j h1 idx Hshape Ha Hh1); [|assumption].
      rewrite Hi. exact Hall. }
  destruct Hmain as (st & h' & Hst & Hh' & Hr').
  exists st, h'. split; [assumption|]. split; [assumption|]. split; [assumption|].
  intros Ha idx.
  destruct (@reachable_invariant g v Hg Hreach) as (st0 & Hst0 & (_ & _ & Hhs) & Hshape).
  assert (st0 = st) by congruence. subst st0.
  destruct (@Forall2_nth_r _ _ _ _ _ Hhs j h' Hh') as (h0 & Hh0 & _ & Hi & _).
  assert (h0 = h) by congruence. subst h0.
  apply (@static_session_full st j h' idx Hshape Ha Hh'). rewrite Hi. exact Hall.
Qed.

Lemma static_heading_never_restored_witness :
  exists st h', state staticView = Some st /\ nth_error (headings st) 1 = Some h'
                /\ isRestored h' = false
                /\ (activeHeadingIndex st = Some 1 ->
                    forall idx, nth_error (slots st) idx <> Some None).
Proof.
  assert (Hrun : run [ClickCard 1 halfRandom] (openView staticGame) = Some staticView)
    by (vm_compute; reflexivity).
  assert (Hall : forall it, In it (items staticHeading) -> isStatic it = true).
  { intros it [<-|[<-|[]]]; reflexivity. }
  exact (@static_heading_never_restored staticGame staticView 1 staticHeading eq_refl
           eq_refl eq_refl Hall
           (run_reachable [ClickCard 1 halfRandom] (reachable_start _) Hrun)).
Defined.

(** ** Fragments are lines *)

Lemma splitLines_no_LF_fuel (n : nat) :
  forall s cur, List.length s <= n -> ~ In LF cur ->
                forall l, In l (splitLines cur s) -> ~ In LF l.
Proof.
  induction n as [|n IH]; intros s cur Hlen Hcur l Hin.
  - destruct s; [|simpl in Hlen; lia]. simpl in Hin. destruct Hin as [<-|[]].
    now rewrite <- in_rev.
  - destruct s as [|c rest]; simpl in Hin.
    + destruct Hin as [<-|[]]. now rewrite <- in_rev.
    + simpl in Hlen. destruct (c =? LF)%N eqn:Ec.
      * destruct Hin as [<-|Hin]; [now rewrite <- in_rev|].
        apply (IH rest []); auto; lia.
      * assert (Hcur' : ~ In LF (c :: cur)).
        { intros [->|H]; [now rewrite N.eqb_refl in Ec | contradiction]. }
        destruct rest as [|d rest'].
        -- apply (IH [] (c :: cur)); auto; simpl; lia.
        -- destruct ((c =? CR) && (d =? LF))%N.
           ++ destruct Hin as [<-|Hin]; [now rewrite <- in_rev|].
              apply (IH rest' []); auto. simpl in Hlen. lia.
           ++ apply (IH (d :: rest') (c :: cur)); auto. lia.
Qed.

(** No line of [content.split] holds a line feed. *)
Lemma splitLines_no_LF (content l : jstring) :
  In l (splitLines [] content) -> ~ In LF l.
Proof.
  apply (@splitLines_no_LF_fuel (List.length content) content []); auto.
Qed.

Lemma fragmentTexts_In (hs : list GameHeading) (h : GameHeading) (it : GameItem) :
  In h hs -> In it (items h) -> In (text it) (fragmentTexts hs).
Proof.
  intros Hh Hit. unfold fragmentTexts. apply in_flat_map. exists h.
  split; [assumption | now apply in_map].
Qed.

(** X15: the text of every fragment of a parsed game is one line of the
    document: it is not the empty string, it holds no line feed, and it is
    not a heading line of level 1 or 2. *)
Theorem fragment_is_line (rand36 : nat -> jstring) (content fname fpath : jstring)
    (g : GameState) (h : GameHeading) (it : GameItem) :
  parseMarkdownToGame rand36 content fname fpath = Some g ->
  In h (headings g) -> In it (items h) ->
  In (text it) (splitLines [] content)
  /\ text it <> [] /\ ~ In LF (text it) /\ isGroupHeading (text it) = false.
Proof.
  intros Hp Hh Hit.
  destruct (@parse_result rand36 _ _ _ _ Hp) as (st & Hr & Hlen & Hg).
  pose proof (fragmentTexts_In _ _ _ Hh Hit) as Hin.
  rewrite Hg, (flexed_groups_texts (@flexPass_flexed rand36 _ (ps_rng st))) in Hin.
  rewrite (reaches_texts Hr), firstn_all2 in Hin by assumption.
  apply filter_In in Hin as [Hline Hkept].
  unfold keptLine in Hkept. apply andb_true_iff in Hkept as [Hne Hnh].
  split; [assumption|]. split; [|split].
  - intro E. rewrite E in Hne. discriminate.
  - now apply (@splitLines_no_LF content).
  - now destruct (isGroupHeading (text it)).
Qed.

Lemma fragment_is_line_witness :
  In (text sampleX) (splitLines [] sampleDocument)
  /\ text sampleX <> [] /\ ~ In LF (text sampleX) /\ isGroupHeading (text sampleX) = false.
Proof.
  assert (Hp : parseMarkdownToGame sampleRandom36 sampleDocument (js "note") (js "note.md")
               = Some sampleGame) by (vm_compute; reflexivity).
  exact (@fragment_is_line _ _ _ _ _ sampleA sampleX Hp (or_introl eq_refl)
           (or_introl eq_refl)).
Defined.

(** ** The rows of a session *)

Lemma In_consRow (r0 : Row) (rest : outcome (list Row)) (rows : list Row) :
  consRow r0 rest = Returns rows ->
  exists l, rest = Returns l /\ rows = r0 :: l.
Proof. destruct rest as [l|]; simpl; [intros [= <-]; eauto | discriminate]. Qed.

Section Rows.

Variable st : GameState.
Variable heading : GameHeading.

Lemma rowsOf_nil (idx : nat) : rowsOf st heading 0 idx [].
Proof.
  intros r _. split; [intros [] | intros (i & Hi & _); lia].
Qed.

Lemma rowsOf_skip (n idx : nat) (rest : list Row) :
  rowShown st heading idx = false ->
  rowsOf st heading n (S idx) rest -> rowsOf st heading (S n) idx rest.
Proof.
  intros Hno Hrest r Hr. rewrite (Hrest r Hr). split.
  - intros (i & Hi & H). exists i. split; [lia | assumption].
  - intros (i & Hi & Hs & Ho). destruct (Nat.eq_dec i idx) as [->|Hne]; [congruence|].
    exists i. split; [lia | auto].
Qed.

Lemma rowsOf_block (n idx : nat) (fullText : jstring) (rest : list Row) :
  rowShown st heading idx = false ->
  rowsOf st heading n (S idx) rest -> rowsOf st heading (S n) idx (BlockRow fullText :: rest).
Proof.
  intros Hno Hrest r Hr. rewrite <- (rowsOf_skip Hno Hrest r Hr). simpl. split.
  - intros [<-|H]; [discriminate | assumption].
  - now right.
Qed.

Lemma rowsOf_own (n idx : nat) (r0 : Row) (rest : list Row) :
  rowShown st heading idx = true -> ownRow st heading idx = Some r0 ->
  rowsOf st heading n (S idx) rest -> rowsOf st heading (S n) idx (r0 :: rest).
Proof.
  intros Hs Ho Hrest r Hr. simpl. rewrite (Hrest r Hr). split.
  - intros [<-|(i & Hi & H)]; [exists idx; split; [lia | auto]|].
    exists i. split; [lia | assumption].
  - intros (i & Hi & Hsi & Hoi). destruct (Nat.eq_dec i idx) as [->|Hne].
    + left. congruence.
    + right. exists i. split; [lia | auto].
Qed.

Lemma plainRow_rowsOf (n idx : nat) (originalItem : GameItem)
    (rest : outcome (list Row)) (rows : list Row) :
  idx < List.length (slots st) ->
  nth_error (items heading) idx = Some originalItem ->
  rowShown st heading idx = true ->
  plainRow st heading idx originalItem rest = Returns rows ->
  (forall l, rest = Returns l -> rowsOf st heading n (S idx) l) ->
  rowsOf st heading (S n) idx rows.
Proof.
  intros Hlt Ho Hs H Hrest. unfold plainRow, slotAt in H.
  destruct (nth_error (slots st) idx) as [[it|]|] eqn:Es;
    [| |apply nth_error_None in Es; lia].
  - destruct (isSlotCorrect (Some it) idx heading) as [c|] eqn:Ec; [|discriminate].
    apply In_consRow in H as (l & Hl & ->).
    apply rowsOf_own; [assumption | | now apply Hrest].
    unfold ownRow. now rewrite Ho, Es, Ec.
  - apply In_consRow in H as (l & Hl & ->).
    apply rowsOf_own; [assumption | | now apply Hrest].
    unfold ownRow. now rewrite Ho, Es.
Qed.

Lemma rowsFrom_rowsOf (n : nat) :
  forall idx processed rows,
    idx + n <= List.length (slots st) ->
    (forall b, setHas jseq processed b = true ->
               isBlockFullyRestored b heading (slots st) = Returns true) ->
    rowsFrom st heading n idx processed = Returns rows ->
    rowsOf st heading n idx rows.
Proof.
  induction n as [|n IH]; intros idx processed rows Hlen Hproc H.
  - injection H as <-. apply rowsOf_nil.
  - cbn [rowsFrom] in H.
    destruct (nth_error (items heading) idx) as [o|] eqn:Eo; [|discriminate].
    assert (Hrest : forall l, rowsFrom st heading n (S idx) processed = Returns l ->
                              rowsOf st heading n (S idx) l).
    { intros l Hl. apply (IH (S idx) processed l); [lia | assumption | assumption]. }
    destruct (blockId o) as [[|c b]|] eqn:Eb.
    + apply (@plainRow_rowsOf n idx o (rowsFrom st heading n (S idx) processed) rows);
        [lia | exact Eo | | exact H | exact Hrest].
      unfold rowShown. now rewrite Eo, Eb.
    + destruct (setHas jseq processed (c :: b)) eqn:Ep.
      * apply rowsOf_skip; [|now apply Hrest].
        unfold rowShown. now rewrite Eo, Eb, (Hproc _ Ep).
      * destruct (isBlockFullyRestored (c :: b) heading (slots st)) as [[|]|] eqn:Er;
          [| |discriminate].
        -- apply In_consRow in H as (l & Hl & ->).
           apply rowsOf_block; [unfold rowShown; now rewrite Eo, Eb, Er|].
           apply (IH (S idx) (setAdd jseq processed (c :: b)) l); [lia | | assumption].
           intros b' Hb'. unfold setAdd in Hb'. rewrite Ep in Hb'.
           apply setHas_jseq, in_app_or in Hb' as [Hb'|[<-|[]]]; [|assumption].
           now apply Hproc, setHas_jseq.
        -- apply (@plainRow_rowsOf n idx o (rowsFrom st heading n (S idx) processed) rows);
        [lia | exact Eo | | exact H | exact Hrest].
           unfold rowShown. now rewrite Eo, Eb, Er.
    + apply (@plainRow_rowsOf n idx o (rowsFrom st heading n (S idx) processed) rows);
        [lia | exact Eo | | exact H | exact Hrest].
      unfold rowShown. now rewrite Eo, Eb.
Qed.

(** With a fragment parsed for each slot the loop never throws. *)
Lemma rowsFrom_returns (n : nat) :
  forall idx processed,
    idx + n <= List.length (items heading) ->
    exists rows, rowsFrom st heading n idx processed = Returns rows.
Proof.
  induction n as [|n IH]; intros idx processed Hlen; [now exists []|].
  cbn [rowsFrom].
  destruct (nth_error (items heading) idx) as [o|] eqn:Eo;
    [|apply nth_error_None in Eo; lia].
  assert (Hplain : forall rest, (exists l, rest = Returns l) ->
                     exists rows, plainRow st heading idx o rest = Returns rows).
  { intros rest [l ->]. unfold plainRow.
    destruct (slotAt (slots st) idx) as [it|]; [|simpl; eauto].
    destruct (@isSlotCorrect_returns (Some it) idx heading) as [c ->]; [lia|].
    simpl. eauto. }
  assert (Hrest : forall p, exists l, rowsFrom st heading n (S idx) p = Returns l).
  { intro p. apply IH. lia. }
  destruct (blockId o) as [[|c b]|]; try (apply Hplain, Hrest).
  destruct (setHas jseq processed (c :: b)); [apply Hrest|].
  destruct (isBlockFullyRestored_returns (c :: b) heading (slots st)) as [[|] ->].
  - destruct (Hrest (setAdd jseq processed (c :: b))) as [l ->]. simpl. eauto.
  - apply Hplain, Hrest.
Qed.

End Rows.



(** ** Flexible groups are runs of sibling bullets *)

Lemma flexibleb_spec (item : GameItem) (next : option GameItem) :
  flexibleb item next = true <-> flexible item next.
Proof.
  unfold flexibleb, flexible, hasChildrenOf.
  destruct (isUnordered (text item)), (isStatic item), (isSubHeading item); simpl;
    try (split; [discriminate | intros (H1 & H2 & H3 & _); discriminate]).
  destruct next as [n|]; simpl.
  - rewrite negb_true_iff, Nat.ltb_ge. split.
    + intro H. repeat split; auto. now intros n' [= <-].
    + intros (_ & _ & _ & H). now apply H.
  - split; [|reflexivity]. intros _. repeat split; auto. discriminate.
Qed.

Lemma flexId_index (t : jstring) (j1 j2 : nat) (r1 r2 : jstring) :
  flexId t j1 r1 = flexId t j2 r2 -> j1 = j2.
Proof.
  unfold flexId. intro H. apply app_inv_head in H. apply app_inv_head in H.
  change (js "-") with [DASH] in H. simpl in H. injection H as H.
  apply split_first in H; try apply decimal_no_dash.
  destruct H as [H _]. now apply decimal_inj.
Qed.

Lemma popParents_idem (stack : list (Z * Z)) (indent : Z) :
  popParents (popParents stack indent) indent = popParents stack indent.
Proof.
  induction stack as [|top rest IH]; simpl; [reflexivity|].
  destruct (indent <=? fst top)%Z eqn:E; [exact IH|]. simpl. now rewrite E.
Qed.

Section FlexRuns.

Variable rand36 : nat -> jstring.
Variable t : jstring.

(** A turn on a fragment that is not flexible leaves it as it is and ends
    the current group. *)
Lemma flexTurn_rigid (j : nat) (item : GameItem) (next : option GameItem)
    (fs : FlexState) :
  flexibleb item next = false ->
  fst (flexTurn rand36 t j item next fs) = item
  /\ currentFlexGroupId (snd (flexTurn rand36 t j item next fs)) = None.
Proof.
  unfold flexibleb, flexTurn. intro H. apply negb_false_iff in H. now rewrite H.
Qed.

(** A turn on a flexible fragment gives it the id of the current group when
    the fragment before it is in a group, under the same parent and at the
    same indentation, and a new id made from the index otherwise. *)
Lemma flexTurn_flexible (j : nat) (item : GameItem) (next : option GameItem)
    (fs : FlexState) :
  flexibleb item next = true ->
  exists g,
    flexTurn rand36 t j item next fs
    = (setFlexGroupId item g,
       mkFlex (popParents (parentStack fs) (Z.of_nat (indentation item))) (Some g)
              (topIndex (popParents (parentStack fs) (Z.of_nat (indentation item))))
              (Z.of_nat (indentation item))
              (fx_rng (snd (flexTurn rand36 t j item next fs))))
    /\ ((currentFlexGroupId fs = Some g
         /\ lastIndent fs = Z.of_nat (indentation item)
         /\ lastParentIdx fs
            = topIndex (popParents (parentStack fs) (Z.of_nat (indentation item))))
        \/ ((currentFlexGroupId fs = None
             \/ lastIndent fs <> Z.of_nat (indentation item)
             \/ lastParentIdx fs
                <> topIndex (popParents (parentStack fs) (Z.of_nat (indentation item))))
            /\ g = flexId t j (rand36 (fx_rng fs)))).
Proof.
  unfold flexibleb, flexTurn. intro H. apply negb_true_iff in H. rewrite H.
  apply orb_false_iff in H as [H Hc]. rewrite Hc.
  set (stack := popParents (parentStack fs) (Z.of_nat (indentation item))).
  destruct (currentFlexGroupId fs) as [g0|] eqn:Ec.
  - destruct (Z.eqb_spec (topIndex stack) (lastParentIdx fs)) as [Ep|Ep];
      destruct (Z.eqb_spec (Z.of_nat (indentation item)) (lastIndent fs)) as [Ei|Ei];
      simpl.
    + exists g0. split; [reflexivity|]. left. repeat split; congruence.
    + eexists. split; [reflexivity|]. right. split; [|reflexivity]. right. left. congruence.
    + eexists. split; [reflexivity|]. right. split; [|reflexivity]. right. right. congruence.
    + eexists. split; [reflexivity|]. right. split; [|reflexivity]. right. left. congruence.
  - simpl. eexists. split; [reflexivity|]. right. split; [now left | reflexivity].
Qed.

(** The pass gives an id to the flexible fragments and to them only. *)
Lemma flexLoop_exact (its : list GameItem) :
  forall j fs k it,
    nth_error its k = Some it ->
    exists it', nth_error (fst (flexLoop rand36 t j its fs)) k = Some it'
                /\ if flexibleb it (nth_error its (S k))
                   then exists g, it' = setFlexGroupId it g
                   else it' = it.
Proof.
  induction its as [|item rest IH]; intros j fs k it Hk; [destruct k; discriminate|].
  cbn [flexLoop].
  destruct (flexTurn rand36 t j item (hd_error rest) fs) as [item' fs'] eqn:Et.
  specialize (IH (S j) fs').
  destruct (flexLoop rand36 t (S j) rest fs') as [rest' rng']. cbn [fst] in *.
  destruct k as [|k].
  - injection Hk as <-. exists item'. split; [reflexivity|].
    change (nth_error (item :: rest) 1) with (nth_error rest 0).
    replace (nth_error rest 0) with (hd_error rest) by now destruct rest.
    destruct (flexibleb item (hd_error rest)) eqn:Ef.
    + destruct (flexTurn_flexible j item (hd_error rest) fs Ef) as (g & Hg & _).
      rewrite Hg in Et. injection Et as <- _. eauto.
    + destruct (flexTurn_rigid j item (hd_error rest) fs Ef) as [H _].
      rewrite Et in H. exact H.
  - exact (IH k it Hk).
Qed.

(** Two flexible fragments in a row, with one indentation, get one id. *)
Lemma flexLoop_adjacent (its : list GameItem) :
  forall j fs k a b,
    nth_error its k = Some a -> nth_error its (S k) = Some b ->
    flexibleb a (Some b) = true -> flexibleb b (nth_error its (S (S k))) = true ->
    indentation a = indentation b ->
    exists g, nth_error (fst (flexLoop rand36 t j its fs)) k = Some (setFlexGroupId a g)
              /\ nth_error (fst (flexLoop rand36 t j its fs)) (S k)
                 = Some (setFlexGroupId b g).
Proof.
  induction its as [|item rest IH]; intros j fs k a b Ha Hb Hfa Hfb Hind;
    [destruct k; discriminate|].
  cbn [flexLoop].
  destruct (flexTurn rand36 t j item (hd_error rest) fs) as [item' fs'] eqn:Et.
  specialize (IH (S j) fs').
  destruct (flexLoop rand36 t (S j) rest fs') as [rest' rng'] eqn:El. cbn [fst] in *.
  destruct k as [|k].
  - injection Ha as <-. destruct rest as [|b' rest2]; [discriminate|].
    injection Hb as ->. cbn [hd_error] in Et.
    change (nth_error (item :: b :: rest2) 2) with (nth_error rest2 0) in Hfb.
    destruct (flexTurn_flexible j item (Some b) fs Hfa) as (g & Hg & _).
    rewrite Hg in Et. injection Et as <- <-.
    cbn [flexLoop] in El.
    replace (nth_error rest2 0) with (hd_error rest2) in Hfb by now destruct rest2.
    destruct (flexTurn_flexible (S j) b (hd_error rest2)
                (mkFlex (popParents (parentStack fs) (Z.of_nat (indentation item)))
                        (Some g)
                        (topIndex (popParents (parentStack fs)
                                              (Z.of_nat (indentation item))))
                        (Z.of_nat (indentation item))
                        (fx_rng (snd (flexTurn rand36 t j item (Some b) fs)))) Hfb)
      as (g' & Hg' & Hcase).
    rewrite Hg' in El.
    destruct (flexLoop rand36 t (S (S j)) rest2 _) as [rest2' rng2].
    injection El as <- _. exists g. split; [reflexivity|].
    change (Some (setFlexGroupId b g') = Some (setFlexGroupId b g)).
    destruct Hcase as [(Hc & _)|([Hc|[Hc|Hc]] & _)]; cbn in Hc.
    + now injection Hc as ->.
    + discriminate.
    + rewrite Hind in Hc. now destruct Hc.
    + rewrite <- Hind, popParents_idem in Hc. now destruct Hc.
  - exact (IH k a b Ha Hb Hfa Hfb Hind).
Qed.

(** A fragment with a group id is the last of a run of fragments with that
    id and one indentation; the run starts in the list, where the id was
    made from the index, or goes back to the group current at the start. *)
Lemma flexLoop_runs (its : list GameItem) :
  forall j fs,
    (forall it, In it its -> flexGroupId it = None) ->
    forall k it' g,
      nth_error (fst (flexLoop rand36 t j its fs)) k = Some it' ->
      flexGroupId it' = Some g ->
      (exists s r, s <= k /\ g = flexId t (j + s) r
                   /\ flexRun (fst (flexLoop rand36 t j its fs)) s k g (indentation it'))
      \/ (currentFlexGroupId fs = Some g
          /\ lastIndent fs = Z.of_nat (indentation it')
          /\ flexRun (fst (flexLoop rand36 t j its fs)) 0 k g (indentation it')).
Proof.
  induction its as [|item rest IH]; intros j fs Hnone k it' g Hk Hg;
    [destruct k; discriminate|].
  cbn [flexLoop] in *.
  destruct (flexTurn rand36 t j item (hd_error rest) fs) as [item' fs'] eqn:Et.
  specialize (IH (S j) fs' (fun x Hx => Hnone x (or_intror Hx))).
  destruct (flexLoop rand36 t (S j) rest fs') as [rest' rng']. cbn [fst] in *.
  assert (Hhead : forall g0, flexGroupId item' = Some g0 ->
            (g0 = flexId t j (rand36 (fx_rng fs))
             \/ (currentFlexGroupId fs = Some g0
                 /\ lastIndent fs = Z.of_nat (indentation item')))
            /\ currentFlexGroupId fs' = Some g0
            /\ lastIndent fs' = Z.of_nat (indentation item')).
  { intros g0 Hg0. destruct (flexibleb item (hd_error rest)) eqn:Ef.
    - destruct (flexTurn_flexible j item (hd_error rest) fs Ef) as (g1 & Hg1 & Hcase).
      rewrite Hg1 in Et. injection Et as <- <-. simpl in Hg0. injection Hg0 as ->.
      simpl. split; [|auto].
      destruct Hcase as [(Hc & Hi & _)|(_ & ->)]; [right; auto | now left].
    - destruct (flexTurn_rigid j item (hd_error rest) fs Ef) as [H _].
      rewrite Et in H. simpl in H. subst item'.
      rewrite (Hnone item (or_introl eq_refl)) in Hg0. discriminate. }
  assert (Hstate : forall g0, currentFlexGroupId fs' = Some g0 ->
                              flexGroupId item' = Some g0).
  { intros g0 Hc. destruct (flexibleb item (hd_error rest)) eqn:Ef.
    - destruct (flexTurn_flexible j item (hd_error rest) fs Ef) as (g1 & Hg1 & _).
      rewrite Hg1 in Et. injection Et as <- <-. simpl in *. congruence.
    - destruct (flexTurn_rigid j item (hd_error rest) fs Ef) as [_ H].
      rewrite Et in H. simpl in H. congruence. }
  destruct k as [|k].
  - injection Hk as <-.
    assert (Hrun : flexRun (item' :: rest') 0 0 g (indentation item')).
    { intros m Hm. assert (m = 0) by lia. subst m. exists item'. auto. }
    destruct (Hhead g Hg) as [[->|[Hc Hi]] _].
    + left. exists 0, (rand36 (fx_rng fs)). rewrite Nat.add_0_r. auto.
    + right. auto.
  - destruct (IH k it' g Hk Hg) as [(s & r & Hs & -> & Hrun)|(Hc & Hi & Hrun)].
    + left. exists (S s), r. split; [lia|]. split; [f_equal; lia|].
      intros m Hm. destruct m as [|m]; [lia|].
      change (nth_error (item' :: rest') (S m)) with (nth_error rest' m). apply Hrun. lia.
    + pose proof (Hstate g Hc) as Hg'.
      destruct (Hhead g Hg') as [Hfrom [_ Hi']].
      assert (Hind : indentation item' = indentation it') by lia.
      assert (Hrun' : flexRun (item' :: rest') 0 (S k) g (indentation it')).
      { intros m Hm. destruct m as [|m].
        - exists item'. auto.
        - change (nth_error (item' :: rest') (S m)) with (nth_error rest' m).
          apply Hrun. lia. }
      destruct Hfrom as [->|[Hc0 Hi0]].
      * left. exists 0, (rand36 (fx_rng fs)). rewrite Nat.add_0_r.
        split; [lia|]. split; [reflexivity | assumption].
      * right. split; [assumption|]. split; [lia | assumption].
Qed.

(** What the pass makes of a heading, seen from its result. *)
Lemma flexPass_In (hs : list GameHeading) :
  forall rng h', In h' (flexPass rand36 hs rng) ->
    exists h0 rng0, In h0 hs /\ title h' = title h0
                    /\ items h' = fst (flexLoop rand36 (title h0) 0 (items h0)
                                                (flexInit rng0)).
Proof.
  induction hs as [|h hs IH]; intros rng h' Hin; cbn [flexPass] in Hin; [destruct Hin|].
  destruct (flexLoop rand36 (title h) 0 (items h) (flexInit rng)) as [its rng'] eqn:El.
  destruct Hin as [<-|Hin].
  - exists h, rng. rewrite El. simpl. auto.
  - destruct (IH rng' h' Hin) as (h0 & rng0 & H0 & H). exists h0, rng0. split; [now right | exact H].
Qed.

End FlexRuns.

Lemma flexed_fields (its out : list GameItem) :
  flexed its out ->
  forall k it', nth_error out k = Some it' ->
    exists it, nth_error its k = Some it
               /\ (it' = it \/ exists g, it' = setFlexGroupId it g).
Proof.
  induction 1 as [|it rest rest' Hf IH|it g rest rest' Hflex Hf IH]; intros k it' Hk.
  - destruct k; discriminate.
  - destruct k as [|k]; [injection Hk as <-; exists it; auto | exact (IH k it' Hk)].
  - destruct k as [|k]; [injection Hk as <-; exists it; eauto | exact (IH k it' Hk)].
Qed.

(** The test of the pass reads the same on the fragments before and after
    the pass. *)
Lemma flexibleb_out (its out : list GameItem) (k : nat) (it it' : GameItem) :
  flexed its out ->
  nth_error its k = Some it -> nth_error out k = Some it' ->
  flexibleb it' (nth_error out (S k)) = flexibleb it (nth_error its (S k)).
Proof.
  intros Hf Hk Hk'.
  destruct (flexed_fields Hf k Hk') as (x & Hx & Hsame).
  assert (x = it) by congruence. subst x.
  assert (Hnext : hasChildrenOf it' (nth_error out (S k))
                  = hasChildrenOf it (nth_error its (S k))).
  { assert (Hind : indentation it' = indentation it)
      by (destruct Hsame as [->|[g ->]]; reflexivity).
    unfold hasChildrenOf. rewrite Hind.
    destruct (nth_error out (S k)) as [n'|] eqn:En'.
    - destruct (flexed_fields Hf (S k) En') as (n & -> & [->|[g ->]]); reflexivity.
    - apply nth_error_None in En'. rewrite (flexed_length Hf) in En'.
      apply nth_error_None in En'. now rewrite En'. }
  unfold flexibleb. rewrite Hnext. now destruct Hsame as [->|[g ->]].
Qed.

(** A heading of a parsed game is what the pass makes of a group without
    flexGroupIds. *)
Lemma parsed_flexLoop (rand36 : nat -> jstring) (content fname fpath : jstring)
    (g : GameState) (h : GameHeading) :
  parseMarkdownToGame rand36 content fname fpath = Some g -> In h (headings g) ->
  exists h0 rng0,
    (forall it, In it (items h0) -> flexGroupId it = None)
    /\ items h = fst (flexLoop rand36 (title h0) 0 (items h0) (flexInit rng0)).
Proof.
  intros Hp Hin. destruct (@parse_result rand36 _ _ _ _ Hp) as (st & Hr & _ & Hg).
  rewrite Hg in Hin.
  destruct (@flexPass_In rand36 _ _ _ Hin) as (h0 & rng0 & Hin0 & _ & Hitems).
  exists h0, rng0. split; [|exact Hitems].
  pose proof (reaches_parsedSoFar Hr) as Hinv. unfold parsedSoFar in Hinv.
  rewrite Forall_forall in Hinv. destruct (Hinv h0 Hin0) as [_ Hn].
  intros it Hit. now destruct (Hn it Hit).
Qed.

(** In a parsed heading a fragment with a group id ends a run that starts
    where the id was made. *)
Lemma parsed_run (rand36 : nat -> jstring) (content fname fpath : jstring)
    (g : GameState) (h : GameHeading) (k : nat) (it : GameItem) (f : jstring) :
  parseMarkdownToGame rand36 content fname fpath = Some g -> In h (headings g) ->
  nth_error (items h) k = Some it -> flexGroupId it = Some f ->
  exists t s r, s <= k /\ f = flexId t s r /\ flexRun (items h) s k f (indentation it)
                /\ forall k' it' f', nth_error (items h) k' = Some it' ->
                                     flexGroupId it' = Some f' ->
                                     exists s' r', s' <= k' /\ f' = flexId t s' r'.
Proof.
  intros Hp Hin Hk Hf.
  destruct (@parsed_flexLoop rand36 _ _ _ _ _ Hp Hin) as (h0 & rng0 & Hnone & Hitems).
  rewrite Hitems in *. exists (title h0).
  assert (Htop : forall k' it' f',
             nth_error (fst (flexLoop rand36 (title h0) 0 (items h0) (flexInit rng0))) k'
             = Some it' ->
             flexGroupId it' = Some f' ->
             exists s r, s <= k' /\ f' = flexId (title h0) s r
                         /\ flexRun (fst (flexLoop rand36 (title h0) 0 (items h0)
                                                   (flexInit rng0)))
                                    s k' f' (indentation it')).
  { intros k' it' f' Hk' Hf'.
    destruct (@flexLoop_runs rand36 (title h0) (items h0) 0 (flexInit rng0) Hnone
                k' it' f' Hk' Hf') as [H|(Hc & _)]; [exact H | discriminate]. }
  destruct (Htop k it f Hk Hf) as (s & r & Hs & Hid & Hrun).
  exists s, r. split; [assumption|]. split; [assumption|]. split; [assumption|].
  intros k' it' f' Hk' Hf'. destruct (Htop k' it' f' Hk' Hf') as (s' & r' & H1 & H2 & _).
  eauto.
Qed.

(** X17: a fragment of a parsed game carries a flexGroupId exactly when it
    is flexible: an unordered list item that is neither static nor a
    sub-heading and is not followed by a fragment indented more than it. *)
Theorem flexGroupId_exact (rand36 : nat -> jstring) (content fname fpath : jstring)
    (g : GameState) (h : GameHeading) (k : nat) (it : GameItem) :
  parseMarkdownToGame rand36 content fname fpath = Some g -> In h (headings g) ->
  nth_error (items h) k = Some it ->
  (flexGroupId it <> None <-> flexible it (nth_error (items h) (S k))).
Proof.
  intros Hp Hin Hk.
  destruct (@parsed_flexLoop rand36 _ _ _ _ _ Hp Hin) as (h0 & rng0 & Hnone & Hitems).
  pose proof (@flexLoop_flexed rand36 (title h0) (items h0) 0 (flexInit rng0)) as Hf.
  rewrite <- Hitems in Hf.
  destruct (flexed_fields Hf k Hk) as (it0 & Hk0 & _).
  rewrite <- flexibleb_spec, (@flexibleb_out _ _ k it0 it Hf Hk0 Hk).
  destruct (@flexLoop_exact rand36 (title h0) (items h0) 0 (flexInit rng0) k it0 Hk0)
    as (it' & Hk' & Hcase).
  rewrite <- Hitems in Hk'. assert (it' = it) by congruence. subst it'.
  destruct (flexibleb it0 (nth_error (items h0) (S k))).
  - destruct Hcase as [f ->]. split; [reflexivity | discriminate].
  - subst it. rewrite (Hnone it0 (nth_error_In _ _ Hk0)). split; [congruence | discriminate].
Qed.

Lemma flexGroupId_exact_witness :
  flexGroupId sampleX <> None <-> flexible sampleX (nth_error (items sampleA) 1).
Proof.
  assert (Hp : parseMarkdownToGame sampleRandom36 sampleDocument (js "note") (js "note.md")
               = Some sampleGame) by (vm_compute; reflexivity).
  exact (@flexGroupId_exact _ _ _ _ _ sampleA 0 sampleX Hp (or_introl eq_refl) eq_refl).
Defined.

(** X18: two fragments of a parsed heading that follow each other are in
    one flexible group exactly when both are flexible and they have the same
    indentation. *)
Theorem flex_adjacent (rand36 : nat -> jstring) (content fname fpath : jstring)
    (g : GameState) (h : GameHeading) (k : nat) (a b : GameItem) :
  parseMarkdownToGame rand36 content fname fpath = Some g -> In h (headings g) ->
  nth_error (items h) k = Some a -> nth_error (items h) (S k) = Some b ->
  ((exists f, flexGroupId a = Some f /\ flexGroupId b = Some f)
   <-> (flexible a (Some b) /\ flexible b (nth_error (items h) (S (S k)))
        /\ indentation a = indentation b)).
Proof.
  intros Hp Hin Ha Hb.
  destruct (@parsed_flexLoop rand36 _ _ _ _ _ Hp Hin) as (h0 & rng0 & Hnone & Hitems).
  pose proof (@flexLoop_flexed rand36 (title h0) (items h0) 0 (flexInit rng0)) as Hf.
  rewrite <- Hitems in Hf.
  destruct (flexed_fields Hf k Ha) as (a0 & Ha0 & Hsa).
  destruct (flexed_fields Hf (S k) Hb) as (b0 & Hb0 & Hsb).
  pose proof (@flexibleb_out _ _ k a0 a Hf Ha0 Ha) as Hfa. rewrite Hb, Hb0 in Hfa.
  pose proof (@flexibleb_out _ _ (S k) b0 b Hf Hb0 Hb) as Hfb.
  assert (Hia : indentation a = indentation a0)
    by (destruct Hsa as [->|[f ->]]; reflexivity).
  assert (Hib : indentation b = indentation b0)
    by (destruct Hsb as [->|[f ->]]; reflexivity).
  rewrite <- !flexibleb_spec, Hfa, Hfb. split.
  - intros (f & Hga & Hgb).
    destruct (@parsed_run rand36 _ _ _ _ h (S k) b f Hp Hin Hb Hgb)
      as (t & s & r & Hs & Hid & Hrun & Hall).
    destruct (Hall k a f Ha Hga) as (s' & r' & Hs' & Hid').
    rewrite Hid in Hid'. apply flexId_index in Hid'. subst s'.
    destruct (Hrun k) as (x & Hx & _ & Hix); [lia|].
    assert (x = a) by congruence. subst x.
    assert (Ea : flexGroupId a <> None) by congruence.
    assert (Eb : flexGroupId b <> None) by congruence.
    split; [|split; [|assumption]].
    + destruct (@flexLoop_exact rand36 (title h0) (items h0) 0 (flexInit rng0) k a0 Ha0)
        as (a' & Ha' & Hcase).
      rewrite <- Hitems in Ha'. assert (a' = a) by congruence. subst a'.
      rewrite Hb0 in Hcase. destruct (flexibleb a0 (Some b0)); [reflexivity|].
      subst a. now rewrite (Hnone a0 (nth_error_In _ _ Ha0)) in Ea.
    + destruct (@flexLoop_exact rand36 (title h0) (items h0) 0 (flexInit rng0) (S k) b0 Hb0)
        as (b' & Hb' & Hcase).
      rewrite <- Hitems in Hb'. assert (b' = b) by congruence. subst b'.
      destruct (flexibleb b0 (nth_error (items h0) (S (S k)))); [reflexivity|].
      subst b. now rewrite (Hnone b0 (nth_error_In _ _ Hb0)) in Eb.
  - intros (H1 & H2 & H3).
    destruct (@flexLoop_adjacent rand36 (title h0) (items h0) 0 (flexInit rng0) k a0 b0
                Ha0 Hb0 H1 H2) as (f & Hoa & Hob); [congruence|].
    rewrite <- Hitems in Hoa, Hob. exists f.
    assert (a = setFlexGroupId a0 f) by congruence.
    assert (b = setFlexGroupId b0 f) by congruence.
    subst a b. auto.
Qed.

Lemma flex_adjacent_witness :
  (exists f, flexGroupId sampleX = Some f /\ flexGroupId sampleY = Some f)
  <-> (flexible sampleX (Some sampleY) /\ flexible sampleY (nth_error (items sampleA) 2)
       /\ indentation sampleX = indentation sampleY).
Proof.
  assert (Hp : parseMarkdownToGame sampleRandom36 sampleDocument (js "note") (js "note.md")
               = Some sampleGame) by (vm_compute; reflexivity).
  exact (@flex_adjacent _ _ _ _ _ sampleA 0 sampleX sampleY Hp (or_introl eq_refl)
           eq_refl eq_refl).
Defined.

(** X19: a flexible group is a run.  If two fragments of a parsed heading
    carry the same flexGroupId, every fragment between them carries it too,
    and all of them have the same indentation. *)
Theorem flex_group_is_run (rand36 : nat -> jstring) (content fname fpath : jstring)
    (g : GameState) (h : GameHeading) (k1 k2 : nat) (a b : GameItem) (f : jstring) :
  parseMarkdownToGame rand36 content fname fpath = Some g -> In h (headings g) ->
  k1 <= k2 ->
  nth_error (items h) k1 = Some a -> nth_error (items h) k2 = Some b ->
  flexGroupId a = Some f -> flexGroupId b = Some f ->
  forall m, k1 <= m <= k2 ->
            exists x, nth_error (items h) m = Some x /\ flexGroupId x = Some f
                      /\ indentation x = indentation a.
Proof.
  intros Hp Hin Hle Ha Hb Hga Hgb m Hm.
  destruct (@parsed_run rand36 _ _ _ _ h k2 b f Hp Hin Hb Hgb)
    as (t & s & r & Hs & Hid & Hrun & Hall).
  destruct (Hall k1 a f Ha Hga) as (s' & r' & Hs' & Hid').
  rewrite Hid in Hid'. apply flexId_index in Hid'. subst s'.
  destruct (Hrun k1) as (x & Hx & _ & Hix); [lia|].
  assert (x = a) by congruence. subst x.
  destruct (Hrun m) as (y & Hy & Hgy & Hiy); [lia|].
  exists y. split; [assumption|]. split; [assumption | congruence].
Qed.

Lemma flex_group_is_run_witness :
  exists x, nth_error (items sampleA) 1 = Some x
            /\ flexGroupId x = flexGroupId sampleX
            /\ indentation x = indentation sampleX.
Proof.
  assert (Hp : parseMarkdownToGame sampleRandom36 sampleDocument (js "note") (js "note.md")
               = Some sampleGame) by (vm_compute; reflexivity).
  assert (Hle : 0 <= 1) by lia.
  assert (Hm : 0 <= 1 <= 1) by lia.
  exact (@flex_group_is_run _ _ _ _ _ sampleA 0 1 sampleX sampleY _ Hp
           (or_introl eq_refl) Hle eq_refl eq_refl eq_refl eq_refl 1 Hm).
Defined.

(** ** The text of a row *)

Lemma accepts_ext (r : regex) :
  forall s k1 k2, (forall x, k1 x = k2 x) -> accepts r s k1 = accepts r s k2.
Proof.
  induction r as [|p|a IHa b IHb|a IHa b IHb|a IHa]; intros s k1 k2 H; cbn [accepts].
  - apply H.
  - destruct s as [|c s]; [reflexivity | now rewrite H].
  - apply IHa. intro x. now apply IHb.
  - now rewrite (IHa s k1 k2 H), (IHb s k1 k2 H).
  - generalize (List.length s) as fuel. intro fuel. revert s.
    induction fuel as [|fuel IH]; intro s; [apply H|].
    rewrite (H s). f_equal. apply IHa. intro x.
    destruct (Nat.ltb (List.length x) (List.length s)); [apply IH | reflexivity].
Qed.

(** The two matchers agree on whether there is a match. *)
Lemma accepts_matchRest (A : Type) (r : regex) :
  forall s (k : jstring -> option A),
    accepts r s (fun x => isSome (k x)) = isSome (matchRest r s k).
Proof.
  induction r as [|p|a IHa b IHb|a IHa b IHb|a IHa]; intros s k;
    cbn [accepts matchRest].
  - reflexivity.
  - destruct s as [|c s]; [reflexivity|]. now destruct (p c).
  - rewrite <- IHa. apply accepts_ext. intro x. apply IHb.
  - rewrite IHa, IHb. now destruct (matchRest a s k).
  - generalize (List.length s) as fuel. intro fuel. revert s.
    induction fuel as [|fuel IH]; intro s; [reflexivity|].
    rewrite (accepts_ext a s _
               (fun x => isSome (if Nat.ltb (List.length x) (List.length s)
                                 then (fix iter (fuel0 : nat) (s0 : jstring) {struct fuel0}
                                         : option A :=
                                         match fuel0 with
                                         | O => k s0
                                         | S fuel' =>
                                             match
                                               matchRest a s0
                                                 (fun s' =>
                                                    if Nat.ltb (List.length s')
                                                               (List.length s0)
                                                    then iter fuel' s' else None)
                                             with
                                             | Some x0 => Some x0
                                             | None => k s0
                                             end
                                         end) fuel x
                                 else None))).
    + rewrite IHa. now destruct (matchRest a s _).
    + intro x. destruct (Nat.ltb (List.length x) (List.length s)); [apply IH | reflexivity].
Qed.

Lemma matchRest_star_cons (A : Type) (p : char16 -> bool) (c : char16) (s : jstring)
    (k : jstring -> option A) :
  matchRest (Star (Chr p)) (c :: s) k
  = if p c then match matchRest (Star (Chr p)) s k with
                | Some x => Some x
                | None => k (c :: s)
                end
    else k (c :: s).
Proof.
  cbn [matchRest List.length].
  assert (E : Nat.ltb (List.length s) (S (List.length s)) = true)
    by (apply Nat.ltb_lt; lia).
  rewrite E. now destruct (p c).
Qed.

(** When what follows the star cannot start with a character of the class,
    the star takes all of them. *)
Lemma matchRest_star_all (A : Type) (p : char16 -> bool) (k : jstring -> option A)
    (s : jstring) :
  (forall c r, p c = true -> k (c :: r) = None) ->
  matchRest (Star (Chr p)) s k = k (dropWhile p s).
Proof.
  intro Hk. induction s as [|c s IH]; [reflexivity|].
  rewrite matchRest_star_cons. cbn [dropWhile]. destruct (p c) eqn:E; [|reflexivity].
  rewrite IH. destruct (k (dropWhile p s)); [reflexivity | now apply Hk].
Qed.

(** A star at the end of the pattern takes all it can. *)
Lemma matchRest_star_last (p : char16 -> bool) (s : jstring) :
  matchRest (Star (Chr p)) s (fun rest => Some rest) = Some (dropWhile p s).
Proof.
  induction s as [|c s IH]; [reflexivity|].
  rewrite matchRest_star_cons. cbn [dropWhile]. destruct (p c); [now rewrite IH | reflexivity].
Qed.

Lemma takeWhile_dropWhile (p : char16 -> bool) (s : jstring) :
  takeWhile p s ++ dropWhile p s = s.
Proof.
  induction s as [|c s IH]; [reflexivity|]. simpl. destruct (p c); [|reflexivity].
  simpl. now rewrite IH.
Qed.

Lemma takeWhile_all (p : char16 -> bool) (s : jstring) : forallb p (takeWhile p s) = true.
Proof.
  induction s as [|c s IH]; [reflexivity|]. simpl. destruct (p c) eqn:E; [|reflexivity].
  simpl. now rewrite E.
Qed.

Lemma dropWhile_stop (p : char16 -> bool) (s : jstring) :
  dropWhile p (dropWhile p s) = dropWhile p s.
Proof.
  induction s as [|c s IH]; [reflexivity|]. simpl. destruct (p c) eqn:E; [exact IH|].
  simpl. now rewrite E.
Qed.

Lemma bullet_no_digit (c : char16) : is_bullet c = true -> is_digit c = false.
Proof.
  unfold is_bullet, is_char. intro H.
  repeat (apply orb_true_iff in H as [H|H]); apply N.eqb_eq in H; now subst c.
Qed.

Lemma dot_no_digit (c : char16) : is_digit c = true -> is_char "." c = false.
Proof.
  unfold is_digit, is_char. intro H. apply andb_true_iff in H as [E1 E2].
  apply N.leb_le in E1. apply N.eqb_neq. simpl. lia.
Qed.

Lemma matchRest_seq (A : Type) (a b : regex) (s : jstring) (k : jstring -> option A) :
  matchRest (Seq a b) s k = matchRest a s (fun s' => matchRest b s' k).
Proof. reflexivity. Qed.

Lemma matchRest_alt (A : Type) (a b : regex) (s : jstring) (k : jstring -> option A) :
  matchRest (Alt a b) s k
  = match matchRest a s k with
    | Some x => Some x
    | None => matchRest b s k
    end.
Proof. reflexivity. Qed.

Lemma matchRest_chr (A : Type) (p : char16 -> bool) (s : jstring)
    (k : jstring -> option A) :
  matchRest (Chr p) s k
  = match s with
    | c :: s' => if p c then k s' else None
    | [] => None
    end.
Proof. reflexivity. Qed.

(** The white space after the marker: at least one, and all there is. *)
Lemma plus_ws_rest (s : jstring) :
  matchRest (Plus (Chr is_ws)) s (fun rest => Some rest)
  = match s with
    | w :: r => if is_ws w then Some (dropWhile is_ws r) else None
    | [] => None
    end.
Proof.
  unfold Plus. rewrite matchRest_seq, matchRest_chr. destruct s as [|w r]; [reflexivity|].
  destruct (is_ws w); [apply matchRest_star_last | reflexivity].
Qed.

(** Where the list pattern ends, read off the text. *)
Lemma listRegex_rest (text : jstring) :
  matchRest listRegex text (fun rest => Some rest)
  = match dropWhile is_ws text with
    | c :: r =>
        if is_bullet c then matchRest (Plus (Chr is_ws)) r (fun rest => Some rest)
        else if is_digit c then
          match dropWhile is_digit r with
          | d :: r2 =>
              if is_char "." d
              then matchRest (Plus (Chr is_ws)) r2 (fun rest => Some rest)
              else None
          | [] => None
          end
        else None
    | [] => None
    end.
Proof.
  unfold listRegex. rewrite matchRest_seq.
  assert (Hgroup : forall s,
            matchRest (Seq (Alt (Chr is_bullet)
                                (Seq (Plus (Chr is_digit)) (Chr (is_char "."))))
                           (Plus (Chr is_ws))) s (fun rest => Some rest)
            = match s with
              | c :: r =>
                  if is_bullet c
                  then matchRest (Plus (Chr is_ws)) r (fun rest => Some rest)
                  else if is_digit c then
                    match dropWhile is_digit r with
                    | d :: r2 =>
                        if is_char "." d
                        then matchRest (Plus (Chr is_ws)) r2 (fun rest => Some rest)
                        else None
                    | [] => None
                    end
                  else None
              | [] => None
              end).
  { intro s. rewrite matchRest_seq, matchRest_alt, matchRest_chr.
    change (Plus (Chr is_digit)) with (Seq (Chr is_digit) (Star (Chr is_digit))).
    rewrite !matchRest_seq, matchRest_chr.
    destruct s as [|c r]; [reflexivity|].
    destruct (is_bullet c) eqn:Eb.
    - rewrite (bullet_no_digit c Eb).
      now destruct (matchRest (Plus (Chr is_ws)) r _).
    - destruct (is_digit c) eqn:Ed; [|reflexivity].
      rewrite matchRest_star_all.
      + now rewrite matchRest_chr.
      + intros d r2 Hd. rewrite matchRest_chr. now rewrite (dot_no_digit d Hd). }
  rewrite matchRest_star_all.
  - apply Hgroup.
  - intros c r Hc. rewrite Hgroup.
    destruct (is_bullet c) eqn:Eb; [apply bullet_no_ws in Eb; congruence|].
    destruct (is_digit c) eqn:Ed; [apply digit_no_ws in Ed; congruence|].
    reflexivity.
Qed.

(** What [cleanText] cuts off is the leading white space, the marker and the
    white space after it; a text the list pattern does not match is left as
    it is. *)
Lemma cleanText_marker (text : jstring) :
  if matchPrefix listRegex text
  then exists ws, text = takeWhile is_ws text ++ listMarkerOf text ++ ws ++ cleanText text
                  /\ ws <> [] /\ forallb is_ws ws = true
                  /\ dropWhile is_ws (cleanText text) = cleanText text
  else cleanText text = text.
Proof.
  unfold matchPrefix.
  rewrite (accepts_ext listRegex text _ (fun x => isSome (Some x))) by reflexivity.
  rewrite accepts_matchRest. unfold cleanText.
  remember (matchRest listRegex text (fun rest => Some rest)) as m eqn:Hm.
  rewrite listRegex_rest in Hm.
  pose proof (takeWhile_dropWhile is_ws text) as Hsplit. unfold listMarkerOf.
  assert (Hws : forall r, match matchRest (Plus (Chr is_ws)) r (fun rest => Some rest) with
                          | Some rest =>
                              exists ws, r = ws ++ rest /\ ws <> []
                                         /\ forallb is_ws ws = true
                                         /\ dropWhile is_ws rest = rest
                          | None => True
                          end).
  { intro r. rewrite plus_ws_rest. destruct r as [|w r]; [exact I|].
    destruct (is_ws w) eqn:Ew; [|exact I].
    exists (w :: takeWhile is_ws r). simpl. rewrite takeWhile_dropWhile, Ew, takeWhile_all.
    repeat split; [discriminate | apply dropWhile_stop]. }
  destruct (dropWhile is_ws text) as [|c r]; [now subst m|].
  destruct (is_bullet c) eqn:Eb.
  - specialize (Hws r).
    destruct (matchRest (Plus (Chr is_ws)) r _) as [rest|]; subst m; [|reflexivity]. simpl.
    destruct Hws as (ws & -> & H1 & H2 & H3). exists ws.
    split; [now rewrite <- Hsplit at 1 | auto].
  - destruct (is_digit c) eqn:Ed; [|now subst m].
    pose proof (takeWhile_dropWhile is_digit (c :: r)) as Hd. cbn [dropWhile] in Hd.
    rewrite Ed in Hd.
    destruct (dropWhile is_digit r) as [|d r2]; [now subst m|].
    destruct (is_char "." d) eqn:Edot; [|now subst m].
    specialize (Hws r2).
    destruct (matchRest (Plus (Chr is_ws)) r2 _) as [rest|]; subst m; [|reflexivity]. simpl.
    destruct Hws as (ws & -> & H1 & H2 & H3). exists ws.
    split; [|auto].
    apply N.eqb_eq in Edot. subst d.
    rewrite <- Hsplit at 1. f_equal. rewrite <- Hd at 1.
    rewrite <- !app_assoc. reflexivity.
Qed.

(** X20: the row of a fragment shows its marker once.  For every fragment
    of a parsed game with a [listMarker], the text is some white space, the
    marker, at least one white space and the text [getRenderedHTML] renders,
    which does not start with a white space; a fragment without a
    [listMarker] is rendered with its text as it is. *)
Theorem row_text_strips_marker (rand36 : nat -> jstring) (content fname fpath : jstring)
    (g : GameState) (h : GameHeading) (it : GameItem) :
  parseMarkdownToGame rand36 content fname fpath = Some g ->
  In h (headings g) -> In it (items h) ->
  match listMarker it with
  | Some m =>
      exists ws, text it = takeWhile is_ws (text it) ++ m ++ ws ++ cleanText (text it)
                 /\ ws <> [] /\ forallb is_ws ws = true
                 /\ dropWhile is_ws (cleanText (text it)) = cleanText (text it)
  | None => cleanText (text it) = text it
  end.
Proof.
  intros Hp Hin Hit.
  destruct (@parsed_heading rand36 _ _ _ _ _ Hp Hin) as (h0 & _ & Hn & _ & Hf).
  apply In_nth_error in Hit as [k Hk].
  destruct (flexed_fields Hf k Hk) as (it0 & Hk0 & Hsame).
  destruct (Hn it0 (nth_error_In _ _ Hk0)) as (_ & Hli & Hlm).
  assert (Ht : text it = text it0) by (destruct Hsame as [->|[f ->]]; reflexivity).
  assert (Hm : listMarker it = listMarker it0)
    by (destruct Hsame as [->|[f ->]]; reflexivity).
  rewrite Hm, Hlm, Hli, Ht. pose proof (cleanText_marker (text it0)) as Hc.
  destruct (matchPrefix listRegex (text it0)); exact Hc.
Qed.

Lemma row_text_strips_marker_witness :
  exists ws, text numberedItem
             = takeWhile is_ws (text numberedItem) ++ js "12." ++ ws
                 ++ cleanText (text numberedItem)
             /\ ws <> [] /\ forallb is_ws ws = true
             /\ dropWhile is_ws (cleanText (text numberedItem))
                = cleanText (text numberedItem).
Proof.
  assert (Hp : parseMarkdownToGame sampleRandom36 numberedDocument (js "note")
                 (js "note.md") = Some numberedGame) by (vm_compute; reflexivity).
  exact (@row_text_strips_marker _ _ _ _ _ numberedHeading numberedItem Hp
           (or_introl eq_refl) (or_introl eq_refl)).
Defined.

(** ** The pool follows the slots *)

Lemma idsInSlots_fill (s : list (option GameItem)) (pill : GameItem) (y : jstring) :
  forall idx, nth_error s idx = Some None ->
    (In y (idsInSlots (setNth s idx (Some pill))) <-> y = id pill \/ In y (idsInSlots s)).
Proof.
  induction s as [|x s IH]; intros [|idx] H; simpl in *; try discriminate.
  - injection H as ->. simpl. split; intros [E|E]; auto.
  - destruct x as [it|]; simpl; rewrite (IH idx H); tauto.
Qed.

Lemma idsInSlots_clear (s : list (option GameItem)) (y : jstring) :
  forall idx, In y (idsInSlots (setNth s idx None)) -> In y (idsInSlots s).
Proof.
  induction s as [|x s IH]; intros [|idx] H; simpl in *; try assumption.
  - destruct x; [now right | assumption].
  - destruct x as [it|]; simpl in *; [destruct H as [H|H]; eauto | eauto].
Qed.

Lemma inSlots_spec (s : list (option GameItem)) (y : jstring) :
  setHas jseq (newSet jseq (idsInSlots s)) y = true <-> In y (idsInSlots s).
Proof. now rewrite setHas_jseq, newSet_jseq_In. Qed.

Lemma filter_filter (A : Type) (p q : A -> bool) (l : list A) :
  filter p (filter q l) = filter (fun x => q x && p x) l.
Proof.
  induction l as [|x l IH]; [reflexivity|]. simpl.
  destruct (q x); simpl; [destruct (p x)|]; now rewrite IH.
Qed.

(** X21: a pill placed in a slot leaves the pool, and nothing else in the
    pool changes: after a click on a drop zone with a pill selected, the
    pills shown are those shown before, in the same order, without the ones
    that have the id of the placed pill; and no pill is selected any more. *)
Theorem pool_after_drop (idx : nat) (v v' : View) (st st' : GameState)
    (pill : GameItem) :
  handle (ClickDropZone idx) v = Some v' ->
  state v = Some st -> state v' = Some st' -> selectedPill v = Some pill ->
  currentPool st'
  = filter (fun x => negb (jseq (id x) (id pill))) (currentPool st)
  /\ ~ In pill (currentPool st')
  /\ selectedPill v' = None.
Proof.
  intros H Hst Hst' Hsel. unfold handle in H. rewrite Hst, Hsel in H.
  destruct (activeHeadingIndex st) as [a|]; [|discriminate].
  destruct (nth_error (headings st) a) as [heading|]; [|discriminate].
  destruct (nth_error (slots st) idx) as [[it|]|] eqn:Es; try discriminate.
  destruct (rowShown st heading idx); [|discriminate].
  assert (Hpool : poolItems st' = poolItems st
                  /\ slots st' = setNth (slots st) idx (Some pill)
                  /\ selectedPill v' = None).
  { destruct (checkWinCondition _ heading) as [[h' b]|];
      injection H as <-; simpl in Hst'; injection Hst' as <-; auto. }
  destruct Hpool as (Hp & Hs & Hnone).
  assert (Heq : currentPool st'
                = filter (fun x => negb (jseq (id x) (id pill))) (currentPool st)).
  { unfold currentPool. rewrite Hp, Hs, filter_filter. apply filter_ext. intro x.
    destruct (setHas jseq (newSet jseq (idsInSlots (setNth (slots st) idx (Some pill))))
                     (id x)) eqn:E1;
      destruct (setHas jseq (newSet jseq (idsInSlots (slots st))) (id x)) eqn:E2;
      destruct (jseq (id x) (id pill)) eqn:E3; try reflexivity; exfalso.
    - apply inSlots_spec, (idsInSlots_fill _ pill _ idx Es) in E1.
      destruct E1 as [E1|E1]; [rewrite E1, jseq_refl in E3; discriminate|].
      apply inSlots_spec in E1. congruence.
    - apply inSlots_spec in E2.
      assert (E : In (id x) (idsInSlots (setNth (slots st) idx (Some pill))))
        by (apply (idsInSlots_fill _ pill _ idx Es); now right).
      apply inSlots_spec in E. congruence.
    - apply inSlots_spec in E2.
      assert (E : In (id x) (idsInSlots (setNth (slots st) idx (Some pill))))
        by (apply (idsInSlots_fill _ pill _ idx Es); now right).
      apply inSlots_spec in E. congruence.
    - apply jseq_true in E3.
      assert (E : In (id x) (idsInSlots (setNth (slots st) idx (Some pill))))
        by (apply (idsInSlots_fill _ pill _ idx Es); now left).
      apply inSlots_spec in E. congruence. }
  split; [exact Heq|]. split; [|exact Hnone].
  rewrite Heq. intro Hin. apply filter_In in Hin as [_ Hin].
  now rewrite jseq_refl in Hin.
Qed.

Lemma pool_after_drop_witness :
  currentPool afterWinState
  = filter (fun x => negb (jseq (id x) (id (nth 0 (items sampleB) sampleX))))
           (currentPool beforeWinState)
  /\ ~ In (nth 0 (items sampleB) sampleX) (currentPool afterWinState)
  /\ selectedPill afterWin = None.
Proof.
  assert (H : handle (ClickDropZone 0) beforeWin = Some afterWin)
    by (vm_compute; reflexivity).
  exact (@pool_after_drop 0 beforeWin afterWin beforeWinState afterWinState
           (nth 0 (items sampleB) sampleX) H eq_refl eq_refl eq_refl).
Defined.

(** X22: a fragment taken out of a slot takes nothing from the pool: after a
    click on a fragment in a slot, every pill shown before is still shown,
    and a pill shown only now has the id of the fragment taken out. *)
Theorem pool_after_remove (idx : nat) (v v' : View) (st st' : GameState)
    (it : GameItem) :
  handle (ClickItem idx) v = Some v' ->
  state v = Some st -> state v' = Some st' ->
  nth_error (slots st) idx = Some (Some it) ->
  nth_error (slots st') idx = Some None
  /\ (forall x, In x (currentPool st) -> In x (currentPool st'))
  /\ (forall x, In x (currentPool st') -> In x (currentPool st) \/ id x = id it).
Proof.
  intros H Hst Hst' Hit. unfold handle in H. rewrite Hst, Hit in H.
  destruct (activeHeadingIndex st) as [a|]; [|discriminate].
  destruct (nth_error (headings st) a) as [heading|]; [|discriminate].
  destruct (_ && _); [|discriminate]. injection H as <-.
  simpl in Hst'. injection Hst' as <-. cbn [slots setSlots].
  assert (Hlt : idx < List.length (slots st)) by (apply nth_error_Some; congruence).
  split; [now apply setNth_same|].
  unfold currentPool. cbn [slots setSlots poolItems]. split; intros x Hx;
    apply filter_In in Hx as [Hin Hx].
  - apply filter_In. split; [assumption|].
    destruct (setHas jseq (newSet jseq (idsInSlots (setNth (slots st) idx None))) (id x))
      eqn:E; [|reflexivity].
    exfalso. apply inSlots_spec, idsInSlots_clear, inSlots_spec in E.
    rewrite E in Hx. discriminate.
  - destruct (setHas jseq (newSet jseq (idsInSlots (slots st))) (id x)) eqn:E.
    + right. apply inSlots_spec, idsInSlots_In in E as (j & it' & Hj & Hid).
      destruct (Nat.eq_dec j idx) as [->|Hne]; [congruence|]. exfalso.
      assert (E' : In (id x) (idsInSlots (setNth (slots st) idx None))).
      { apply idsInSlots_In. exists j, it'. rewrite setNth_other by assumption. auto. }
      apply inSlots_spec in E'. rewrite E' in Hx. discriminate.
    + left. apply filter_In. split; [assumption | now rewrite E].
Qed.

Lemma pool_after_remove_witness :
  nth_error (slots (setSlots afterWinState (setNth (slots afterWinState) 0 None))) 0
  = Some None
  /\ (forall x, In x (currentPool afterWinState) ->
                In x (currentPool (setSlots afterWinState
                                            (setNth (slots afterWinState) 0 None))))
  /\ (forall x, In x (currentPool (setSlots afterWinState
                                            (setNth (slots afterWinState) 0 None))) ->
                In x (currentPool afterWinState)
                \/ id x = id (nth 0 (items sampleB) sampleX)).
Proof.
  assert (H : handle (ClickItem 0) afterWin
              = Some (mkView (Some (setSlots afterWinState
                                             (setNth (slots afterWinState) 0 None)))
                             None 1))
    by (vm_compute; reflexivity).
  exact (@pool_after_remove 0 afterWin _ afterWinState _ (nth 0 (items sampleB) sampleX)
           H eq_refl eq_refl eq_refl).
Defined.

(** ** The kinds of fragments *)

Lemma kindOk_block (it : GameItem) (b : jstring) :
  blockId it = Some b -> isSubHeading it = false -> isBlockId b -> b <> [] -> kindOk it.
Proof.
  intros Hb Hs Hid Hne. split; [congruence|]. split; [eauto|]. split; [|congruence].
  intros b' Hb'. assert (b' = b) by congruence. subst b'. auto.
Qed.

Lemma kindOk_blockOf (lines : list jstring) (i nStatic : nat) (bId marker : jstring)
    (new : list GameItem) :
  blockOf lines i bId nStatic marker new -> isBlockId bId -> bId <> [] ->
  Forall kindOk new.
Proof.
  intros [_ H] Hid Hne. apply Forall_forall. intros it Hin.
  apply In_nth_error in Hin as [k Hk].
  destruct (H k it Hk) as (_ & Hb & _ & Hs & _).
  exact (kindOk_block it Hb Hs Hid Hne).
Qed.

Section Kinds.

Variable rand36 : nat -> jstring.
Variable lines : list jstring.

Lemma turn_kinds (st st' : PState) (line : jstring) :
  turn rand36 lines st line st' ->
  Forall (fun h => Forall kindOk (items h)) (ps_headings st ++ [ps_current st]) ->
  Forall (fun h => Forall kindOk (items h)) (ps_headings st' ++ [ps_current st']).
Proof.
  intros Ht Hinv. pose proof Hinv as Hall.
  apply Forall_app in Hinv as [Hhs Hcur].
  inversion Hcur as [|? ? Hc _]; subst.
  assert (Hadd : forall cur', (exists new, items cur' = items (ps_current st) ++ new
                                          /\ Forall kindOk new) ->
            Forall (fun h => Forall kindOk (items h)) (ps_headings st ++ [cur'])).
  { intros cur' (new & Hi & Hnew). apply Forall_app. split; [assumption|].
    constructor; [|constructor]. rewrite Hi. apply Forall_app. auto. }
  destruct Ht as [Hl|level t Hm Hlevel|level t Hm Hlevel
                  |cur' rng' new Hne Hm Hts Hp Hb|cur' rng' new Hne Hm Hts Hcs Hp Hb
                  |Hne Hm Hts Hcs]; cbn [ps_headings ps_current].
  - exact Hall.
  - apply Forall_app. split; [|repeat constructor].
    destruct (0 <? _); assumption.
  - apply Hadd. eexists. split; [reflexivity|]. constructor; [|constructor].
    repeat split; simpl; try discriminate; try congruence. eauto.
  - apply Hadd. exists new. split; [apply (pushed_rowsAdded Hp)|].
    apply (kindOk_blockOf Hb); [eexists; left; reflexivity | discriminate].
  - apply Hadd. exists new. split; [apply (pushed_rowsAdded Hp)|].
    apply (kindOk_blockOf Hb); [eexists; right; reflexivity | discriminate].
  - apply Hadd. eexists. split; [reflexivity|]. constructor; [|constructor].
    repeat split; simpl; try discriminate; try congruence.
Qed.

Lemma reaches_kinds (st : PState) :
  reaches rand36 lines st ->
  Forall (fun h => Forall kindOk (items h)) (ps_headings st ++ [ps_current st]).
Proof.
  induction 1 as [|st Hr IH Hi]; [repeat constructor|].
  destruct (reaches_turn rand36 lines st Hi) as (line & Hline & Ht).
  exact (turn_kinds Ht IH).
Qed.

End Kinds.

(** X23: the fragments of a parsed game are of three kinds.  A sub-heading
    is a heading line of level 3 or more, is not static and is in no block;
    a static fragment is always in a block; a block id is [table-] or
    [callout-] followed by a line number, never the empty string, and no
    member of a block is a sub-heading; and a fragment that is neither a
    sub-heading nor in a block is no heading line. *)
Theorem fragment_kinds (rand36 : nat -> jstring) (content fname fpath : jstring)
    (g : GameState) (h : GameHeading) (it : GameItem) :
  parseMarkdownToGame rand36 content fname fpath = Some g ->
  In h (headings g) -> In it (items h) ->
  (isSubHeading it = true ->
   isStatic it = false /\ blockId it = None
   /\ exists level t, headingMatch (text it) = Some (level, t) /\ 2 < level)
  /\ (isStatic it = true -> exists b, blockId it = Some b)
  /\ (forall b, blockId it = Some b -> isSubHeading it = false /\ isBlockId b /\ b <> [])
  /\ (isSubHeading it = false -> blockId it = None -> headingMatch (text it) = None).
Proof.
  intros Hp Hin Hit.
  destruct (@parse_result rand36 _ _ _ _ Hp) as (st & Hr & _ & Hg).
  rewrite Hg in Hin.
  destruct (@Forall2_In_r _ _ _ _ _ h (@flexPass_flexed rand36 _ (ps_rng st)) Hin)
    as (h0 & Hin0 & _ & _ & Hf).
  pose proof (reaches_kinds Hr) as Hk. rewrite Forall_forall in Hk.
  specialize (Hk h0 Hin0). rewrite Forall_forall in Hk.
  apply In_nth_error in Hit as [k Hnth].
  destruct (flexed_fields Hf k Hnth) as (it0 & Hk0 & Hsame).
  specialize (Hk it0 (nth_error_In _ _ Hk0)).
  destruct Hsame as [->|[f ->]]; exact Hk.
Qed.

Lemma fragment_kinds_witness :
  (isSubHeading kindsSeparator = true ->
   isStatic kindsSeparator = false /\ blockId kindsSeparator = None
   /\ exists level t, headingMatch (text kindsSeparator) = Some (level, t) /\ 2 < level)
  /\ (isStatic kindsSeparator = true -> exists b, blockId kindsSeparator = Some b)
  /\ (forall b, blockId kindsSeparator = Some b ->
                isSubHeading kindsSeparator = false /\ isBlockId b /\ b <> [])
  /\ (isSubHeading kindsSeparator = false -> blockId kindsSeparator = None ->
      headingMatch (text kindsSeparator) = None).
Proof.
  assert (Hp : parseMarkdownToGame sampleRandom36 kindsDocument (js "note") (js "note.md")
               = Some kindsGame) by (vm_compute; reflexivity).
  assert (Hit : In kindsSeparator (items kindsHeading)) by (right; right; now left).
  exact (@fragment_kinds _ _ _ _ _ kindsHeading kindsSeparator Hp (or_introl eq_refl) Hit).
Defined.

(** ** The evaluator on the groups of a parsed document *)

(** C1: for every group of a parsed document, every slot index [i] within
    range and every slot content [s], [isSlotCorrect] returns (it does not
    throw); it is false when the slot is empty; it is true when the slot
    fragment has [originalIndex = i] and [originalHeading = group.title];
    otherwise it is true exactly when the fragment parsed at index [i] has a
    flexGroupId and the slot fragment has the same flexGroupId; in all
    remaining cases it is false. *)
Theorem isSlotCorrect_characterised (rand36 : nat -> jstring)
    (content fname fpath : jstring) (g : GameState) (h : GameHeading) (i : nat)
    (s : option GameItem) :
  parseMarkdownToGame rand36 content fname fpath = Some g ->
  In h (headings g) -> i < List.length (items h) ->
  (exists b, isSlotCorrect s i h = Returns b)
  /\ (s = None -> isSlotCorrect s i h = Returns false)
  /\ (forall it, s = Some it -> exactPosition it i h ->
        isSlotCorrect s i h = Returns true)
  /\ (forall it, s = Some it -> ~ exactPosition it i h ->
        (isSlotCorrect s i h = Returns true <-> sameFlexGroup it i h))
  /\ (forall it, s = Some it -> ~ exactPosition it i h -> ~ sameFlexGroup it i h ->
        isSlotCorrect s i h = Returns false).
Proof.
  intros Hp Hin Hi.
  assert (Hflex : forall it, sameNonEmptyFlexGroup it i h <-> sameFlexGroup it i h).
  { intro it. split.
    - intros (o & f & Ho & Hf & _ & Hit). exists o, f. auto.
    - intros (o & f & Ho & Hf & Hit). exists o, f.
      split; [assumption|]. split; [assumption|]. split; [|assumption].
      destruct (@parsed_flex_prefixed rand36 _ _ _ _ h o f Hp Hin
                  (nth_error_In _ _ Ho) Hf) as [x ->].
      discriminate. }
  split; [now apply isSlotCorrect_returns|]. split; [now intros ->|].
  split; [|split].
  - intros it -> H. apply isSlotCorrect_true. now left.
  - intros it -> N. rewrite isSlotCorrect_true, Hflex. tauto.
  - intros it -> N F.
    destruct (@isSlotCorrect_returns (Some it) i h Hi) as [[|] Hb]; [|exact Hb].
    exfalso. apply isSlotCorrect_true in Hb. rewrite Hflex in Hb. tauto.
Qed.

Lemma isSlotCorrect_characterised_witness :
  (exists b, isSlotCorrect (Some sampleY) 0 sampleA = Returns b)
  /\ (Some sampleY = None -> isSlotCorrect (Some sampleY) 0 sampleA = Returns false)
  /\ (forall it, Some sampleY = Some it -> exactPosition it 0 sampleA ->
        isSlotCorrect (Some sampleY) 0 sampleA = Returns true)
  /\ (forall it, Some sampleY = Some it -> ~ exactPosition it 0 sampleA ->
        (isSlotCorrect (Some sampleY) 0 sampleA = Returns true
         <-> sameFlexGroup it 0 sampleA))
  /\ (forall it, Some sampleY = Some it -> ~ exactPosition it 0 sampleA ->
        ~ sameFlexGroup it 0 sampleA ->
        isSlotCorrect (Some sampleY) 0 sampleA = Returns false).
Proof.
  assert (Hp : parseMarkdownToGame sampleRandom36 sampleDocument (js "note") (js "note.md")
               = Some sampleGame) by (vm_compute; reflexivity).
  assert (Hi : 0 < List.length (items sampleA)) by (simpl; lia).
  exact (@isSlotCorrect_characterised _ _ _ _ _ sampleA 0 (Some sampleY) Hp
           (or_introl eq_refl) Hi).
Defined.

(** C2 fails on the code: in ["# A\n- x\n# A\n- y"] the player opens the
    first group, picks from the pool the fragment [- y] of the second group
    and drops it in the only slot.  The slot then holds a fragment that is
    not the fragment parsed at index 0 of the first group (another text,
    another id) and that does not carry its flexGroupId; yet
    [isSlotCorrect] is true of it, the win test holds, the group is marked
    restored and the timer is scheduled. *)
Theorem win_without_original :
  parseMarkdownToGame countingRandom36 twinDocument (js "note") (js "note.md")
    = Some homonymGame
  /\ headings homonymGame = [homonymFirst; homonymSecond]
  /\ run homonymTrace (openView homonymGame) = Some homonymWon
  /\ reachable (openView homonymGame) homonymWon
  /\ state homonymWon = Some homonymWonState
  /\ slots homonymWonState = [Some homonymDecoy]
  /\ items homonymFirst = [homonymOriginal]
  /\ In homonymDecoy (items homonymSecond)
  /\ homonymDecoy <> homonymOriginal
  /\ id homonymDecoy <> id homonymOriginal
  /\ text homonymDecoy <> text homonymOriginal
  /\ flexGroupId homonymDecoy <> flexGroupId homonymOriginal
  /\ ~ sameFlexGroup homonymDecoy 0 homonymFirst
  /\ isSlotCorrect (Some homonymDecoy) 0 homonymFirst = Returns true
  /\ isPerfect (slots homonymWonState) homonymFirst = Returns true
  /\ checkWinCondition (slots homonymWonState) homonymFirst
     = Returns (setRestored homonymFirst, true)
  /\ nth_error (headings homonymWonState) 0 = Some (setRestored homonymFirst)
  /\ pendingTimers homonymWon = 1.
Proof.
  assert (Hrun : run homonymTrace (openView homonymGame) = Some homonymWon)
    by (vm_compute; reflexivity).
  split; [vm_compute; reflexivity|]. split; [reflexivity|].
  split; [exact Hrun|].
  split; [exact (run_reachable homonymTrace (reachable_start _) Hrun)|].
  split; [reflexivity|]. split; [reflexivity|]. split; [reflexivity|].
  split; [now left|]. split; [discriminate|]. split; [discriminate|].
  split; [discriminate|]. split; [discriminate|].
  split; [intros (o & f & Ho & Hf & Hit); injection Ho as <-;
          simpl in Hf, Hit; congruence|].
  repeat split.
Qed.

(** ** Blocks: tables and callouts *)

Lemma Forall2_In_l (A B : Type) (R : A -> B -> Prop) (l : list A) (l' : list B) (x : A) :
  Forall2 R l l' -> In x l -> exists y, In y l' /\ R x y.
Proof.
  induction 1 as [|a b l l' Hab _ IH]; intros Hin; [destruct Hin|].
  destruct Hin as [<-|Hin].
  - exists b. split; [now left | assumption].
  - destruct (IH Hin) as (y & Hy & Hr). exists y. split; [now right | assumption].
Qed.

Lemma flexed_fields_l (its out : list GameItem) :
  flexed its out ->
  forall k it, nth_error its k = Some it ->
    exists it', nth_error out k = Some it'
                /\ (it' = it \/ exists g, it' = setFlexGroupId it g).
Proof.
  induction 1 as [|x rest rest' Hf IH|x g rest rest' Hflex Hf IH]; intros k it Hk.
  - destruct k; discriminate.
  - destruct k as [|k]; [injection Hk as <-; exists x; auto | exact (IH k it Hk)].
  - destruct k as [|k]; [|exact (IH k it Hk)].
    injection Hk as <-. exists (setFlexGroupId x g). split; [reflexivity | right; eauto].
Qed.

Section Blocks.

Variable rand36 : nat -> jstring.
Variable lines : list jstring.

(** The inner loop of a table takes every line up to the first one that does
    not start with a pipe, and no other. *)
Lemma tableRows_index (bId : jstring) (rest : list jstring) :
  forall cur rng i,
    snd (tableRows rand36 rest bId cur rng i)
    = i + List.length (leadingLines pipeLine rest).
Proof.
  induction rest as [|l rest IH]; intros cur rng i; cbn [tableRows leadingLines].
  - simpl. lia.
  - unfold pipeLine at 1. destruct (startsWith (js "|") (trim l)).
    + cbn [pushItem]. rewrite IH. simpl. lia.
    + simpl. lia.
Qed.

(** The inner loop of a callout takes every line up to the first one that
    does not start with [>], and no other. *)
Lemma calloutRows_index (bId : jstring) (rest : list jstring) :
  forall cur rng i,
    snd (calloutRows rand36 rest bId cur rng i)
    = i + List.length (leadingLines quoteLine rest).
Proof.
  induction rest as [|l rest IH]; intros cur rng i; cbn [calloutRows leadingLines].
  - simpl. lia.
  - unfold quoteLine at 1. destruct (startsWith (js ">") (trim l)); cbn [orb].
    + cbn [pushItem]. rewrite IH. simpl. lia.
    + destruct (jseq (trim l) []); simpl; lia.
Qed.

(** A turn that starts a table ends after the last line of the table. *)
Lemma parseStep_table_index (st : PState) (line : jstring) :
  nth_error lines (ps_i st) = Some line ->
  tableStart lines (ps_i st) line = true ->
  ps_i (parseStep rand36 lines st) = ps_i st + tableLength lines (ps_i st).
Proof.
  intros Hline Htab.
  assert (Hp : startsWith (js "|") (trim line) = true)
    by (unfold tableStart in Htab; now apply andb_true_iff in Htab).
  destruct (pipe_no_heading _ Hp) as [Hh Hne].
  unfold parseStep. rewrite Hline, Hh.
  assert (Hblank : jseq (trim line) [] && (List.length line =? 0) = false).
  { destruct line; [now destruct Hne | apply andb_false_r]. }
  rewrite Hblank. fold (tableStart lines (ps_i st) line). rewrite Htab.
  cbn [pushItem].
  pose proof (tableRows_index (js "table-" ++ decimal (ps_i st))
                (skipn (ps_i st + 2) lines)) as Hidx.
  match goal with
  | |- context [tableRows rand36 ?r ?b ?c ?g ?i] =>
      specialize (Hidx c g i); destruct (tableRows rand36 r b c g i) as [[cur3 rng3] i3]
  end.
  cbn [snd] in Hidx. cbn [ps_i]. unfold tableLength. lia.
Qed.

(** A turn that starts a callout ends after the last line of the callout. *)
Lemma parseStep_callout_index (st : PState) (line : jstring) :
  nth_error lines (ps_i st) = Some line ->
  tableStart lines (ps_i st) line = false -> calloutStart line = true ->
  ps_i (parseStep rand36 lines st) = ps_i st + calloutLength lines (ps_i st).
Proof.
  intros Hline Htab Hc.
  destruct (quote_no_heading _ (callout_quote _ Hc)) as [Hh Hne].
  unfold parseStep. rewrite Hline, Hh.
  assert (Hblank : jseq (trim line) [] && (List.length line =? 0) = false).
  { destruct line; [now destruct Hne | apply andb_false_r]. }
  rewrite Hblank. fold (tableStart lines (ps_i st) line). rewrite Htab.
  fold (calloutStart line). rewrite Hc. cbn [pushItem].
  pose proof (calloutRows_index (js "callout-" ++ decimal (ps_i st))
                (skipn (S (ps_i st)) lines)) as Hidx.
  match goal with
  | |- context [calloutRows rand36 ?r ?b ?c ?g ?i] =>
      specialize (Hidx c g i); destruct (calloutRows rand36 r b c g i) as [[cur2 rng2] i2]
  end.
  cbn [snd] in Hidx. cbn [ps_i]. unfold calloutLength. lia.
Qed.

(** The fragments a turn appends are in the group being filled. *)
Lemma blockOf_blockRows (st st' : PState) (new : list GameItem) (i nStatic : nat)
    (bId marker : jstring) :
  rowsAdded (ps_current st) (ps_current st') new ->
  blockOf lines i bId nStatic marker new ->
  blockRows (groupsOf st') lines i (List.length new) nStatic bId.
Proof.
  intros (_ & _ & Hitems) [_ Hblock].
  exists (ps_current st'), (List.length (items (ps_current st))).
  split; [apply in_or_app; right; now left|].
  intros k Hk. destruct (nth_error new k) as [it|] eqn:E;
    [|apply nth_error_None in E; lia].
  exists it. destruct (Hblock k it E) as (H1 & H2 & H3 & H4 & _).
  rewrite Hitems, nth_error_app2 by lia.
  replace (List.length (items (ps_current st)) + k - List.length (items (ps_current st)))
    with k by lia.
  auto.
Qed.

(** A turn drops no fragment: a group that has fragments is still there
    after the turn, with the same fragments at the same indices. *)
Lemma turn_groups_extend (st st' : PState) (line : jstring) (h : GameHeading) :
  turn rand36 lines st line st' ->
  In h (groupsOf st) -> items h <> [] ->
  exists h' extra, In h' (groupsOf st') /\ items h' = items h ++ extra.
Proof.
  intros Ht Hin Hne. unfold groupsOf in *.
  assert (Hsame : In h (ps_headings st) ->
                  forall cur', exists h' extra,
                    In h' (ps_headings st ++ [cur']) /\ items h' = items h ++ extra).
  { intros H cur'. exists h, []. rewrite app_nil_r.
    split; [apply in_or_app; now left | reflexivity]. }
  assert (Hcur : forall cur' new, items cur' = items (ps_current st) ++ new ->
                   exists h' extra,
                     In h' (ps_headings st ++ [cur']) /\ items h' = items h ++ extra).
  { intros cur' new Hi. apply in_app_or in Hin as [Hin|[<-|[]]]; [now apply Hsame|].
    exists cur', new. split; [apply in_or_app; right; now left | exact Hi]. }
  destruct Ht as [Hl|level t Hm Hlevel|level t Hm Hlevel
                  |cur' rng' new _ _ _ Hp _|cur' rng' new _ _ _ _ Hp _|_ _ _ _];
    cbn [ps_headings ps_current].
  - apply (Hcur (ps_current st) []). now rewrite app_nil_r.
  - exists h, []. rewrite app_nil_r. split; [|reflexivity].
    apply in_or_app. left. apply in_app_or in Hin as [Hin|[<-|[]]].
    + destruct (0 <? _); [apply in_or_app; now left | assumption].
    + destruct (items (ps_current st)) eqn:E; [now destruct Hne|].
      simpl. apply in_or_app. right. now left.
  - eapply Hcur. reflexivity.
  - apply (Hcur cur' new). apply (pushed_rowsAdded Hp).
  - apply (Hcur cur' new). apply (pushed_rowsAdded Hp).
  - eapply Hcur. reflexivity.
Qed.

Lemma blockRows_extend (hs hs' : list GameHeading) (i n nStatic : nat) (bId : jstring) :
  0 < n ->
  (forall h, In h hs -> items h <> [] ->
             exists h' extra, In h' hs' /\ items h' = items h ++ extra) ->
  blockRows hs lines i n nStatic bId -> blockRows hs' lines i n nStatic bId.
Proof.
  intros Hn Hext (h & j & Hin & Hrows).
  assert (Hne : items h <> []).
  { destruct (Hrows 0 Hn) as (it & H0 & _). intro E. rewrite E in H0.
    destruct (j + 0); discriminate. }
  destruct (Hext h Hin Hne) as (h' & extra & Hin' & Hitems).
  exists h', j. split; [assumption|]. intros k Hk.
  destruct (Hrows k Hk) as (it & H0 & H). exists it. split; [|exact H].
  rewrite Hitems, nth_error_app1; [assumption|].
  apply nth_error_Some. congruence.
Qed.

(** The rest of the loop keeps the rows of a block where they are. *)
Lemma parseLoop_blockRows (i n nStatic : nat) (bId : jstring) (final : PState) :
  0 < n ->
  forall fuel st,
    parseLoop rand36 fuel lines st = Some final ->
    blockRows (groupsOf st) lines i n nStatic bId ->
    blockRows (groupsOf final) lines i n nStatic bId.
Proof.
  intros Hn. induction fuel as [|fuel IH]; intros st H Hrows; cbn [parseLoop] in H;
    destruct (List.length lines <=? ps_i st) eqn:E;
    try (injection H as <-; exact Hrows); [discriminate|].
  apply (IH _ H). apply Nat.leb_gt in E.
  destruct (reaches_turn rand36 lines st E) as (line & _ & Ht).
  eapply blockRows_extend; [exact Hn | | exact Hrows].
  intros h Hin Hne. eapply turn_groups_extend; eassumption.
Qed.

(** The loop goes on from every state it reaches to its last state. *)
Lemma reaches_parseLoop (fuel0 : nat) (final : PState) (st : PState) :
  parseLoop rand36 fuel0 lines parseInit = Some final ->
  reaches rand36 lines st ->
  exists fuel, parseLoop rand36 fuel lines st = Some final.
Proof.
  intros H0. induction 1 as [|st Hr [fuel IH] Hi]; [eauto|].
  destruct fuel as [|fuel]; cbn [parseLoop] in IH;
    (destruct (List.length lines <=? ps_i st) eqn:E;
     [apply Nat.leb_le in E; lia|]); [discriminate | eauto].
Qed.

End Blocks.

(** The flexible-group pass keeps the rows of a block as they are. *)
Lemma flexPass_blockRows (rand36 : nat -> jstring) (lines : list jstring)
    (hs : list GameHeading) (rng i n nStatic : nat) (bId : jstring) :
  blockRows hs lines i n nStatic bId ->
  blockRows (flexPass rand36 hs rng) lines i n nStatic bId.
Proof.
  intros (h & j & Hin & Hrows).
  destruct (@Forall2_In_l _ _ _ _ _ h (@flexPass_flexed rand36 hs rng) Hin)
    as (h' & Hin' & _ & _ & Hf).
  exists h', j. split; [assumption|]. intros k Hk.
  destruct (Hrows k Hk) as (it & H0 & H1 & H2 & H3 & H4).
  destruct (flexed_fields_l Hf _ H0) as (it' & H0' & Hsame).
  exists it'. split; [exact H0'|].
  destruct Hsame as [->|[f ->]]; auto.
Qed.

(** The rows of a block in the parsed game. *)
Lemma parsed_blockRows (rand36 : nat -> jstring) (content fname fpath : jstring)
    (g : GameState) (st : PState) (new : list GameItem) (nStatic : nat)
    (bId marker : jstring) :
  parseMarkdownToGame rand36 content fname fpath = Some g ->
  reaches rand36 (splitLines [] content) st ->
  ps_i st < List.length (splitLines [] content) ->
  rowsAdded (ps_current st) (ps_current (parseStep rand36 (splitLines [] content) st)) new ->
  blockOf (splitLines [] content) (ps_i st) bId nStatic marker new ->
  0 < List.length new ->
  blockRows (headings g) (splitLines [] content) (ps_i st) (List.length new) nStatic bId.
Proof.
  intros Hp Hr Hi Hadd Hblock Hn. unfold parseMarkdownToGame in Hp.
  destruct (parseLoop rand36 _ _ parseInit) as [final|] eqn:Eloop; [|discriminate].
  injection Hp as <-. cbn [headings].
  apply flexPass_blockRows.
  destruct (@reaches_parseLoop rand36 _ _ final _ Eloop (reaches_step Hr Hi))
    as [fuel Hfuel].
  apply (@parseLoop_blockRows rand36 _ _ _ _ _ final Hn fuel _ Hfuel).
  eapply blockOf_blockRows; eassumption.
Qed.

(** *** The fragments that carry a blockId *)

Lemma blockId_index (i k : nat) (b : jstring) :
  b = js "table-" ++ decimal i \/ b = js "callout-" ++ decimal i ->
  b = js "table-" ++ decimal k \/ b = js "callout-" ++ decimal k ->
  i = k.
Proof.
  intros [-> | ->] [H | H]; try discriminate H.
  - apply app_inv_head in H. now apply decimal_inj.
  - apply app_inv_head in H. now apply decimal_inj.
Qed.

Lemma filter_none (A : Type) (p : A -> bool) (l : list A) :
  (forall x, In x l -> p x = false) -> filter p l = [].
Proof.
  induction l as [|x l IH]; intro H; simpl; [reflexivity|].
  rewrite (H x (or_introl eq_refl)). apply IH. intros y Hy. apply H. now right.
Qed.

Lemma flat_map_last (hs : list GameHeading) (cur : GameHeading) :
  flat_map items (hs ++ [cur]) = flat_map items hs ++ items cur.
Proof. rewrite flat_map_app. simpl. now rewrite app_nil_r. Qed.

Section Members.

Variable rand36 : nat -> jstring.
Variable lines : list jstring.

(** A turn keeps the fragments made so far and appends its own, which carry
    no blockId or the one of the block that starts at the line of the turn. *)
Lemma turn_items (st st' : PState) (line : jstring) :
  turn rand36 lines st line st' ->
  exists new,
    flat_map items (groupsOf st') = flat_map items (groupsOf st) ++ new
    /\ forall it b, In it new -> blockId it = Some b ->
         b = js "table-" ++ decimal (ps_i st) \/ b = js "callout-" ++ decimal (ps_i st).
Proof.
  intro Ht. unfold groupsOf.
  assert (Hcur : forall cur' new,
            items cur' = items (ps_current st) ++ new ->
            flat_map items (ps_headings st ++ [cur'])
            = flat_map items (ps_headings st ++ [ps_current st]) ++ new).
  { intros cur' new E. now rewrite !flat_map_last, E, app_assoc. }
  destruct Ht as [Hl|level t Hm Hlevel|level t Hm Hlevel
                  |cur' rng' new _ _ _ Hp Hb|cur' rng' new _ _ _ _ Hp Hb|_ _ _ _];
    cbn [ps_headings ps_current].
  - exists []. split; [now rewrite app_nil_r | intros it b []].
  - exists []. split; [|intros it b []].
    rewrite app_nil_r, !flat_map_last. cbn [items]. rewrite app_nil_r.
    destruct (items (ps_current st)) as [|x its] eqn:E; cbn [List.length Nat.ltb Nat.leb].
    + now rewrite app_nil_r.
    + now rewrite flat_map_last, E.
  - eexists. split; [apply Hcur; reflexivity|].
    intros it b [<-|[]] H. discriminate H.
  - exists new. split; [apply Hcur, (pushed_rowsAdded Hp)|].
    intros it b Hin H. apply In_nth_error in Hin as [k Hk].
    destruct (proj2 Hb k it Hk) as (_ & Hid & _). left. congruence.
  - exists new. split; [apply Hcur, (pushed_rowsAdded Hp)|].
    intros it b Hin H. apply In_nth_error in Hin as [k Hk].
    destruct (proj2 Hb k it Hk) as (_ & Hid & _). right. congruence.
  - eexists. split; [apply Hcur; reflexivity|].
    intros it b [<-|[]] H. discriminate H.
Qed.

(** Every blockId made so far names a line already read. *)
Lemma reaches_blockIds (st : PState) :
  reaches rand36 lines st ->
  forall it b, In it (flat_map items (groupsOf st)) -> blockId it = Some b ->
    exists k, k < ps_i st
              /\ (b = js "table-" ++ decimal k \/ b = js "callout-" ++ decimal k).
Proof.
  induction 1 as [|st Hr IH Hi]; [intros it b []|].
  destruct (reaches_turn rand36 lines st Hi) as (line & _ & Ht).
  pose proof (turn_progress Ht) as Hlt.
  destruct (turn_items Ht) as (new & E & Hnew).
  intros it b Hin Hb. rewrite E in Hin. apply in_app_or in Hin as [Hin|Hin].
  - destruct (IH it b Hin Hb) as (k & Hk & H). exists k. split; [lia | exact H].
  - exists (ps_i st). split; [exact Hlt | exact (Hnew it b Hin Hb)].
Qed.

(** No fragment made before the block that starts at line [i] carries its
    blockId. *)
Lemma members_before (st : PState) (b : jstring) :
  reaches rand36 lines st ->
  b = js "table-" ++ decimal (ps_i st) \/ b = js "callout-" ++ decimal (ps_i st) ->
  blockMembers (groupsOf st) b = [].
Proof.
  intros Hr Hb. apply filter_none. intros it Hin.
  destruct (inBlock b it) eqn:E; [|reflexivity].
  apply optEq_Some in E.
  destruct (reaches_blockIds Hr it Hin E) as (k & Hk & H).
  pose proof (@blockId_index _ _ _ Hb H). lia.
Qed.

(** The turn that starts a block makes all the fragments with its blockId. *)
Lemma members_start (st : PState) (new : list GameItem) (b marker : jstring)
    (nStatic : nat) :
  reaches rand36 lines st ->
  b = js "table-" ++ decimal (ps_i st) \/ b = js "callout-" ++ decimal (ps_i st) ->
  ps_headings (parseStep rand36 lines st) = ps_headings st ->
  rowsAdded (ps_current st) (ps_current (parseStep rand36 lines st)) new ->
  blockOf lines (ps_i st) b nStatic marker new ->
  blockMembers (groupsOf (parseStep rand36 lines st)) b = new.
Proof.
  intros Hr Hb Hhs (_ & _ & Hitems) [_ Hblock].
  pose proof (members_before Hr Hb) as Hold.
  unfold blockMembers, groupsOf in *.
  rewrite Hhs, flat_map_last, Hitems, app_assoc, <- flat_map_last, filter_app, Hold.
  cbn [app]. apply filter_all. intros it Hin. apply In_nth_error in Hin as [k Hk].
  destruct (Hblock k it Hk) as (_ & Hid & _). now apply optEq_Some.
Qed.

(** The turns after a block make no fragment with its blockId. *)
Lemma parseLoop_members (i : nat) (b : jstring) (final : PState) :
  b = js "table-" ++ decimal i \/ b = js "callout-" ++ decimal i ->
  forall fuel st,
    parseLoop rand36 fuel lines st = Some final -> i < ps_i st ->
    blockMembers (groupsOf final) b = blockMembers (groupsOf st) b.
Proof.
  intros Hb. induction fuel as [|fuel IH]; intros st H Hlt; cbn [parseLoop] in H;
    destruct (List.length lines <=? ps_i st) eqn:E;
    try (injection H as <-; reflexivity); [discriminate|].
  apply Nat.leb_gt in E.
  destruct (reaches_turn rand36 lines st E) as (line & _ & Ht).
  pose proof (turn_progress Ht) as Hp.
  rewrite (IH _ H) by lia.
  destruct (turn_items Ht) as (new & En & Hnew).
  unfold blockMembers. rewrite En, filter_app.
  rewrite (@filter_none _ (inBlock b) new); [apply app_nil_r|].
  intros it Hin. destruct (inBlock b it) eqn:Eb; [|reflexivity].
  apply optEq_Some in Eb.
  pose proof (@blockId_index _ _ _ Hb (Hnew it b Hin Eb)). lia.
Qed.

End Members.

Lemma flexed_blockIds (its out : list GameItem) :
  flexed its out -> List.map blockId out = List.map blockId its.
Proof. induction 1; simpl; congruence. Qed.

Lemma inBlock_length (b : jstring) (l l' : list GameItem) :
  List.map blockId l' = List.map blockId l ->
  List.length (filter (inBlock b) l') = List.length (filter (inBlock b) l).
Proof.
  revert l'. induction l as [|x l IH]; intros [|y l'] H; try discriminate H;
    [reflexivity|].
  injection H as Hxy H. cbn [filter].
  assert (E : inBlock b y = inBlock b x) by (unfold inBlock; now rewrite Hxy).
  rewrite E. destruct (inBlock b x); cbn [List.length]; now rewrite (IH l' H).
Qed.

(** The flexible-group pass keeps the blockIds. *)
Lemma flexPass_members (rand36 : nat -> jstring) (hs : list GameHeading) (rng : nat)
    (b : jstring) :
  List.length (blockMembers (flexPass rand36 hs rng) b)
  = List.length (blockMembers hs b).
Proof.
  unfold blockMembers. apply inBlock_length.
  pose proof (flexPass_flexed rand36 hs rng) as Hf.
  induction Hf as [|h h' hs0 hs' (_ & _ & Hfl) _ IH]; [reflexivity|].
  cbn [flat_map]. now rewrite !map_app, IH, (flexed_blockIds Hfl).
Qed.

(** The fragments of the parsed game that carry the blockId of a block are
    as many as the block has rows. *)
Lemma parsed_members (rand36 : nat -> jstring) (content fname fpath : jstring)
    (g : GameState) (st : PState) (new : list GameItem) (nStatic : nat)
    (b marker : jstring) :
  parseMarkdownToGame rand36 content fname fpath = Some g ->
  reaches rand36 (splitLines [] content) st ->
  ps_i st < List.length (splitLines [] content) ->
  b = js "table-" ++ decimal (ps_i st) \/ b = js "callout-" ++ decimal (ps_i st) ->
  ps_headings (parseStep rand36 (splitLines [] content) st) = ps_headings st ->
  rowsAdded (ps_current st) (ps_current (parseStep rand36 (splitLines [] content) st)) new ->
  blockOf (splitLines [] content) (ps_i st) b nStatic marker new ->
  List.length (blockMembers (headings g) b) = List.length new.
Proof.
  intros Hp Hr Hi Hb Hhs Hadd Hblock. unfold parseMarkdownToGame in Hp.
  destruct (parseLoop rand36 _ _ parseInit) as [final|] eqn:Eloop; [|discriminate].
  injection Hp as <-. cbn [headings]. fold (groupsOf final).
  rewrite flexPass_members.
  destruct (@reaches_parseLoop rand36 _ _ final _ Eloop (reaches_step Hr Hi))
    as [fuel Hfuel].
  rewrite (@parseLoop_members rand36 _ (ps_i st) b final Hb fuel _ Hfuel)
    by (apply parseStep_progress; exact Hi).
  now rewrite (@members_start rand36 _ st new b marker nStatic Hr Hb Hhs Hadd Hblock).
Qed.

Lemma leadingLines_stop (p : jstring -> bool) (ls : list jstring) (l : jstring) :
  nth_error ls (List.length (leadingLines p ls)) = Some l -> p l = false.
Proof.
  induction ls as [|l0 ls IH]; [discriminate|].
  cbn [leadingLines]. destruct (p l0) eqn:E.
  - cbn [List.length nth_error]. exact IH.
  - cbn [List.length nth_error]. now intros [= <-].
Qed.

(** The line after a table does not start with a pipe, and the line after a
    callout does not start with [>]. *)
Lemma tableLength_stop (lines : list jstring) (i : nat) (l : jstring) :
  nth_error lines (i + tableLength lines i) = Some l ->
  startsWith (js "|") (trim l) = false.
Proof.
  unfold tableLength. intro H. apply (@leadingLines_stop pipeLine (skipn (i + 2) lines)).
  rewrite nth_error_skipn. rewrite <- H. f_equal. lia.
Qed.

Lemma calloutLength_stop (lines : list jstring) (i : nat) (l : jstring) :
  nth_error lines (i + calloutLength lines i) = Some l ->
  startsWith (js ">") (trim l) = false.
Proof.
  unfold calloutLength. intro H.
  apply (@leadingLines_stop quoteLine (skipn (S i) lines)).
  rewrite nth_error_skipn. rewrite <- H. f_equal. lia.
Qed.

(** C5: a table that starts at line [i] is made of the header, the
    separator row and every line after them up to the first one that does
    not start with a pipe; a callout that starts at line [i] is made of its
    first line and every line after it up to the first one that does not
    start with [>].  The turn of the main loop that starts the block appends
    to the group being filled one fragment for each of these lines, in
    order, and for no other line, and the next turn starts at the line after
    the block, which does not start with the marker; in the parsed game
    these fragments sit at consecutive indices of one group and all carry
    the one blockId [table-i] (resp. [callout-i]), which no other fragment
    of the game carries; a fragment's
    [originalIndex] is its index in its group; and
    [isBlockFullyRestored (blockId, heading, slots)] returns, with [true] if
    and only if [isSlotCorrect] is true, at its index, of every fragment of
    the heading that carries this blockId. *)
Theorem block_atomicity :
  (forall rand36 lines st line,
     nth_error lines (ps_i st) = Some line ->
     (tableStart lines (ps_i st) line = true ->
      exists new,
        rowsAdded (ps_current st) (ps_current (parseStep rand36 lines st)) new
        /\ ps_headings (parseStep rand36 lines st) = ps_headings st
        /\ ps_i (parseStep rand36 lines st) = ps_i st + List.length new
        /\ blockOf lines (ps_i st) (js "table-" ++ decimal (ps_i st)) 2 (js "|") new
        /\ List.length new = tableLength lines (ps_i st)
        /\ forall l, nth_error lines (ps_i st + List.length new) = Some l ->
                     startsWith (js "|") (trim l) = false)
     /\ (tableStart lines (ps_i st) line = false -> calloutStart line = true ->
         exists new,
           rowsAdded (ps_current st) (ps_current (parseStep rand36 lines st)) new
           /\ ps_headings (parseStep rand36 lines st) = ps_headings st
           /\ ps_i (parseStep rand36 lines st) = ps_i st + List.length new
           /\ blockOf lines (ps_i st) (js "callout-" ++ decimal (ps_i st)) 1 (js ">") new
           /\ List.length new = calloutLength lines (ps_i st)
           /\ forall l, nth_error lines (ps_i st + List.length new) = Some l ->
                        startsWith (js ">") (trim l) = false))
  /\ (forall rand36 content fname fpath g st line,
        parseMarkdownToGame rand36 content fname fpath = Some g ->
        reaches rand36 (splitLines [] content) st ->
        nth_error (splitLines [] content) (ps_i st) = Some line ->
        (tableStart (splitLines [] content) (ps_i st) line = true ->
         blockRows (headings g) (splitLines [] content) (ps_i st)
                   (tableLength (splitLines [] content) (ps_i st)) 2
                   (js "table-" ++ decimal (ps_i st))
         /\ List.length (blockMembers (headings g) (js "table-" ++ decimal (ps_i st)))
            = tableLength (splitLines [] content) (ps_i st))
        /\ (tableStart (splitLines [] content) (ps_i st) line = false ->
            calloutStart line = true ->
            blockRows (headings g) (splitLines [] content) (ps_i st)
                      (calloutLength (splitLines [] content) (ps_i st)) 1
                      (js "callout-" ++ decimal (ps_i st))
            /\ List.length (blockMembers (headings g)
                              (js "callout-" ++ decimal (ps_i st)))
               = calloutLength (splitLines [] content) (ps_i st)))
  /\ (forall rand36 content fname fpath g h idx item,
        parseMarkdownToGame rand36 content fname fpath = Some g ->
        In h (headings g) -> nth_error (items h) idx = Some item ->
        originalIndex item = idx)
  /\ (forall bId h slots0,
        (exists b, isBlockFullyRestored bId h slots0 = Returns b)
        /\ (isBlockFullyRestored bId h slots0 = Returns true
            <-> forall idx item,
                  nth_error (items h) idx = Some item -> blockId item = Some bId ->
                  isSlotCorrect (slotAt slots0 idx) idx h = Returns true)).
Proof.
  split; [|split; [|split]].
  - intros rand36 lines st line Hline. split.
    + intro Htab.
      destruct (@parseStep_table rand36 lines st line Hline Htab)
        as (new & Hadd & Hhs & Hi & Hb).
      pose proof (@parseStep_table_index rand36 lines st line Hline Htab) as Hidx.
      assert (Hlen : List.length new = tableLength lines (ps_i st)) by lia.
      exists new. split; [exact Hadd|]. split; [exact Hhs|]. split; [exact Hi|].
      split; [exact Hb|]. split; [exact Hlen|].
      rewrite Hlen. apply tableLength_stop.
    + intros Htab Hc.
      destruct (@parseStep_callout rand36 lines st line Hline Htab Hc)
        as (new & Hadd & Hhs & Hi & Hb).
      pose proof (@parseStep_callout_index rand36 lines st line Hline Htab Hc) as Hidx.
      assert (Hlen : List.length new = calloutLength lines (ps_i st)) by lia.
      exists new. split; [exact Hadd|]. split; [exact Hhs|]. split; [exact Hi|].
      split; [exact Hb|]. split; [exact Hlen|].
      rewrite Hlen. apply calloutLength_stop.
  - intros rand36 content fname fpath g st line Hp Hr Hline.
    assert (Hi : ps_i st < List.length (splitLines [] content))
      by (apply nth_error_Some; congruence).
    split.
    + intro Htab.
      destruct (@parseStep_table rand36 _ st line Hline Htab)
        as (new & Hadd & Hhs & Hi' & Hb).
      pose proof (@parseStep_table_index rand36 _ st line Hline Htab) as Hidx.
      assert (Hlen : List.length new = tableLength (splitLines [] content) (ps_i st))
        by lia.
      rewrite <- Hlen. split.
      * apply (@parsed_blockRows rand36 content fname fpath g st new 2 _ (js "|"));
          try assumption.
        rewrite Hlen. unfold tableLength. lia.
      * apply (@parsed_members rand36 content fname fpath g st new 2 _ (js "|"));
          try assumption.
        now left.
    + intros Htab Hc.
      destruct (@parseStep_callout rand36 _ st line Hline Htab Hc)
        as (new & Hadd & Hhs & Hi' & Hb).
      pose proof (@parseStep_callout_index rand36 _ st line Hline Htab Hc) as Hidx.
      assert (Hlen : List.length new = calloutLength (splitLines [] content) (ps_i st))
        by lia.
      rewrite <- Hlen. split.
      * apply (@parsed_blockRows rand36 content fname fpath g st new 1 _ (js ">"));
          try assumption.
        rewrite Hlen. unfold calloutLength. lia.
      * apply (@parsed_members rand36 content fname fpath g st new 1 _ (js ">"));
          try assumption.
        now right.
  - intros rand36 content fname fpath g h idx item Hp Hin Hidx.
    now destruct (@parsed_placed rand36 _ _ _ _ _ _ _ Hp Hin Hidx).
  - intros bId h slots0. split.
    + apply isBlockFullyRestored_returns.
    + apply isBlockFullyRestored_true.
Qed.

Lemma block_atomicity_witness :
  (blockRows (headings tableGame) (splitLines [] tableDocument) 0 4 2 (js "table-0")
   /\ List.length (blockMembers (headings tableGame) (js "table-0")) = 4)
  /\ (blockRows (headings calloutGame) (splitLines [] calloutDocument) 0 3 1
                (js "callout-0")
      /\ List.length (blockMembers (headings calloutGame) (js "callout-0")) = 3).
Proof.
  destruct block_atomicity as (_ & Hgame & _).
  assert (Ht : parseMarkdownToGame sampleRandom36 tableDocument (js "note") (js "note.md")
               = Some tableGame) by (vm_compute; reflexivity).
  assert (Hc : parseMarkdownToGame sampleRandom36 calloutDocument (js "note")
                 (js "note.md") = Some calloutGame) by (vm_compute; reflexivity).
  split.
  - exact (proj1 (Hgame sampleRandom36 tableDocument (js "note") (js "note.md") tableGame
                    parseInit (js "| H |") Ht (reaches_init _ _) eq_refl) eq_refl).
  - exact (proj2 (Hgame sampleRandom36 calloutDocument (js "note") (js "note.md")
                    calloutGame parseInit (js "> [!note] N") Hc (reaches_init _ _)
                    eq_refl) eq_refl eq_refl).
Defined.

(** ** The groups of a parsed document *)

Lemma jseq_cons_nil (x : N) (l : jstring) : jseq (x :: l) [] = false.
Proof. destruct (jseq (x :: l) []) eqn:E; [apply jseq_true in E; discriminate | reflexivity]. Qed.

Lemma specGroups_blank (rest : list jstring) (t : jstring) (acc : list jstring) :
  specGroups ([] :: rest) t acc = specGroups rest t acc.
Proof. cbn [specGroups]. now rewrite jseq_refl. Qed.

Lemma specGroups_fragment (l : jstring) (rest : list jstring) (t : jstring)
    (acc : list jstring) :
  l <> [] -> isGroupHeading l = false ->
  specGroups (l :: rest) t acc = specGroups rest t (acc ++ [l]).
Proof.
  intros Hne Hg. cbn [specGroups].
  destruct l as [|x l]; [now destruct Hne|]. rewrite jseq_cons_nil.
  unfold isGroupHeading in Hg.
  destruct (headingMatch (x :: l)) as [[level t']|]; [|reflexivity].
  now rewrite Hg.
Qed.

Lemma specGroups_heading (l : jstring) (rest : list jstring) (t t' : jstring)
    (level : nat) (acc : list jstring) :
  headingMatch l = Some (level, t') -> level <= 2 ->
  specGroups (l :: rest) t acc
  = match acc with
    | [] => specGroups rest t' []
    | _ :: _ => (t, acc) :: specGroups rest t' []
    end.
Proof.
  intros Hh Hl. cbn [specGroups].
  destruct (headingMatch_hash _ Hh) as [r ->]. rewrite jseq_cons_nil, Hh.
  apply Nat.leb_le in Hl. now rewrite Hl.
Qed.

(** Lines that hold no heading of level 1 or 2 go to the open group, the
    empty ones apart. *)
Lemma specGroups_prefix (pre rest : list jstring) :
  forall t acc,
    (forall l, In l pre -> isGroupHeading l = false) ->
    specGroups (pre ++ rest) t acc
    = specGroups rest t (acc ++ filter nonEmptyLine pre).
Proof.
  induction pre as [|l pre IH]; intros t acc H.
  - simpl. now rewrite app_nil_r.
  - rewrite <- app_comm_cons. destruct l as [|x l].
    + rewrite specGroups_blank. cbn [filter]. unfold nonEmptyLine at 1.
      rewrite jseq_refl. cbn [negb]. apply IH. intros l Hl. apply H. now right.
    + rewrite specGroups_fragment; [|discriminate|apply H; now left].
      cbn [filter]. unfold nonEmptyLine at 1. rewrite jseq_cons_nil. cbn [negb].
      rewrite IH by (intros l' Hl; apply H; now right).
      now rewrite <- app_assoc.
Qed.

Lemma specGroups_kept (ls rest : list jstring) (t : jstring) (acc : list jstring) :
  (forall l, In l ls -> keptLine l = true) ->
  specGroups (ls ++ rest) t acc = specGroups rest t (acc ++ ls).
Proof.
  intro H. rewrite specGroups_prefix.
  - f_equal. f_equal. apply filter_all. intros x Hx. specialize (H x Hx).
    unfold keptLine in H. now apply andb_true_iff in H.
  - intros l Hl. specialize (H l Hl). unfold keptLine in H.
    apply andb_true_iff in H as [_ H]. now apply negb_true_iff in H.
Qed.

Lemma filter_fixed (A : Type) (p : A -> bool) (l : list A) :
  filter p l = l -> forall x, In x l -> p x = true.
Proof. intros E x Hx. rewrite <- E in Hx. now apply filter_In in Hx. Qed.

Lemma skipn_cut (A : Type) (i n : nat) (l : list A) :
  skipn i l = firstn n (skipn i l) ++ skipn (i + n) l.
Proof.
  rewrite (Nat.add_comm i n), <- skipn_skipn. symmetry. apply firstn_skipn.
Qed.

Lemma leadingLines_split (p : jstring -> bool) (ls : list jstring) :
  exists rest,
    ls = leadingLines p ls ++ rest
    /\ (forall l, In l (leadingLines p ls) -> p l = true)
    /\ (rest = [] \/ exists l rest', rest = l :: rest' /\ p l = false).
Proof.
  induction ls as [|l ls (rest & E & Hall & Hrest)].
  - exists []. split; [reflexivity|]. split; [intros l []|now left].
  - cbn [leadingLines]. destruct (p l) eqn:Ep.
    + exists rest. split; [simpl; congruence|]. split; [|exact Hrest].
      intros x [<-|Hx]; auto.
    + exists (l :: ls). split; [reflexivity|]. split; [intros x []|].
      right. now exists l, ls.
Qed.

Section Groups.

Variable rand36 : nat -> jstring.
Variable lines : list jstring.

(** What the loop has still to produce: the groups of the specification on
    the lines not yet read, with the group being filled open. *)
Lemma turn_specGroups (st st' : PState) (line : jstring) :
  nth_error lines (ps_i st) = Some line ->
  turn rand36 lines st line st' ->
  List.map groupTexts (ps_headings st')
    ++ specGroups (skipn (ps_i st') lines) (title (ps_current st'))
         (List.map text (items (ps_current st')))
  = List.map groupTexts (ps_headings st)
      ++ specGroups (skipn (ps_i st) lines) (title (ps_current st))
           (List.map text (items (ps_current st))).
Proof.
  intros Hline Ht.
  assert (Hskip : firstn 1 (skipn (ps_i st) lines) = [line]).
  { destruct (nth_error_split lines (ps_i st) Hline) as (l1 & l2 & -> & Hlen).
    rewrite skipn_app, <- Hlen, Nat.sub_diag.
    replace (skipn (List.length l1) l1) with (@nil jstring)
      by (symmetry; apply skipn_all2; lia).
    reflexivity. }
  assert (Hone : skipn (ps_i st) lines = line :: skipn (S (ps_i st)) lines).
  { rewrite (skipn_cut (ps_i st) 1 lines) at 1. rewrite Hskip.
    now replace (ps_i st + 1) with (S (ps_i st)) by lia. }
  destruct Ht as [Hb|level t Hh Hl|level t Hh Hl|cur' rng' new Hne Hh Htab Hp Hblock
                  |cur' rng' new Hne Hh Htab Hc Hp Hblock|Hne Hh Htab Hc];
    cbn [ps_i ps_current ps_headings].
  - rewrite Hone. subst line. now rewrite specGroups_blank.
  - rewrite Hone, (@specGroups_heading line _ _ t level _ Hh Hl). cbn [title items List.map].
    destruct (items (ps_current st)) as [|x its] eqn:E;
      cbn [List.length Nat.ltb Nat.leb List.map].
    + reflexivity.
    + rewrite map_app, <- app_assoc. cbn [List.map app].
      replace (groupTexts (ps_current st))
        with (title (ps_current st), text x :: List.map text its)
        by (unfold groupTexts; now rewrite E).
      reflexivity.
  - rewrite Hone, specGroups_fragment.
    + simpl. now rewrite map_app.
    + destruct (headingMatch_hash _ Hh) as [r ->]. discriminate.
    + unfold isGroupHeading. rewrite Hh. apply Nat.leb_gt. lia.
  - destruct (pushed_rowsAdded Hp) as (-> & _ & ->).
    rewrite (skipn_cut (ps_i st) (List.length new) lines).
    assert (Hk : filter keptLine (firstn (List.length new) (skipn (ps_i st) lines))
                 = List.map text new).
    { apply (@block_kept lines (ps_i st) 2 (js "table-" ++ decimal (ps_i st)) (js "|")
               new line Hline Hne Hh); [|lia|now left|exact Hblock].
      intros _. unfold tableStart in Htab. now apply andb_true_iff in Htab. }
    rewrite (texts_of_lines lines new (ps_i st)) in *
      by (intros k it Hk'; now apply (proj2 Hblock)).
    rewrite specGroups_kept by (apply filter_fixed, Hk). now rewrite map_app.
  - destruct (pushed_rowsAdded Hp) as (-> & _ & ->).
    rewrite (skipn_cut (ps_i st) (List.length new) lines).
    assert (Hk : filter keptLine (firstn (List.length new) (skipn (ps_i st) lines))
                 = List.map text new).
    { apply (@block_kept lines (ps_i st) 1 (js "callout-" ++ decimal (ps_i st)) (js ">")
               new line Hline Hne Hh); [intro; discriminate|lia|now right|exact Hblock]. }
    rewrite (texts_of_lines lines new (ps_i st)) in *
      by (intros k it Hk'; now apply (proj2 Hblock)).
    rewrite specGroups_kept by (apply filter_fixed, Hk). now rewrite map_app.
  - rewrite Hone, specGroups_fragment.
    + simpl. now rewrite map_app.
    + exact Hne.
    + unfold isGroupHeading. now rewrite Hh.
Qed.

Lemma reaches_specGroups (st : PState) :
  reaches rand36 lines st ->
  List.map groupTexts (ps_headings st)
    ++ specGroups (skipn (ps_i st) lines) (title (ps_current st))
         (List.map text (items (ps_current st)))
  = specGroups lines (js "Introduction") [].
Proof.
  induction 1 as [|st Hr IH Hi]; [reflexivity|].
  destruct (reaches_turn rand36 lines st Hi) as (line & Hline & Ht).
  now rewrite (turn_specGroups Hline Ht).
Qed.

End Groups.

Lemma flexed_groupTexts (hs hs' : list GameHeading) :
  Forall2 (fun h h' => title h' = title h /\ isRestored h' = isRestored h
                       /\ flexed (items h) (items h')) hs hs' ->
  List.map groupTexts hs' = List.map groupTexts hs.
Proof.
  induction 1 as [|h h' hs hs' (Ht & _ & Hf) _ IH]; [reflexivity|].
  simpl. rewrite IH. unfold groupTexts. now rewrite Ht, (flexed_texts Hf).
Qed.

(** The groups of a parsed document are those of the specification. *)
Lemma parsed_specGroups (rand36 : nat -> jstring) (content fname fpath : jstring)
    (g : GameState) :
  parseMarkdownToGame rand36 content fname fpath = Some g ->
  List.map groupTexts (headings g)
  = specGroups (splitLines [] content) (js "Introduction") [].
Proof.
  intro Hp. destruct (@parse_result rand36 _ _ _ _ Hp) as (st & Hr & Hlen & Hg).
  rewrite Hg, (flexed_groupTexts (flexPass_flexed rand36 _ _)).
  rewrite <- (reaches_specGroups Hr), skipn_all2 by exact Hlen.
  now rewrite map_app.
Qed.

Lemma specGroups_no_heading (lines : list jstring) :
  (forall l, In l lines -> isGroupHeading l = false) ->
  specGroups lines (js "Introduction") []
  = [(js "Introduction", filter nonEmptyLine lines)].
Proof.
  intro H. rewrite <- (app_nil_r lines) at 1. now rewrite specGroups_prefix.
Qed.

(** The group of the lines before the first heading of level 1 or 2 comes
    first, when one of these lines is not empty. *)
Lemma specGroups_introduction (lines : list jstring) :
  filter nonEmptyLine (beforeFirstHeading lines) <> [] ->
  exists rest,
    specGroups lines (js "Introduction") []
    = (js "Introduction", filter nonEmptyLine (beforeFirstHeading lines)) :: rest.
Proof.
  intro Hne. unfold beforeFirstHeading in *.
  destruct (leadingLines_split (fun l => negb (isGroupHeading l)) lines)
    as (rest & E & Hall & Hrest).
  remember (leadingLines (fun l => negb (isGroupHeading l)) lines) as pre eqn:Hpre.
  clear Hpre. rewrite E, specGroups_prefix
    by (intros l Hl; apply negb_true_iff; now apply Hall).
  cbn [app]. destruct Hrest as [->|(l & rest' & -> & Hl)].
  - exists []. reflexivity.
  - apply negb_false_iff in Hl. unfold isGroupHeading in Hl.
    destruct (headingMatch l) as [[level t']|] eqn:Hh; [|discriminate].
    apply Nat.leb_le in Hl. rewrite (@specGroups_heading l _ _ t' level _ Hh Hl).
    destruct (filter nonEmptyLine _) as [|x xs]; [now destruct Hne|].
    eexists. reflexivity.
Qed.


